(** * golo: deferring Go compile errors to run time

    A shallow embedding of [golo/fixer.go] (the [Fixer]) and of the build
    loop of the [Runner], together with the properties of the patch engine
    and of the two fixpoint loops.

    Conventions of the embedding:
    - [[]byte] is [list byte], a Go [string] is [string], [int] and
      [token.Pos] are [Z] (all offsets are bounded by the length of a source
      file, far from the 64-bit range);
    - a Go run-time panic (nil dereference, slice out of range) is the
      outcome [Fault];
    - [f.Fixed], the overlay, is a [gmap string (list byte)] threaded through
      the methods of the [Fixer];
    - pointers into a syntax tree are compared by the path of the node from
      the root: go/parser allocates every node once, so two pointers are
      equal exactly when they reach the same place of the tree;
    - what is printed on standard output is not part of the model. *)

From stdpp Require Import gmap strings list.
From Stdlib Require Import ZArith Lia.
From Stdlib.Strings Require Import Byte.

Local Open Scope Z_scope.
Local Set Warnings "-register-all,-clear-no-such-hyp".

(** ** Outcomes of Go code that may panic *)

Inductive Result (A : Type) : Type :=
| Ok (a : A)
| Fault.
Arguments Ok {A} a.
Arguments Fault {A}.

#[global] Instance Result_bind : MBind Result :=
  fun A B (k : A → Result B) (r : Result A) =>
    match r with
    | Ok a => k a
    | Fault => Fault
    end.

(** ** Bytes and slices *)

Definition nl : byte := "010"%byte.
Definition cr : byte := "013"%byte.
Definition rbrace : byte := "}"%byte.

Definition len (s : list byte) : Z := Z.of_nat (length s).

(** [s[lo:hi]]; Go panics when the bounds are out of order or out of range.
    The upper bound is checked against the length: nothing in the program
    relies on spare capacity of a slice. *)
Definition slice (s : list byte) (lo hi : Z) : Result (list byte) :=
  if (0 <=? lo) && (lo <=? hi) && (hi <=? len s)
  then Ok (take (Z.to_nat (hi - lo)) (drop (Z.to_nat lo) s))
  else Fault.

Definition sliceFrom (s : list byte) (lo : Z) : Result (list byte) :=
  slice s lo (len s).

Definition sliceTo (s : list byte) (hi : Z) : Result (list byte) :=
  slice s 0 hi.

(** [s[i]] *)
Definition index (s : list byte) (i : Z) : Result byte :=
  if (0 <=? i) && (i <? len s)
  then match s !! Z.to_nat i with Some b => Ok b | None => Fault end
  else Fault.

Definition bytes (s : string) : list byte := String.list_byte_of_string s.

(** [strings.Contains] *)
Fixpoint HasPrefix (s prefix : string) : bool :=
  match prefix, s with
  | EmptyString, _ => true
  | String _ _, EmptyString => false
  | String a p, String b t => if Ascii.eqb a b then HasPrefix t p else false
  end.

Fixpoint Contains (s substr : string) : bool :=
  HasPrefix s substr ||
  match s with
  | EmptyString => false
  | String _ t => Contains t substr
  end.

(** [bytes.ContainsRune] on ASCII *)
Definition ContainsRune (set : list byte) (r : byte) : bool :=
  existsb (Byte.eqb r) set.

(** [bytes.IndexFunc] and [bytes.LastIndexFunc] with a closure that updates a
    captured variable of type [St].  Go decodes the slice rune by rune; the
    closures of this program tell apart ASCII runes only and an ASCII byte is
    always a rune of its own, so the scan is written byte by byte. *)
Section IndexFunc.
Context {St : Type}.
Variable f : byte → St → bool * St.

Fixpoint IndexFuncFrom (i : Z) (s : list byte) (st : St) : Z :=
  match s with
  | [] => -1
  | r :: s' =>
      let '(hit, st') := f r st in
      if hit then i else IndexFuncFrom (i + 1) s' st'
  end.

Definition IndexFunc (s : list byte) (st : St) : Z := IndexFuncFrom 0 s st.

Fixpoint LastIndexFuncRev (i : Z) (rs : list byte) (st : St) : Z :=
  match rs with
  | [] => -1
  | r :: rs' =>
      let '(hit, st') := f r st in
      if hit then i else LastIndexFuncRev (i - 1) rs' st'
  end.

Definition LastIndexFunc (s : list byte) (st : St) : Z :=
  LastIndexFuncRev (len s - 1) (rev s) st.
End IndexFunc.

(** ** go/token and go/ast *)

Definition Pos := Z.
Definition NoPos : Pos := 0.
Definition IsValid (p : Pos) : bool := negb (p =? NoPos).

Inductive Token := IMPORT | CONST | TYPE | VAR | DEFINE | ASSIGN | OtherTok.

Definition Token_eqb (a b : Token) : bool :=
  match a, b with
  | IMPORT, IMPORT | CONST, CONST | TYPE, TYPE | VAR, VAR
  | DEFINE, DEFINE | ASSIGN, ASSIGN | OtherTok, OtherTok => true
  | _, _ => false
  end.

Record Ident := mkIdent { NamePos : Pos; Name : string }.
Record BasicLit := mkBasicLit { ValuePos : Pos; Value : string }.

(** The node types the fixer tells apart, with the fields go/ast gives them;
    every other statement is an [OtherStmt] and every other node (expression,
    type, field list, declaration, spec) an [OtherNode], each with its extent
    and its children in the order astutil.Apply visits them.  The files are
    parsed with mode 0, so the [Doc] and [Comment] fields are always nil. *)
Inductive Node : Type :=
| IdentN (id : Ident)
| BasicLitN (lit : BasicLit)
| ImportSpec (name : option Ident) (path : BasicLit) (endPos : Pos)
| GenDecl (tokPos : Pos) (tok : Token) (lparen : Pos) (specs : list Node) (rparen : Pos)
| FuncDecl (recv : option Node) (name : Ident) (type : Node) (body : option BlockStmt)
| BlockStmtN (b : BlockStmt)
| AssignStmt (lhs : list Node) (tokPos : Pos) (tok : Token) (rhs : list Node)
| OtherStmt (pos end_ : Pos) (sub : list (option Node))
| OtherNode (pos end_ : Pos) (sub : list (option Node))
with BlockStmt : Type :=
| Block (lbrace : Pos) (stmts : list Node) (rbrace_ : Pos).

Record File := mkFile {
  FileStart : Pos;
  Package : Pos;
  FileName : Ident;
  Decls : list Node
}.

Definition Lbrace (b : BlockStmt) : Pos := let 'Block l _ _ := b in l.
Definition List (b : BlockStmt) : list Node := let 'Block _ l _ := b in l.
Definition Rbrace (b : BlockStmt) : Pos := let 'Block _ _ r := b in r.

Definition strlen (s : string) : Z := Z.of_nat (String.length s).

Definition IdentPos (i : Ident) : Pos := NamePos i.
Definition IdentEnd (i : Ident) : Pos := NamePos i + strlen (Name i).
Definition BasicLitPos (l : BasicLit) : Pos := ValuePos l.
Definition BasicLitEnd (l : BasicLit) : Pos := ValuePos l + strlen (Value l).

(** [Pos()] and [End()] of go/ast.  Where go/ast indexes the first or last
    element of a list (the specs of a declaration without parentheses, the
    sides of an assignment) go/parser always supplies one; the empty list
    is given [NoPos] here. *)
Fixpoint NodePos (n : Node) : Pos :=
  match n with
  | IdentN i => IdentPos i
  | BasicLitN l => BasicLitPos l
  | ImportSpec name path _ =>
      match name with Some i => IdentPos i | None => BasicLitPos path end
  | GenDecl tokPos _ _ _ _ => tokPos
  | FuncDecl _ _ type _ => NodePos type
  | BlockStmtN b => let 'Block lbrace _ _ := b in lbrace
  | AssignStmt lhs _ _ _ =>
      match lhs with x :: _ => NodePos x | [] => NoPos end
  | OtherStmt p _ _ => p
  | OtherNode p _ _ => p
  end.

Fixpoint NodeEnd (n : Node) : Pos :=
  match n with
  | IdentN i => IdentEnd i
  | BasicLitN l => BasicLitEnd l
  | ImportSpec _ path endPos =>
      if IsValid endPos then endPos else BasicLitEnd path
  | GenDecl _ _ _ specs rparen =>
      if IsValid rparen then rparen + 1
      else match specs with s :: _ => NodeEnd s | [] => NoPos end
  | FuncDecl _ _ type body =>
      match body with
      | Some b => BlockEnd b
      | None => NodeEnd type
      end
  | BlockStmtN b => BlockEnd b
  | AssignStmt _ _ _ rhs =>
      (fix lastEnd (l : list Node) (d : Pos) : Pos :=
         match l with [] => d | x :: l' => lastEnd l' (NodeEnd x) end) rhs NoPos
  | OtherStmt _ e _ => e
  | OtherNode _ e _ => e
  end
with BlockEnd (b : BlockStmt) : Pos :=
  match b with
  | Block lbrace stmts rbrace_ =>
      if IsValid rbrace_ then rbrace_ + 1
      else match stmts with
           | [] => lbrace + 1
           | _ =>
             (fix lastEnd (l : list Node) (d : Pos) : Pos :=
                match l with [] => d | x :: l' => lastEnd l' (NodeEnd x) end)
               stmts NoPos
           end
  end.

Definition FileEnd (f : File) : Pos :=
  match last (Decls f) with
  | Some d => NodeEnd d
  | None => IdentEnd (FileName f)
  end.

(** ** astutil.Apply

    [Apply(root, pre, post)] walks the tree depth first.  [pre] is called
    before the children of a node (also for a nil child); when it returns
    false the children and [post] are skipped.  [post] is called after the
    children; when it returns false the whole walk is aborted.  Both closures
    update the variables they capture, here the state [S]. *)

Definition Path := list nat.

Inductive AnyNode :=
| FileA (f : File)
| NodeA (n : Node).

Definition AnyPos (a : AnyNode) : Pos :=
  match a with FileA f => Package f | NodeA n => NodePos n end.
Definition AnyEnd (a : AnyNode) : Pos :=
  match a with FileA f => FileEnd f | NodeA n => NodeEnd n end.

(** [cNode] is [c.Node()] ([None] for nil), [cPath] the place of that node
    and [cParent] the place of [c.Parent()]; the parent of the root is a
    wrapper that is no node of the tree ([None]). *)
Record Cursor := mkCursor {
  cNode : option AnyNode;
  cPath : Path;
  cParent : option Path
}.

Inductive Walk (S : Type) : Type :=
| Continue (s : S)
| Aborted (s : S)
| Panicked.
Arguments Continue {S} s.
Arguments Aborted {S} s.
Arguments Panicked {S}.

Section Apply.
Context {S : Type}.
Variable pre post : Cursor → S → Result (bool * S).

Definition andThen (w : Walk S) (k : S → Walk S) : Walk S :=
  match w with
  | Continue s => k s
  | _ => w
  end.

Definition visit (c : Cursor) (children : S → Walk S) (s : S) : Walk S :=
  match pre c s with
  | Fault => Panicked
  | Ok (false, s1) => Continue s1
  | Ok (true, s1) =>
      andThen (children s1) (fun s2 =>
        match post c s2 with
        | Fault => Panicked
        | Ok (true, s3) => Continue s3
        | Ok (false, s3) => Aborted s3
        end)
  end.

(** a nil child, and a child without children of its own *)
Definition applyNil (parent : Path) (i : nat) (s : S) : Walk S :=
  visit (mkCursor None (i :: parent) (Some parent)) Continue s.

Definition applyLeaf (parent : Path) (i : nat) (n : Node) (s : S) : Walk S :=
  visit (mkCursor (Some (NodeA n)) (i :: parent) (Some parent)) Continue s.

Definition applyIdent (parent : Path) (i : nat) (id : option Ident) (s : S) : Walk S :=
  match id with
  | Some x => applyLeaf parent i (IdentN x) s
  | None => applyNil parent i s
  end.

(** The children are numbered in the order of the walk; a child at index
    [i] of the node at [me] is at [i :: me]. *)
Fixpoint apply (parent : option Path) (me : Path) (n : Node) (s : S) {struct n} : Walk S :=
  let applyList :=
    fix applyList (i : nat) (l : list Node) (s : S) {struct l} : Walk S :=
      match l with
      | [] => Continue s
      | x :: l' => andThen (apply (Some me) (i :: me) x s) (applyList (Datatypes.S i) l')
      end in
  let applyOpts :=
    fix applyOpts (i : nat) (l : list (option Node)) (s : S) {struct l} : Walk S :=
      match l with
      | [] => Continue s
      | None :: l' => andThen (applyNil me i s) (applyOpts (Datatypes.S i) l')
      | Some x :: l' => andThen (apply (Some me) (i :: me) x s) (applyOpts (Datatypes.S i) l')
      end in
  match n with
  | BlockStmtN b => applyBlock parent me b s
  | _ =>
    visit (mkCursor (Some (NodeA n)) me parent)
      (fun s =>
         match n with
         | IdentN _ | BasicLitN _ => Continue s
         | ImportSpec name path _ =>
             andThen (applyNil me 0 s) (fun s =>
             andThen (applyIdent me 1 name s) (fun s =>
             andThen (applyLeaf me 2 (BasicLitN path) s) (fun s =>
             applyNil me 3 s)))
         | GenDecl _ _ _ specs _ =>
             andThen (applyNil me 0 s) (applyList 1%nat specs)
         | FuncDecl recv name type body =>
             andThen (applyNil me 0 s) (fun s =>
             andThen (match recv with
                      | Some r => apply (Some me) (1%nat :: me) r s
                      | None => applyNil me 1 s
                      end) (fun s =>
             andThen (applyLeaf me 2 (IdentN name) s) (fun s =>
             andThen (apply (Some me) (3%nat :: me) type s) (fun s =>
             match body with
             | Some b => applyBlock (Some me) (4%nat :: me) b s
             | None => applyNil me 4 s
             end))))
         | BlockStmtN _ => Continue s
         | AssignStmt lhs _ _ rhs =>
             andThen (applyList 0%nat lhs s) (applyList (length lhs) rhs)
         | OtherStmt _ _ sub | OtherNode _ _ sub => applyOpts 0%nat sub s
         end) s
  end
with applyBlock (parent : option Path) (me : Path) (b : BlockStmt) (s : S) {struct b} : Walk S :=
  visit (mkCursor (Some (NodeA (BlockStmtN b))) me parent)
    (fun s =>
       match b with
       | Block _ stmts _ =>
           (fix applyList (i : nat) (l : list Node) (s : S) {struct l} : Walk S :=
              match l with
              | [] => Continue s
              | x :: l' => andThen (apply (Some me) (i :: me) x s) (applyList (Datatypes.S i) l')
              end) 0%nat stmts s
       end) s.

Definition applyDecls (me : Path) : nat → list Node → S → Walk S :=
  fix applyList (i : nat) (l : list Node) (s : S) {struct l} : Walk S :=
    match l with
    | [] => Continue s
    | x :: l' => andThen (apply (Some me) (i :: me) x s) (applyList (Datatypes.S i) l')
    end.

Definition applySub (me : Path) : nat → list (option Node) → S → Walk S :=
  fix applyOpts (i : nat) (l : list (option Node)) (s : S) {struct l} : Walk S :=
    match l with
    | [] => Continue s
    | None :: l' => andThen (applyNil me i s) (applyOpts (Datatypes.S i) l')
    | Some x :: l' => andThen (apply (Some me) (i :: me) x s) (applyOpts (Datatypes.S i) l')
    end.

Definition Apply (root : File) (s : S) : Walk S :=
  visit (mkCursor (Some (FileA root)) [] None)
    (fun s =>
       andThen (applyNil [] 0 s) (fun s =>
       andThen (applyLeaf [] 1 (IdentN (FileName root)) s) (fun s =>
       applyDecls [] 2 (Decls root) s))) s.
End Apply.

(** ** Fixer.findEnclosing *)

(** A pointer to a block: the block and its place in the tree. *)
Definition BlockRef := (Path * BlockStmt)%type.

Record Enclosing := mkEnclosing {
  stmt : option Node;
  block : option BlockRef;
  fnBody : option BlockRef
}.

Definition setStmt (e : Enclosing) (n : Node) : Enclosing :=
  mkEnclosing (Some n) (block e) (fnBody e).
Definition setBlock (e : Enclosing) (b : BlockRef) : Enclosing :=
  mkEnclosing (stmt e) (Some b) (fnBody e).
Definition setFnBody (e : Enclosing) (b : option BlockRef) : Enclosing :=
  mkEnclosing (stmt e) (block e) b.

(** [block == c.Parent()] and [block != fnBody]: pointer comparisons *)
Definition samePlace (b : option BlockRef) (p : option Path) : bool :=
  match b, p with
  | Some (q, _), Some p' => bool_decide (q = p')
  | _, _ => false
  end.

Definition sameBlock (a b : option BlockRef) : bool :=
  match a, b with
  | None, None => true
  | Some (p, _), Some (q, _) => bool_decide (p = q)
  | _, _ => false
  end.

(** [n.Body] of a function declaration at [me] *)
Definition bodyRef (me : Path) (body : option BlockStmt) : option BlockRef :=
  match body with
  | Some b => Some (4%nat :: me, b)
  | None => None
  end.

Definition findEnclosing_pre (pos : Pos) (c : Cursor) (e : Enclosing)
  : Result (bool * Enclosing) :=
  match cNode c with
  | None => Ok (false, e)
  | Some a =>
      if AnyPos a >? pos then Ok (false, e)
      else
        match a with
        | NodeA (BlockStmtN n) =>
            if (BlockEnd n >=? pos) || negb (IsValid (Rbrace n))
            then Ok (true, setBlock e (cPath c, n))
            else Ok (true, e)
        | NodeA (FuncDecl _ _ _ body as n) =>
            if NodeEnd n >=? pos
            then Ok (true, setFnBody e (bodyRef (cPath c) body))
            else
              match body with
              | None => Fault
              | Some b =>
                  if negb (IsValid (Rbrace b))
                  then Ok (true, setFnBody e (bodyRef (cPath c) body))
                  else Ok (true, e)
              end
        | NodeA (AssignStmt _ _ _ _ as n) | NodeA (OtherStmt _ _ _ as n) =>
            if samePlace (block e) (cParent c)
            then Ok (true, setStmt e n)
            else Ok (true, e)
        | _ => Ok (true, e)
        end
  end.

Definition findEnclosing_post (c : Cursor) (e : Enclosing)
  : Result (bool * Enclosing) :=
  Ok (match block e, cNode c with
      | Some (p, _), Some _ => negb (bool_decide (p = cPath c))
      | _, _ => true
      end, e).

Definition findEnclosing (file : File) (pos : Pos) : Result Enclosing :=
  match Apply (findEnclosing_pre pos) findEnclosing_post file
              (mkEnclosing None None None) with
  | Continue e | Aborted e => Ok e
  | Panicked => Fault
  end.

(** ** Fixer.findRangeToFix *)

(** The closure of the forward scan: a byte of ["}fvct/"] is a hit when the
    byte before it was a line break. *)
Definition scanBoundary (r : byte) (wasNewline : bool) : bool * bool :=
  if ContainsRune (bytes "}fvct/") r then (wasNewline, wasNewline)
  else (false, Byte.eqb r nl || Byte.eqb r cr).

(** The closure of the backward scan: a closing brace is a hit when the byte
    visited before it, the one that follows it in the text, was a line
    break. *)
Definition scanCloseBrace (r : byte) (wasNewline : bool) : bool * bool :=
  if Byte.eqb r rbrace then (wasNewline, wasNewline)
  else (false, Byte.eqb r nl || Byte.eqb r cr).

(** the loop over [fnBody.List] *)
Fixpoint lastStmtBefore (l : list Node) (pos : Pos) (statement : Node) : Node :=
  match l with
  | [] => statement
  | s :: l' =>
      if NodePos s <? pos then lastStmtBefore l' pos s else statement
  end.

Definition findRangeToFix (file : File) (content : list byte) (offset : Z)
  : Result (Z * Z * list byte) :=
  let pos := FileStart file + offset in
  e ← findEnclosing file pos;
  let offsetOf (t : Pos) : Z := t - FileStart file in
  let validBlock :=
    match block e with
    | Some (_, b) => if IsValid (Rbrace b) then Some b else None
    | None => None
    end in
  match validBlock with
  | Some b =>
      match stmt e with
      | Some statement => Ok (offsetOf (NodePos statement), offsetOf (BlockEnd b) - 1, [])
      | None => Fault
      end
  | None =>
      match fnBody e, stmt e with
      | None, _ | _, None => Ok (0, 0, [])
      | Some (fp, fb), Some statement =>
          let statement :=
            if negb (sameBlock (block e) (fnBody e))
            then lastStmtBefore (List fb) pos statement
            else statement in
          let start := offsetOf (NodePos statement) in
          tail ← sliceFrom content start;
          let end_ := IndexFunc scanBoundary tail false in
          hit ← (if end_ >? -1
                 then b ← index tail end_; Ok (Byte.eqb b rbrace)
                 else Ok false);
          if hit : bool then Ok (start, start + end_, [])
          else
            let end_ := if end_ =? -1 then len tail - 1 else end_ in
            scanned ← sliceTo tail end_;
            let closeBrace := LastIndexFunc scanCloseBrace scanned false in
            if closeBrace >? -1 then Ok (start, start + closeBrace, [])
            else Ok (start, start + end_, [rbrace])
      end
  end.

(** ** The toolchain

    What the fixer and the runner call outside this repository: [fmt],
    go/parser, the file system, [packages.Load] (its driver and the type
    checker) and the [go build] subprocess. *)

(** The first error of a [scanner.ErrorList]: [e.Pos.Offset] and [e.Msg]. *)
Record ScanError := mkScanError { errOffset : Z; errMsg : string }.

(** The [error] returned by [parser.ParseFile]: nil, a [scanner.ErrorList],
    or an error of another type. *)
Inductive ParseErr :=
| NoErr
| ErrorList (errs : list ScanError)
| OtherErr.

(** A [types.Error] with its position resolved by the file set:
    [PositionFor(e.Pos, false)] gives [teFilename] and [teOffset],
    [PositionFor(e.Pos, true)], which follows line directives, gives
    [teAdjFilename], [teLine] and [teColumn]. *)
Record TypeError := mkTypeError {
  tePos : Pos;
  teMsg : string;
  teFilename : string;
  teOffset : Z;
  teAdjFilename : string;
  teLine : Z;
  teColumn : Z
}.

Record LoadedPackage := mkPackage {
  TypeErrors : list TypeError;
  Syntax : list File
}.

Inductive error :=
| LoadFailed
| ReadFailed (filename : string)
| ToolFailed
| NotSupported (mode : string).

(** One [go build] (or [go test -c]) run of [getBrokenPackages]: the
    temporary files could not be set up, the build succeeded, or it failed
    with the given combined output. *)
Inductive BuildResult :=
| BuildSetupFailed
| BuildOk
| BuildFailed (out : list byte).

Class Toolchain := {
  (** [fmt.Sprintf("%#v", msg)]: the message as a quoted Go string *)
  Quote : string → string;
  (** [parser.ParseFile(fset, filename, content, 0)]: the tree is never nil *)
  ParseFile : string → list byte → File * ParseErr;
  (** [os.ReadFile]; [None] is an error *)
  ReadFile : string → option (list byte);
  (** [go env GOCACHE] *)
  goCache : string;
  (** the driver of [packages.Load]: for a mode, patterns and an overlay,
      the source files of each matched package; [None] when it fails *)
  goList : string → list string → gmap string (list byte) → option (list (list string));
  (** the type checker: the type errors of a package from its trees *)
  typeCheck : list File → list TypeError;
  (** the n-th build of a run, for a mode, build arguments and the overlay
      passed with [-overlay], if any *)
  goBuild : nat → string → list string → option (gmap string (list byte)) → BuildResult
}.

(** ** The Fixer *)

(** Calls recorded for the statements that count them; [trace] is not a
    field of the Go struct. *)
Inductive Event :=
| EvParse (filename : string) (content : list byte)
| EvLoad (pkgNames : list string)
| EvFixTypeError (e : TypeError).

Record Fixer := mkFixer {
  mode : string;
  verbose : bool;
  Fixed : gmap string (list byte);
  trace : list Event
}.

Definition setFixed (f : Fixer) (m : gmap string (list byte)) : Fixer :=
  mkFixer (mode f) (verbose f) m (trace f).

Definition record (f : Fixer) (ev : Event) : Fixer :=
  mkFixer (mode f) (verbose f) (Fixed f) (trace f ++ [ev]).

Definition isNewline (b : byte) : bool := Byte.eqb b nl || Byte.eqb b cr.

Fixpoint newLinesInRange (s : list byte) : list byte :=
  match s with
  | [] => []
  | b :: s' => if isNewline b then b :: newLinesInRange s' else newLinesInRange s'
  end.

(** [f.Fixed[filename] = bytes.Join(content, nil)] *)
Definition update (f : Fixer) (filename : string) (content : list (list byte))
  : bool * Fixer :=
  (true, setFixed f (<[filename := concat content]> (Fixed f))).

(** [slices.IndexFunc] *)
Fixpoint slicesIndexFuncFrom {A : Type} (i : Z) (l : list A) (p : A → bool) : Z :=
  match l with
  | [] => -1
  | x :: l' => if p x then i else slicesIndexFuncFrom (i + 1) l' p
  end.

Definition slicesIndexFunc {A : Type} (l : list A) (p : A → bool) : Z :=
  slicesIndexFuncFrom 0 l p.

(** [l[i]] for an index that [slicesIndexFunc] returned *)
Definition at_ {A : Type} (l : list A) (i : Z) : Result A :=
  if i <? 0 then Fault
  else match l !! Z.to_nat i with Some x => Ok x | None => Fault end.

Definition covers (pos : Pos) (d : Node) : bool :=
  (NodePos d <=? pos) && (NodeEnd d >=? pos).

Definition fixUnusedImport (f : Fixer) (file : File) (filename : string)
  (content : list byte) (offset : Z) : Result (bool * Fixer) :=
  let pos := FileStart file + offset in
  let declIdx := slicesIndexFunc (Decls file) (covers pos) in
  if declIdx =? -1 then Ok (false, f)
  else
    decl ← at_ (Decls file) declIdx;
    match decl with
    | GenDecl _ tok _ specs _ =>
        if negb (Token_eqb tok IMPORT) then Ok (false, f)
        else
          let specIdx := slicesIndexFunc specs (covers pos) in
          if specIdx =? -1 then Ok (false, f)
          else
            spec ← at_ specs specIdx;
            match spec with
            | ImportSpec name path _ =>
                let '(insertPos, delLen) :=
                  match name with
                  | Some n => (IdentPos n - FileStart file, (IdentEnd n - IdentPos n) + 1)
                  | None => (BasicLitPos path - FileStart file, 0)
                  end in
                before ← sliceTo content insertPos;
                after ← sliceFrom content (insertPos + delLen);
                Ok (update f filename [before; bytes "_ "; after])
            | _ => Ok (false, f)
            end
    | _ => Ok (false, f)
    end.

(** The closure of [fixUnusedVar]; there is no [post]. *)
Definition noPost {S : Type} (c : Cursor) (s : S) : Result (bool * S) :=
  Ok (true, s).

Definition covering (pos : Pos) (c : Cursor) : option AnyNode :=
  match cNode c with
  | Some a => if (AnyPos a <=? pos) && (AnyEnd a >=? pos) then Some a else None
  | None => None
  end.

Definition isNone {A : Type} (o : option A) : bool :=
  match o with None => true | Some _ => false end.

Definition fixUnusedVar_pre (pos : Pos) (c : Cursor) (ident : option Ident)
  : Result (bool * option Ident) :=
  let ident :=
    match covering pos c with
    | Some (NodeA (IdentN n)) => Some n
    | _ => ident
    end in
  Ok (isNone ident, ident).

Definition walked {S : Type} (w : Walk S) : Result S :=
  match w with
  | Continue s | Aborted s => Ok s
  | Panicked => Fault
  end.

Definition fixUnusedVar (f : Fixer) (file : File) (filename : string)
  (content : list byte) (offset : Z) : Result (bool * Fixer) :=
  let pos := FileStart file + offset in
  ident ← walked (Apply (fixUnusedVar_pre pos) noPost file None);
  match ident with
  | None => Ok (false, f)
  | Some ident =>
      let insertPos := IdentPos ident - FileStart file in
      before ← sliceTo content insertPos;
      after ← sliceFrom content (insertPos + (IdentEnd ident - IdentPos ident));
      Ok (update f filename [before; bytes "_"; after])
  end.

(** The closure of [fixUselessAssignment] keeps [assign.Tok] and
    [assign.TokPos] of the statement found. *)
Definition fixUselessAssignment_pre (pos : Pos) (c : Cursor) (assign : option (Token * Pos))
  : Result (bool * option (Token * Pos)) :=
  let assign :=
    match covering pos c with
    | Some (NodeA (AssignStmt _ tokPos tok _)) => Some (tok, tokPos)
    | _ => assign
    end in
  Ok (isNone assign, assign).

Definition fixUselessAssignment (f : Fixer) (file : File) (filename : string)
  (content : list byte) (offset : Z) : Result (bool * Fixer) :=
  let pos := FileStart file + offset in
  assign ← walked (Apply (fixUselessAssignment_pre pos) noPost file None);
  match assign with
  | None => Ok (false, f)
  | Some (tok, tokPos) =>
      if negb (Token_eqb tok DEFINE) then Ok (false, f)
      else
        let tokOff := tokPos - FileStart file in
        before ← sliceTo content tokOff;
        after ← sliceFrom content (tokOff + 1);
        Ok (update f filename [before; after])
  end.

(** [file] is a pointer and may be nil; every path reads [file.FileStart]
    before anything else. *)
Definition deref {A : Type} (p : option A) : Result A :=
  match p with Some a => Ok a | None => Fault end.

Definition panicCall `{Toolchain} (msg : string) : list byte :=
  bytes ("panic(" +:+ Quote msg +:+ ")").

Definition fixError `{Toolchain} (f : Fixer) (file : option File) (filename : string)
  (content : list byte) (offset : Z) (msg : string) : Result (bool * Fixer) :=
  if Contains msg "imported and not used" then
    file ← deref file; fixUnusedImport f file filename content offset
  else if Contains msg "declared and not used" then
    file ← deref file; fixUnusedVar f file filename content offset
  else if Contains msg "no new variables on left side of :=" then
    file ← deref file; fixUselessAssignment f file filename content offset
  else
    file ← deref file;
    '(start, end_, tail) ← findRangeToFix file content offset;
    if start =? end_ then Ok (false, f)
    else if (start >? offset) || (end_ <? offset) then Ok (false, f)
    else
      removedBefore ← slice content start offset;
      removedAfter ← slice content offset end_;
      let newlinesBefore := newLinesInRange removedBefore in
      let newlinesAfter := newLinesInRange removedAfter in
      let newCode := newlinesBefore ++ panicCall msg ++ newlinesAfter in
      kept ← slice content 0 start;
      rest ← sliceFrom content end_;
      Ok (update f filename [kept; newCode; tail; rest]).

Section Fixer.
Context `{Toolchain}.

(** ** Fixer.parseFile

    The Go loop has no bound of its own; [fuel] bounds the recursion of
    the model and [None] means that it ran out. *)
Fixpoint parseFile_loop (fuel : nat) (i : Z) (f : Fixer) (filename : string)
  (content : list byte) : option (Result (File * ParseErr * Fixer)) :=
  match fuel with
  | O => None
  | Datatypes.S fuel =>
      let i := i + 1 in
      let f := record f (EvParse filename content) in
      let '(file, err) := ParseFile filename content in
      match err with
      | NoErr => Some (Ok (file, NoErr, f))
      | OtherErr => Some (Ok (file, err, f))
      | ErrorList errs =>
          if i >=? 10 then Some (Ok (file, err, f))
          else
            match errs with
            | [] => Some (Ok (file, err, f))
            | e :: _ =>
                match fixError f (Some file) filename content (errOffset e) (errMsg e) with
                | Fault => Some Fault
                | Ok (false, f) => Some (Ok (file, err, f))
                | Ok (true, f) =>
                    parseFile_loop fuel i f filename (default [] (Fixed f !! filename))
                end
            end
      end
  end.

(** Ten rounds are enough ([parseFile_loop_fuel]). *)
Definition parseFile (f : Fixer) (filename : string) (content : list byte)
  : Result (File * ParseErr * Fixer) :=
  match parseFile_loop 10 0 f filename content with
  | Some r => r
  | None => Fault
  end.

Definition readFile (f : Fixer) (filename : string) : option (list byte) :=
  match Fixed f !! filename with
  | Some ret => Some ret
  | None => ReadFile filename
  end.

(** ** packages.Load

    [Load] asks the driver for the packages and their files, reads every
    file through the overlay, which is the map [f.Fixed] itself, parses it
    with the [ParseFile] hook of the configuration, [f.parseFile], and type
    checks each package.  A file that cannot be read has no tree.  The
    files are parsed one after the other. *)
Fixpoint parseFiles (f : Fixer) (files : list string) : Result (list File * Fixer) :=
  match files with
  | [] => Ok ([], f)
  | filename :: files =>
      match readFile f filename with
      | None => parseFiles f files
      | Some src =>
          '(file, _, f) ← parseFile f filename src;
          '(syntax, f) ← parseFiles f files;
          Ok (file :: syntax, f)
      end
  end.

Fixpoint loadPackages (f : Fixer) (pkgs : list (list string))
  : Result (list LoadedPackage * Fixer) :=
  match pkgs with
  | [] => Ok ([], f)
  | files :: pkgs =>
      '(syntax, f) ← parseFiles f files;
      '(loaded, f) ← loadPackages f pkgs;
      Ok (mkPackage (typeCheck syntax) syntax :: loaded, f)
  end.

Definition Load (f : Fixer) (pkgNames : list string)
  : Result (option (list LoadedPackage) * Fixer) :=
  match goList (mode f) pkgNames (Fixed f) with
  | None => Ok (None, f)
  | Some pkgs =>
      '(loaded, f) ← loadPackages f pkgs;
      Ok (Some loaded, f)
  end.

(** ** Fixer.fixPkg *)

(** the file of [pkg.Syntax] that spans the error, the last one if several do *)
Fixpoint fileOf (syntax : list File) (pos : Pos) (file : option File) : option File :=
  match syntax with
  | [] => file
  | ast :: syntax =>
      fileOf syntax pos
        (if (Package ast <=? pos) && (FileEnd ast >=? pos) then Some ast else file)
  end.

(** the offset of a line and column, counted in the content read *)
Fixpoint offsetOfLineColumn (content : list byte) (i lno cno line column offset : Z) : Z :=
  match content with
  | [] => offset
  | b :: content =>
      if Byte.eqb b nl then offsetOfLineColumn content (i + 1) (lno + 1) cno line column offset
      else if lno =? line then
        if cno + 1 =? column then i
        else offsetOfLineColumn content (i + 1) lno (cno + 1) line column offset
      else offsetOfLineColumn content (i + 1) lno cno line column offset
  end.

Definition fixPkg (f : Fixer) (pkg : LoadedPackage) : Result (bool * option error * Fixer) :=
  match TypeErrors pkg with
  | [] => Ok (false, None, f)
  | e :: _ =>
      let offset := teOffset e in
      let file := fileOf (Syntax pkg) (tePos e) None in
      if HasPrefix (teFilename e) goCache then
        let filename := teAdjFilename e in
        match readFile f filename with
        | None => Ok (false, Some (ReadFailed filename), f)
        | Some content =>
            let offset := offsetOfLineColumn content 0 1 0 (teLine e) (teColumn e) offset in
            let '(file, err) := ParseFile filename content in
            match err with
            | NoErr =>
                '(fixed, f) ← fixError (record f (EvFixTypeError e)) (Some file)
                                filename content offset (teMsg e);
                Ok (fixed, None, f)
            | _ => Ok (false, None, f)
            end
        end
      else
        let filename := teFilename e in
        match readFile f filename with
        | None => Ok (false, Some (ReadFailed filename), f)
        | Some content =>
            '(fixed, f) ← fixError (record f (EvFixTypeError e)) file
                            filename content offset (teMsg e);
            Ok (fixed, None, f)
        end
  end.

(** ** Fixer.Fix *)

(** the loop over the loaded packages *)
Fixpoint fixPkgs (f : Fixer) (pkgs : list LoadedPackage) (fixed : bool)
  : Result (bool * option error * Fixer) :=
  match pkgs with
  | [] => Ok (fixed, None, f)
  | pkg :: pkgs =>
      '(fx, err, f) ← fixPkg f pkg;
      match err with
      | Some _ => Ok (fixed, err, f)
      | None => fixPkgs f pkgs (if fx : bool then true else fixed)
      end
  end.

(** [for i := 0; i < 10; i++]; [None] when the fuel of the model runs out *)
Fixpoint Fix_loop (fuel : nat) (i : Z) (f : Fixer) (pkgNames : list string)
  : option (Result (option error * Fixer)) :=
  if i <? 10 then
    match fuel with
    | O => None
    | Datatypes.S fuel =>
        match Load (record f (EvLoad pkgNames)) pkgNames with
        | Fault => Some Fault
        | Ok (None, f) => Some (Ok (Some LoadFailed, f))
        | Ok (Some pkgs, f) =>
            match fixPkgs f pkgs false with
            | Fault => Some Fault
            | Ok (_, Some err, f) => Some (Ok (Some err, f))
            | Ok (false, None, f) => Some (Ok (None, f))
            | Ok (true, None, f) => Fix_loop fuel (i + 1) f pkgNames
            end
        end
    end
  else Some (Ok (None, f)).

(** Ten rounds are enough ([Fix_loop_fuel]). *)
Definition Fix (f : Fixer) (pkgNames : list string) : Result (option error * Fixer) :=
  match Fix_loop 10 0 f pkgNames with
  | Some r => r
  | None => Fault
  end.
End Fixer.

(** ** The Runner *)

(** [overlays] holds what the temporary files named by the overlay
    descriptor contain, [overlayFile] is the empty string until the
    descriptor exists, and [builds] counts the builds run so far (it is not
    a field of the Go struct). *)
Record Runner := mkRunner {
  rmode : string;
  rverbose : bool;
  buildArgs : list string;
  runArgs : list string;
  built : bool;
  fixed : gmap string (list byte);
  overlays : gmap string (list byte);
  overlayFile : string;
  builds : nat
}.

Definition setBuilt (r : Runner) (b : bool) : Runner :=
  mkRunner (rmode r) (rverbose r) (buildArgs r) (runArgs r) b (fixed r)
           (overlays r) (overlayFile r) (builds r).

Definition setRunnerFixed (r : Runner) (m : gmap string (list byte)) : Runner :=
  mkRunner (rmode r) (rverbose r) (buildArgs r) (runArgs r) (built r) m
           (overlays r) (overlayFile r) (builds r).

Fixpoint HasSuffix (s suffix : string) : bool :=
  String.eqb s suffix ||
  match s with
  | EmptyString => false
  | String _ t => HasSuffix t suffix
  end.

(** the leading arguments that end in [.go] *)
Fixpoint goFiles (args : list string) : list string * list string :=
  match args with
  | [] => ([], [])
  | a :: rest =>
      if HasSuffix a ".go"
      then let '(b, r) := goFiles rest in (a :: b, r)
      else ([], args)
  end.

Definition New (mode : string) (verbose : bool) (args : list string) : Result Runner :=
  let r := mkRunner mode verbose args [] false ∅ ∅ EmptyString 0 in
  if String.eqb mode "run" then
    match args with
    | [] => Fault
    | a :: rest =>
        let '(b, rn) := if HasSuffix a ".go" then goFiles args else ([a], rest) in
        Ok (mkRunner mode verbose b rn false ∅ ∅ EmptyString 0)
    end
  else Ok r.

(** [rePackage]: a line [# name], or [# name [variant]]; the name has no
    white space, and the variant no line feed, which [.] does not match. *)
Definition isSpace (b : byte) : bool :=
  ContainsRune ["009"; "010"; "012"; "013"; " "]%byte b.

Fixpoint nonSpaces (s : list byte) : list byte * list byte :=
  match s with
  | [] => ([], [])
  | b :: s' =>
      if isSpace b then ([], s)
      else let '(name, rest) := nonSpaces s' in (b :: name, rest)
  end.

Definition rePackage (line : list byte) : option string :=
  match line with
  | "#"%byte :: " "%byte :: s =>
      let '(name, rest) := nonSpaces s in
      match rest with
      | [] => Some (String.string_of_list_byte name)
      | " "%byte :: "["%byte :: more =>
          match last more with
          | Some "]"%byte =>
              if forallb (fun b => negb (Byte.eqb b nl)) more
              then Some (String.string_of_list_byte name)
              else None
          | _ => None
          end
      | _ => None
      end
  | _ => None
  end.

(** [bytes.Split(out, "\n")] *)
Fixpoint splitLines (out : list byte) (line : list byte) : list (list byte) :=
  match out with
  | [] => [line]
  | b :: out' =>
      if Byte.eqb b nl then line :: splitLines out' []
      else splitLines out' (line ++ [b])
  end.

Definition brokenPackages (out : list byte) : list string :=
  omap rePackage (splitLines out []).

Definition overlayName : string := "golo-overlay.json".

(** A temporary file is written when its source file enters the overlay
    and is not written again. *)
Definition updateOverlays (r : Runner) : Runner :=
  mkRunner (rmode r) (rverbose r) (buildArgs r) (runArgs r) (built r) (fixed r)
           (overlays r ∪ fixed r) overlayName (builds r).

Section Runner.
Context `{Toolchain}.

Definition getBrokenPackages (r : Runner) : list string * option error * Runner :=
  let r := if bool_decide (fixed r = ∅) then r else updateOverlays r in
  let overlay := if bool_decide (fixed r = ∅) then None else Some (overlays r) in
  let result := goBuild (builds r) (rmode r) (buildArgs r) overlay in
  let r := mkRunner (rmode r) (rverbose r) (buildArgs r) (runArgs r) (built r)
                    (fixed r) (overlays r) (overlayFile r) (Datatypes.S (builds r)) in
  match result with
  | BuildSetupFailed => ([], Some ToolFailed, r)
  | BuildOk => ([], None, setBuilt r true)
  | BuildFailed out => (brokenPackages out, None, r)
  end.

(** The loop over [toFix]: [None] when a package was already marked,
    otherwise the marks and the last index of the ad-hoc package. *)
Fixpoint markPackages (toFix : list string) (i : Z) (attempted : gset string) (clidx : Z)
  : option (gset string * Z) :=
  match toFix with
  | [] => Some (attempted, clidx)
  | pkg :: toFix =>
      if bool_decide (pkg ∈ attempted) then None
      else markPackages toFix (i + 1) ({[pkg]} ∪ attempted)
             (if String.eqb pkg "command-line-arguments" then i else clidx)
  end.

(** [fixer.Fix] on the map shared with the runner *)
Definition runFix (r : Runner) (fixer : Fixer) (pkgNames : list string)
  : Result (option error * Runner * Fixer) :=
  '(err, fixer) ← Fix (setFixed fixer (fixed r)) pkgNames;
  Ok (err, setRunnerFixed r (Fixed fixer), fixer).

(** One round of the loop of [Prepare]: it returns, or goes round again
    with the packages just marked. *)
Inductive Round :=
| Return (res : Result (option error * Runner))
| Again (r : Runner) (fixer : Fixer) (attempted : gset string).

Definition Prepare_round (r : Runner) (fixer : Fixer) (attempted : gset string) : Round :=
  let '(toFix, err, r) := getBrokenPackages r in
  match err with
  | Some _ => Return (Ok (err, r))
  | None =>
      match toFix with
      | [] => Return (Ok (None, setBuilt r true))
      | _ =>
          match markPackages toFix 0 attempted (-1) with
          | None => Return (Ok (None, r))
          | Some (attempted, clidx) =>
              let first :=
                if clidx >? -1
                then
                  '(err, r, fixer) ← runFix r fixer (buildArgs r);
                  Ok (err, take (Z.to_nat clidx) toFix ++ drop (Z.to_nat (clidx + 1)) toFix,
                      r, fixer)
                else Ok (None, toFix, r, fixer) in
              match first with
              | Fault => Return Fault
              | Ok (Some err, _, r, _) => Return (Ok (Some err, r))
              | Ok (None, toFix, r, fixer) =>
                  match runFix r fixer toFix with
                  | Fault => Return Fault
                  | Ok (Some err, r, _) => Return (Ok (Some err, r))
                  | Ok (None, r, fixer) => Again r fixer attempted
                  end
              end
          end
      end
  end.

(** [Prepare]: the Go loop has no bound; [None] means that the fuel of the
    model ran out. *)
Fixpoint Prepare_loop (fuel : nat) (r : Runner) (fixer : Fixer) (attempted : gset string)
  : option (Result (option error * Runner)) :=
  match fuel with
  | O => None
  | Datatypes.S fuel =>
      match Prepare_round r fixer attempted with
      | Return res => Some res
      | Again r fixer attempted => Prepare_loop fuel r fixer attempted
      end
  end.

Definition Prepare (fuel : nat) (r : Runner) : option (Result (option error * Runner)) :=
  Prepare_loop fuel r (mkFixer (rmode r) (rverbose r) (fixed r) []) ∅.
End Runner.

(** [Run]: the command that is executed, or the error returned. *)
Definition exeName : string := "golo-exe".

Definition Run (r : Runner) : list string + error :=
  if negb (built r) then inl ("go" :: rmode r :: buildArgs r ++ runArgs r)
  else if String.eqb (rmode r) "run" then inl (exeName :: runArgs r)
  else if String.eqb (rmode r) "test" then
    inl ("go" :: "test" ::
         (if String.eqb (overlayFile r) EmptyString then buildArgs r
          else "-vet=off" :: ("-overlay=" +:+ overlayFile r) :: buildArgs r))
  else if String.eqb (rmode r) "build" then
    inl ("go" :: "build" ::
         (if String.eqb (overlayFile r) EmptyString then buildArgs r
          else ("-overlay=" +:+ overlayFile r) :: buildArgs r))
  else inr (NotSupported (rmode r)).

(** ** Subtrees that the locator passes by *)

Definition isStmt (n : Node) : bool :=
  match n with
  | AssignStmt _ _ _ _ | OtherStmt _ _ _ => true
  | _ => false
  end.

(** A subtree is quiet for [pos] when it holds no function declaration and
    every block in it is closed before [pos]. *)
Fixpoint quiet (pos : Pos) (n : Node) : bool :=
  match n with
  | IdentN _ | BasicLitN _ | ImportSpec _ _ _ => true
  | GenDecl _ _ _ specs _ => forallb (quiet pos) specs
  | FuncDecl _ _ _ _ => false
  | BlockStmtN b => quietBlock pos b
  | AssignStmt lhs _ _ rhs => forallb (quiet pos) lhs && forallb (quiet pos) rhs
  | OtherStmt _ _ sub | OtherNode _ _ sub =>
      forallb (fun o => match o with Some x => quiet pos x | None => true end) sub
  end
with quietBlock (pos : Pos) (b : BlockStmt) : bool :=
  match b with
  | Block _ stmts rb => IsValid rb && (rb + 1 <? pos) && forallb (quiet pos) stmts
  end.

(** Induction over a tree and the trees below it. *)
Section NodeInduction.
Variable P : Node → Prop.
Variable Q : BlockStmt → Prop.
Hypothesis HIdent : ∀ i, P (IdentN i).
Hypothesis HLit : ∀ l, P (BasicLitN l).
Hypothesis HImport : ∀ n p e, P (ImportSpec n p e).
Hypothesis HGen : ∀ tp t lp specs rp, Forall P specs → P (GenDecl tp t lp specs rp).
Hypothesis HFunc : ∀ recv name type body, P (FuncDecl recv name type body).
Hypothesis HBlockN : ∀ b, Q b → P (BlockStmtN b).
Hypothesis HAssign : ∀ lhs tp t rhs, Forall P lhs → Forall P rhs → P (AssignStmt lhs tp t rhs).
Hypothesis HOtherStmt : ∀ p e sub,
  Forall (fun o => match o with Some x => P x | None => True end) sub →
  P (OtherStmt p e sub).
Hypothesis HOtherNode : ∀ p e sub,
  Forall (fun o => match o with Some x => P x | None => True end) sub →
  P (OtherNode p e sub).
Hypothesis HBlock : ∀ lb stmts rb, Forall P stmts → Q (Block lb stmts rb).

Fixpoint Node_induction (n : Node) : P n :=
  let all :=
    fix all (l : list Node) : Forall P l :=
      match l with
      | [] => List.Forall_nil P
      | x :: l' => List.Forall_cons P x l' (Node_induction x) (all l')
      end in
  let allSub :=
    fix allSub (l : list (option Node))
      : Forall (fun o => match o with Some x => P x | None => True end) l :=
      match l with
      | [] => List.Forall_nil _
      | o :: l' =>
          List.Forall_cons _ o l'
            (match o return match o with Some x => P x | None => True end with
             | Some y => Node_induction y
             | None => I
             end)
            (allSub l')
      end in
  match n with
  | IdentN i => HIdent i
  | BasicLitN l => HLit l
  | ImportSpec n p e => HImport n p e
  | GenDecl tp t lp specs rp => HGen tp t lp specs rp (all specs)
  | FuncDecl recv name type body => HFunc recv name type body
  | BlockStmtN b => HBlockN b (Block_induction b)
  | AssignStmt lhs tp t rhs => HAssign lhs tp t rhs (all lhs) (all rhs)
  | OtherStmt p e sub => HOtherStmt p e sub (allSub sub)
  | OtherNode p e sub => HOtherNode p e sub (allSub sub)
  end
with Block_induction (b : BlockStmt) : Q b :=
  match b with
  | Block lb stmts rb =>
      HBlock lb stmts rb
        ((fix all (l : list Node) : Forall P l :=
            match l with
            | [] => List.Forall_nil P
            | x :: l' => List.Forall_cons P x l' (Node_induction x) (all l')
            end) stmts)
  end.
End NodeInduction.

(** [me] is deeper in the tree than the block found so far *)
Definition far (e : Enclosing) (me : Path) : Prop :=
  match block e with
  | Some (bp, _) => (length bp < length me)%nat
  | None => True
  end.

(** a node that is neither a block nor a function declaration *)
Definition plain (n : Node) : bool :=
  match n with
  | BlockStmtN _ | FuncDecl _ _ _ _ => false
  | _ => true
  end.


Definition QuietWalk (pos : Pos) (n : Node) : Prop :=
  quiet pos n = true → ∀ parent me e, far e me →
  apply (findEnclosing_pre pos) findEnclosing_post parent me n e =
    Continue (if (NodePos n <=? pos) && isStmt n && samePlace (block e) parent
              then setStmt e n else e).

Definition QuietBlockWalk (pos : Pos) (b : BlockStmt) : Prop :=
  quietBlock pos b = true → ∀ parent me e, far e me →
  applyBlock (findEnclosing_pre pos) findEnclosing_post parent me b e = Continue e.

(** ** Counting

    Line breaks of a text, and the calls recorded in a trace. *)

Definition lineBreaks (s : list byte) : nat := length (List.filter isNewline s).

Definition isParse (ev : Event) : bool :=
  match ev with EvParse _ _ => true | _ => false end.
Definition isFixTypeError (ev : Event) : bool :=
  match ev with EvFixTypeError _ => true | _ => false end.

Definition countFixes (evs : list Event) : nat := length (List.filter isFixTypeError evs).

(** the trees [packages.Load] gets for the files of a package when every
    file parses at once *)
Definition trees `{Toolchain} (overlay : gmap string (list byte)) (files : list string)
  : list File :=
  omap (fun filename =>
          match overlay !! filename with
          | Some src => Some (ParseFile filename src).1
          | None =>
              match ReadFile filename with
              | Some src => Some (ParseFile filename src).1
              | None => None
              end
          end) files.

(** ** Concrete sources

    Source files with the trees go/parser builds for them (positions are
    offsets plus one, the base of a fresh file set), and a small toolchain
    over them. *)

Definition dq : string := String (Ascii.ascii_of_nat 34) EmptyString.

(** [fun() ...] written at position [p]: the type of a function without
    parameters and results, its name being one letter *)
Definition funcType (p : Pos) : Node :=
  OtherNode p (p + 8) [None; Some (OtherNode (p + 6) (p + 8) []); None].

(** the statement [name(args)] *)
Definition callStmt (name : string) (p e : Pos) (args : list Node) : Node :=
  OtherStmt p e
    [Some (OtherNode p e (Some (IdentN (mkIdent p name)) :: map Some args))].

(** the statement [fmt.Println(lit)] *)
Definition printlnStmt (p e : Pos) (lit : BasicLit) : Node :=
  OtherStmt p e
    [Some (OtherNode p e
       [Some (OtherNode p (p + 11)
          [Some (IdentN (mkIdent p "fmt")); Some (IdentN (mkIdent (p + 4) "Println"))]);
        Some (BasicLitN lit)])].

Definition mainType (p : Pos) : Node :=
  OtherNode p (p + 11) [None; Some (OtherNode (p + 9) (p + 11) []); None].

(** *** invalid_hex.go of the test suite *)
Definition hex_src : list byte := bytes ("package main

import " +:+ dq +:+ "fmt" +:+ dq +:+ "

func main() {
	fmt.Println(0xg)
}
").

Definition hex_file : File :=
  mkFile 1 1 (mkIdent 9 "main")
    [GenDecl 15 IMPORT 0 [ImportSpec None (mkBasicLit 22 (dq +:+ "fmt" +:+ dq)) 0] 0;
     FuncDecl None (mkIdent 34 "main") (mainType 29)
       (Some (Block 41 [printlnStmt 44 60 (mkBasicLit 56 "0x")] 61))].

Definition hex_msg : string := "hexadecimal literal has no digits".

(** the file once the statement is deferred *)
Definition hex_fixed_src : list byte := bytes ("package main

import " +:+ dq +:+ "fmt" +:+ dq +:+ "

func main() {
	panic(" +:+ dq +:+ hex_msg +:+ dq +:+ ")
}
").

Definition hex_fixed_file : File :=
  mkFile 1 1 (mkIdent 9 "main")
    [GenDecl 15 IMPORT 0 [ImportSpec None (mkBasicLit 22 (dq +:+ "fmt" +:+ dq)) 0] 0;
     FuncDecl None (mkIdent 34 "main") (mainType 29)
       (Some (Block 41
          [callStmt "panic" 44 86 [BasicLitN (mkBasicLit 50 (dq +:+ hex_msg +:+ dq))]] 87))].

(** *** noclosebrace.go of the test suite *)
Definition open_src : list byte := bytes ("package main
func main() { fmt.Println(" +:+ dq +:+ "oops

").

Definition open_file : File :=
  mkFile 1 1 (mkIdent 9 "main")
    [FuncDecl None (mkIdent 19 "main") (mainType 14)
       (Some (Block 26 [printlnStmt 28 48 (mkBasicLit 40 (dq +:+ "oops"))] 0))].

(** *** a function with an empty body that lacks a return *)
Definition noreturn_src : list byte := bytes "package p
func f() int {
}
".

Definition noreturn_file : File :=
  mkFile 1 1 (mkIdent 9 "p")
    [FuncDecl None (mkIdent 16 "f")
       (OtherNode 11 23 [None; Some (OtherNode 17 19 []);
                         Some (OtherNode 20 23 [Some (OtherNode 20 23
                            [Some (IdentN (mkIdent 20 "int"))])])])
       (Some (Block 24 [] 26))].

(** *** an unused import with a local name *)
Definition import_src : list byte := bytes ("package p
import fmt " +:+ dq +:+ "fmt" +:+ dq +:+ "
").

Definition import_file : File :=
  mkFile 1 1 (mkIdent 9 "p")
    [GenDecl 11 IMPORT 0
       [ImportSpec (Some (mkIdent 18 "fmt")) (mkBasicLit 22 (dq +:+ "fmt" +:+ dq)) 0] 0].

Definition import_msg : string := dq +:+ "fmt" +:+ dq +:+ " imported and not used".

(** what the file would be with the local name deleted, and what the fixer
    makes of it *)
Definition import_name_deleted : list byte := bytes ("package p
import  " +:+ dq +:+ "fmt" +:+ dq +:+ "
").

Definition import_discarded : list byte := bytes ("package p
import _ " +:+ dq +:+ "fmt" +:+ dq +:+ "
").

(** *** an unused import without a local name *)
Definition plain_src : list byte := bytes ("package p
import " +:+ dq +:+ "fmt" +:+ dq +:+ "
").

Definition plain_file : File :=
  mkFile 1 1 (mkIdent 9 "p")
    [GenDecl 11 IMPORT 0 [ImportSpec None (mkBasicLit 18 (dq +:+ "fmt" +:+ dq)) 0] 0].

Definition plain_discarded : list byte := bytes ("package p
import _ " +:+ dq +:+ "fmt" +:+ dq +:+ "
").

(** *** a package with two type errors *)
Definition two_src : list byte := bytes "package p
func a() { x() }
func b() { y() }
".

Definition two_file : File :=
  mkFile 1 1 (mkIdent 9 "p")
    [FuncDecl None (mkIdent 16 "a") (funcType 11)
       (Some (Block 20 [callStmt "x" 22 25 []] 26));
     FuncDecl None (mkIdent 33 "b") (funcType 28)
       (Some (Block 37 [callStmt "y" 39 42 []] 43))].

Definition undefined (name : string) (offset : Z) : TypeError :=
  mkTypeError (offset + 1) ("undefined: " +:+ name) "a.go" offset "a.go" 0 0.

Definition panicLit (msg : string) (p : Pos) : list Node :=
  [BasicLitN (mkBasicLit p (dq +:+ msg +:+ dq))].

(** after the first pass *)
Definition two_file1 : File :=
  mkFile 1 1 (mkIdent 9 "p")
    [FuncDecl None (mkIdent 16 "a") (funcType 11)
       (Some (Block 20 [callStmt "panic" 22 43 (panicLit "undefined: x" 28)] 43));
     FuncDecl None (mkIdent 50 "b") (funcType 45)
       (Some (Block 54 [callStmt "y" 56 59 []] 60))].

(** after the second pass *)
Definition two_file2 : File :=
  mkFile 1 1 (mkIdent 9 "p")
    [FuncDecl None (mkIdent 16 "a") (funcType 11)
       (Some (Block 20 [callStmt "panic" 22 43 (panicLit "undefined: x" 28)] 43));
     FuncDecl None (mkIdent 50 "b") (funcType 45)
       (Some (Block 54 [callStmt "panic" 56 77 (panicLit "undefined: y" 62)] 77))].

(** *** more sources of the test suite *)

(** in_an_if.go *)
Definition inif_src : list byte := bytes ("package main

import " +:+ dq +:+ "fmt" +:+ dq +:+ "

func main() {
	if true {
		fmt.Println(0xg)
	}
}
").

Definition inif_file : File :=
  mkFile 1 1 (mkIdent 9 "main")
    [GenDecl 15 IMPORT 0 [ImportSpec None (mkBasicLit 22 (dq +:+ "fmt" +:+ dq)) 0] 0;
     FuncDecl None (mkIdent 34 "main") (mainType 29)
       (Some (Block 41
          [OtherStmt 44 75
             [None; Some (IdentN (mkIdent 47 "true"));
              Some (BlockStmtN (Block 52 [printlnStmt 56 72 (mkBasicLit 68 "0x")] 74));
              None]] 76))].

(** unclosed_string.go: the parser skips the closing brace *)
Definition unclosed_src : list byte := bytes ("package main

import " +:+ dq +:+ "fmt" +:+ dq +:+ "

func main() {
	fmt.Println(" +:+ dq +:+ "oops
}
").

Definition unclosed_file : File :=
  mkFile 1 1 (mkIdent 9 "main")
    [GenDecl 15 IMPORT 0 [ImportSpec None (mkBasicLit 22 (dq +:+ "fmt" +:+ dq)) 0] 0;
     FuncDecl None (mkIdent 34 "main") (mainType 29)
       (Some (Block 41
          [OtherStmt 44 65
             [Some (OtherNode 44 65
                [Some (OtherNode 44 55
                   [Some (IdentN (mkIdent 44 "fmt")); Some (IdentN (mkIdent 48 "Println"))]);
                 Some (BasicLitN (mkBasicLit 56 (dq +:+ "oops")));
                 Some (OtherNode 62 64 [])])]] 0))].

(** singleline.go *)
Definition single_src : list byte := bytes ("package main

import " +:+ dq +:+ "fmt" +:+ dq +:+ "
func main() { fmt.Println(" +:+ dq +:+ "oops) }

").

Definition single_file : File :=
  mkFile 1 1 (mkIdent 9 "main")
    [GenDecl 15 IMPORT 0 [ImportSpec None (mkBasicLit 22 (dq +:+ "fmt" +:+ dq)) 0] 0;
     FuncDecl None (mkIdent 33 "main") (mainType 28)
       (Some (Block 40 [printlnStmt 42 65 (mkBasicLit 54 (dq +:+ "oops) }"))] 0))].

(** syntax_in_if.go: after [oh] the parser skips to the end of the file *)
Definition synif_src : list byte := bytes "package main

func main() {
	if true {
		oh very no
	}
}

".

Definition synif_file : File :=
  mkFile 1 1 (mkIdent 9 "main")
    [FuncDecl None (mkIdent 20 "main") (mainType 15)
       (Some (Block 27
          [OtherStmt 30 44
             [None; Some (IdentN (mkIdent 33 "true"));
              Some (BlockStmtN (Block 38
                 [OtherStmt 42 44 [Some (IdentN (mkIdent 42 "oh"))]] 0));
              None]] 0))].

(** tld.go: the error is outside of every function *)
Definition tld_src : list byte := bytes "package main
hah what're you going to do?
func main() { }
".

Definition tld_file : File :=
  mkFile 1 1 (mkIdent 9 "main")
    [OtherNode 14 59 []].

(** *** a statement with two statements before it *)
Definition sib_src : list byte := bytes "package p
func a() { x(); y(); z(0xg) }
".

Definition sib_x : Node := callStmt "x" 22 25 [].
Definition sib_y : Node := callStmt "y" 27 30 [].
Definition sib_z : Node := callStmt "z" 32 38 [BasicLitN (mkBasicLit 34 "0x")].

Definition sib_file : File :=
  mkFile 1 1 (mkIdent 9 "p")
    [FuncDecl None (mkIdent 16 "a") (funcType 11)
       (Some (Block 20 ([sib_x; sib_y] ++ sib_z :: []) 39))].

(** *** a file without errors *)
Definition ok_src : list byte := bytes "package p
func a() { }
".

Definition ok_file : File :=
  mkFile 1 1 (mkIdent 9 "p")
    [FuncDecl None (mkIdent 16 "a") (funcType 11) (Some (Block 20 [] 22))].

(** *** the toolchain *)

Definition demoParseFile (filename : string) (content : list byte) : File * ParseErr :=
  if String.eqb filename "hex.go" then
    if len content =? 62
    then (hex_file, ErrorList [mkScanError 55 hex_msg])
    else (hex_fixed_file, NoErr)
  else if String.eqb filename "loop.go" then
    (plain_file, ErrorList [mkScanError 17 import_msg])
  else if String.eqb filename "a.go" then
    if len content =? 44 then (two_file, NoErr)
    else if len content =? 61 then (two_file1, NoErr)
    else (two_file2, NoErr)
  else (ok_file, NoErr).

Definition demoReadFile (filename : string) : option (list byte) :=
  if String.eqb filename "hex.go" then Some hex_src
  else if String.eqb filename "a.go" then Some two_src
  else if String.eqb filename "ok.go" then Some ok_src
  else None.

Definition demoList (mode : string) (pkgNames : list string)
  (overlay : gmap string (list byte)) : option (list (list string)) :=
  match pkgNames with
  | [name] =>
      if String.eqb name "p" then Some [["a.go"]]
      else if String.eqb name "ok" then Some [["ok.go"]]
      else None
  | _ => None
  end.

Definition demoTypeCheck (syntax : list File) : list TypeError :=
  match syntax with
  | [f] =>
      if FileEnd f =? 44 then [undefined "x" 21; undefined "y" 38]
      else if FileEnd f =? 61 then [undefined "y" 55]
      else []
  | _ => []
  end.

(** every build fails in package [p] *)
Definition demoBuild (n : nat) (mode : string) (args : list string)
  (overlay : option (gmap string (list byte))) : BuildResult :=
  BuildFailed (bytes "# p
./a.go:2:12: undefined: x").

(** [strconv.Quote], which [%#v] prints a string with: the text between
    double quotes, a backslash before a double quote and before a backslash,
    and a backslash with [n], [r] or [t] for a line feed, a carriage return
    or a tab.  The other bytes are copied, as [strconv.Quote] does with
    printable ASCII. *)
Definition bs : string := String (Ascii.ascii_of_nat 92) EmptyString.

Fixpoint quoteBody (s : string) : string :=
  match s with
  | EmptyString => EmptyString
  | String c t =>
      let n := Ascii.nat_of_ascii c in
      (if Nat.eqb n 34 then bs +:+ dq
       else if Nat.eqb n 92 then bs +:+ bs
       else if Nat.eqb n 10 then bs +:+ "n"
       else if Nat.eqb n 13 then bs +:+ "r"
       else if Nat.eqb n 9 then bs +:+ "t"
       else String c EmptyString) +:+ quoteBody t
  end.

Definition demo : Toolchain := {|
  Quote := fun msg => dq +:+ quoteBody msg +:+ dq;
  ParseFile := demoParseFile;
  ReadFile := demoReadFile;
  goCache := "/cache";
  goList := demoList;
  typeCheck := demoTypeCheck;
  goBuild := demoBuild
|}.

Definition fixer0 : Fixer := mkFixer "run" false ∅ [].

(** *** what the examples come to *)

Definition two_src1 : list byte := bytes ("package p
func a() { panic(" +:+ dq +:+ "undefined: x" +:+ dq +:+ ")}
func b() { y() }
").

Definition runner0 : Runner := mkRunner "build" false ["p"] [] false ∅ ∅ EmptyString 0.

Definition hex_stmt : Node := printlnStmt 44 60 (mkBasicLit 56 "0x").
Definition hex_body : BlockStmt := Block 41 [hex_stmt] 61.
Definition hex_enclosing : Enclosing :=
  mkEnclosing (Some hex_stmt) (Some ([4; 3]%nat, hex_body)) (Some ([4; 3]%nat, hex_body)).

Definition open_stmt : Node := printlnStmt 28 48 (mkBasicLit 40 (dq +:+ "oops")).
Definition open_body : BlockStmt := Block 26 [open_stmt] 0.
Definition open_enclosing : Enclosing :=
  mkEnclosing (Some open_stmt) (Some ([4; 2]%nat, open_body)) (Some ([4; 2]%nat, open_body)).

(** * More of the code *)

(** ** Every node of a walk *)

(** Induction over a tree with the trees below a function declaration. *)
Section NodeInductionFull.
Variable P : Node → Prop.
Variable Q : BlockStmt → Prop.
Hypothesis HIdent : ∀ i, P (IdentN i).
Hypothesis HLit : ∀ l, P (BasicLitN l).
Hypothesis HImport : ∀ n p e, P (ImportSpec n p e).
Hypothesis HGen : ∀ tp t lp specs rp, Forall P specs → P (GenDecl tp t lp specs rp).
Hypothesis HFunc : ∀ recv name type body,
  match recv with Some r => P r | None => True end → P type →
  match body with Some b => Q b | None => True end →
  P (FuncDecl recv name type body).
Hypothesis HBlockN : ∀ b, Q b → P (BlockStmtN b).
Hypothesis HAssign : ∀ lhs tp t rhs, Forall P lhs → Forall P rhs → P (AssignStmt lhs tp t rhs).
Hypothesis HOtherStmt : ∀ p e sub,
  Forall (fun o => match o with Some x => P x | None => True end) sub →
  P (OtherStmt p e sub).
Hypothesis HOtherNode : ∀ p e sub,
  Forall (fun o => match o with Some x => P x | None => True end) sub →
  P (OtherNode p e sub).
Hypothesis HBlock : ∀ lb stmts rb, Forall P stmts → Q (Block lb stmts rb).

Fixpoint Node_induction_full (n : Node) : P n :=
  let all :=
    fix all (l : list Node) : Forall P l :=
      match l with
      | [] => List.Forall_nil P
      | x :: l' => List.Forall_cons P x l' (Node_induction_full x) (all l')
      end in
  let allSub :=
    fix allSub (l : list (option Node))
      : Forall (fun o => match o with Some x => P x | None => True end) l :=
      match l with
      | [] => List.Forall_nil _
      | o :: l' =>
          List.Forall_cons _ o l'
            (match o return match o with Some x => P x | None => True end with
             | Some y => Node_induction_full y
             | None => I
             end)
            (allSub l')
      end in
  match n with
  | IdentN i => HIdent i
  | BasicLitN l => HLit l
  | ImportSpec n p e => HImport n p e
  | GenDecl tp t lp specs rp => HGen tp t lp specs rp (all specs)
  | FuncDecl recv name type body =>
      HFunc recv name type body
        (match recv return match recv with Some r => P r | None => True end with
         | Some r => Node_induction_full r
         | None => I
         end)
        (Node_induction_full type)
        (match body return match body with Some b => Q b | None => True end with
         | Some b => Block_induction_full b
         | None => I
         end)
  | BlockStmtN b => HBlockN b (Block_induction_full b)
  | AssignStmt lhs tp t rhs => HAssign lhs tp t rhs (all lhs) (all rhs)
  | OtherStmt p e sub => HOtherStmt p e sub (allSub sub)
  | OtherNode p e sub => HOtherNode p e sub (allSub sub)
  end
with Block_induction_full (b : BlockStmt) : Q b :=
  match b with
  | Block lb stmts rb =>
      HBlock lb stmts rb
        ((fix all (l : list Node) : Forall P l :=
            match l with
            | [] => List.Forall_nil P
            | x :: l' => List.Forall_cons P x l' (Node_induction_full x) (all l')
            end) stmts)
  end.
End NodeInductionFull.

(** [ok] holds at every node that a walk of the tree visits. *)
Fixpoint allNodes (ok : Node → bool) (n : Node) : bool :=
  match n with
  | IdentN _ | BasicLitN _ => ok n
  | ImportSpec name path _ =>
      ok n && match name with Some i => ok (IdentN i) | None => true end &&
      ok (BasicLitN path)
  | GenDecl _ _ _ specs _ => ok n && forallb (allNodes ok) specs
  | FuncDecl recv name type body =>
      ok n && match recv with Some r => allNodes ok r | None => true end &&
      ok (IdentN name) && allNodes ok type &&
      match body with Some b => allNodesBlock ok b | None => true end
  | BlockStmtN b => allNodesBlock ok b
  | AssignStmt lhs _ _ rhs =>
      ok n && forallb (allNodes ok) lhs && forallb (allNodes ok) rhs
  | OtherStmt _ _ sub | OtherNode _ _ sub =>
      ok n && forallb (fun o => match o with Some x => allNodes ok x | None => true end) sub
  end
with allNodesBlock (ok : Node → bool) (b : BlockStmt) : bool :=
  match b with
  | Block _ stmts _ => ok (BlockStmtN b) && forallb (allNodes ok) stmts
  end.

Definition allNodesFile (ok : Node → bool) (f : File) : bool :=
  ok (IdentN (FileName f)) && forallb (allNodes ok) (Decls f).

Definition cursorOk (ok : Node → bool) (c : Cursor) : Prop :=
  match cNode c with
  | Some (NodeA n) => ok n = true
  | _ => True
  end.

(** The nodes that a walk of a tree visits, in the order of the walk, the
    tree itself first. *)
Fixpoint nodes (n : Node) : list Node :=
  match n with
  | IdentN _ | BasicLitN _ => [n]
  | ImportSpec name path _ =>
      n :: match name with Some i => [IdentN i] | None => [] end ++ [BasicLitN path]
  | GenDecl _ _ _ specs _ => n :: flat_map nodes specs
  | FuncDecl recv name type body =>
      n :: match recv with Some r => nodes r | None => [] end ++
      IdentN name :: nodes type ++
      match body with Some b => nodesBlock b | None => [] end
  | BlockStmtN b => nodesBlock b
  | AssignStmt lhs _ _ rhs => n :: flat_map nodes lhs ++ flat_map nodes rhs
  | OtherStmt _ _ sub | OtherNode _ _ sub =>
      n :: flat_map (fun o => match o with Some x => nodes x | None => [] end) sub
  end
with nodesBlock (b : BlockStmt) : list Node :=
  match b with
  | Block _ stmts _ => BlockStmtN b :: flat_map nodes stmts
  end.

Definition nodesFile (f : File) : list Node :=
  IdentN (FileName f) :: flat_map nodes (Decls f).

(** the node under the cursor, if it is a node of a tree, satisfies [P] *)
Definition cursorIn (P : Node → Prop) (c : Cursor) : Prop :=
  match cNode c with
  | Some (NodeA n) => P n
  | _ => True
  end.

(** the state in which a walk ended satisfies [I]; a walk that panicked is
    accepted when [panicOk] holds *)
Definition Ended {S : Type} (panicOk : Prop) (I : S → Prop) (w : Walk S) : Prop :=
  match w with
  | Continue s | Aborted s => I s
  | Panicked => panicOk
  end.

(** a call of a closure of a walk keeps [I] *)
Definition Keeps {S : Type} (panicOk : Prop) (I : S → Prop) (r : Result (bool * S)) : Prop :=
  match r with
  | Ok (_, s) => I s
  | Fault => panicOk
  end.

(** the walk below a node, and below a block, keeps [I] *)
Definition EndedAt {S : Type} (pre post : Cursor → S → Result (bool * S))
  (panicOk : Prop) (I : S → Prop) (P : Node → Prop) (n : Node) : Prop :=
  Forall P (nodes n) → ∀ parent me s, I s →
  Ended panicOk I (apply pre post parent me n s).

Definition EndedAtBlock {S : Type} (pre post : Cursor → S → Result (bool * S))
  (panicOk : Prop) (I : S → Prop) (P : Node → Prop) (b : BlockStmt) : Prop :=
  Forall P (nodesBlock b) → ∀ parent me s, I s →
  Ended panicOk I (applyBlock pre post parent me b s).

(** a function declared without a body *)
Definition hasBody (n : Node) : bool :=
  match n with
  | FuncDecl _ _ _ None => false
  | _ => true
  end.

(** what the walks of the micro-fixes hold on to: an identifier of the
    file, or the token of an assignment statement of the file, that spans
    the position *)
Definition foundIdent (file : File) (pos : Pos) (ident : option Ident) : Prop :=
  match ident with
  | Some i => IdentN i ∈ nodesFile file ∧ covers pos (IdentN i) = true
  | None => True
  end.

Definition foundAssign (file : File) (pos : Pos) (assign : option (Token * Pos)) : Prop :=
  match assign with
  | Some (tok, tokPos) =>
      ∃ lhs rhs, AssignStmt lhs tokPos tok rhs ∈ nodesFile file ∧
                 covers pos (AssignStmt lhs tokPos tok rhs) = true
  | None => True
  end.

(** the locator found no block with a closing brace *)
Definition noValidBlock (e : Enclosing) : Prop :=
  match block e with
  | Some (_, b) => IsValid (Rbrace b) = false
  | None => True
  end.

(** the overlay of [f'] has an entry for every file that has one in [f] *)
Definition extends (f f' : Fixer) : Prop :=
  dom (Fixed f) ⊆ dom (Fixed f') ∧ mode f' = mode f ∧ verbose f' = verbose f.

(** lines that end in a line feed, and lines joined by line feeds *)
Definition terminated (lines : list (list byte)) : list byte :=
  concat (map (fun l => l ++ [nl]) lines).

Fixpoint joinLines (first : list byte) (more : list (list byte)) : list byte :=
  match more with
  | [] => first
  | l :: more => first ++ nl :: joinLines l more
  end.

Definition noLineFeed (l : list byte) : Prop := Forall (fun b => b ≠ nl) l.


(** the name that the go command gives to the package of files named on
    the command line *)
Definition clArgs : string := "command-line-arguments".

(** the statement found so far starts at or before [pos] *)
Definition stmtBefore (pos : Pos) (e : Enclosing) : Prop :=
  match stmt e with
  | Some s => NodePos s ≤ pos
  | None => True
  end.


(** the overlay of the runner has every fixed file *)
Definition covered (r : Runner) : Prop :=
  dom (fixed r) ⊆ dom (overlays r) ∧ (fixed r ≠ ∅ → overlayFile r = overlayName).

(** *** a variable that is not used *)
Definition unused_src : list byte := bytes "package p
func a() { x := 1 }
".

Definition unused_file : File :=
  mkFile 1 1 (mkIdent 9 "p")
    [FuncDecl None (mkIdent 16 "a") (funcType 11)
       (Some (Block 20
          [AssignStmt [IdentN (mkIdent 22 "x")] 24 DEFINE [BasicLitN (mkBasicLit 27 "1")]]
          29))].

Definition unused_fixed : list byte := bytes "package p
func a() { _ := 1 }
".

(** *** a second declaration of a variable *)
Definition useless_src : list byte := bytes "package p
func a() { x := 1; x := 2; _ = x }
".

Definition useless_file : File :=
  mkFile 1 1 (mkIdent 9 "p")
    [FuncDecl None (mkIdent 16 "a") (funcType 11)
       (Some (Block 20
          [AssignStmt [IdentN (mkIdent 22 "x")] 24 DEFINE [BasicLitN (mkBasicLit 27 "1")];
           AssignStmt [IdentN (mkIdent 30 "x")] 32 DEFINE [BasicLitN (mkBasicLit 35 "2")];
           AssignStmt [IdentN (mkIdent 38 "_")] 40 ASSIGN [IdentN (mkIdent 42 "x")]]
          44))].

Definition useless_fixed : list byte := bytes "package p
func a() { x := 1; x = 2; _ = x }
".

(** *** a function declared without a body *)
Definition bodyless_src : list byte := bytes "package p
func f() int
func g() { x() }
".

(** [func f() int] *)
Definition bodyless_type : Node :=
  OtherNode 11 23
    [None; Some (OtherNode 17 19 []);
     Some (OtherNode 20 23
       [Some (OtherNode 20 23 [None; Some (IdentN (mkIdent 20 "int")); None; None])])].

Definition bodyless_g : Node :=
  FuncDecl None (mkIdent 29 "g") (funcType 24) (Some (Block 33 [callStmt "x" 35 38 []] 39)).

Definition bodyless_file : File :=
  mkFile 1 1 (mkIdent 9 "p")
    [FuncDecl None (mkIdent 16 "f") bodyless_type None; bodyless_g].

Definition tld_msg : string := "expected declaration, found hah".
Definition open_msg : string := "string literal not terminated".

(** a Fixer with a file in its overlay *)
Definition fixer1 : Fixer := mkFixer "run" false {["ok.go" := ok_src]} [].

(** *** a build that fails before any package is compiled *)
Definition nomod_out : list byte := bytes "go: go.mod file not found".

Definition nomod : Toolchain := {|
  Quote := @Quote demo;
  ParseFile := demoParseFile;
  ReadFile := demoReadFile;
  goCache := "/cache";
  goList := demoList;
  typeCheck := demoTypeCheck;
  goBuild := fun _ _ _ _ => BuildFailed nomod_out
|}.

Definition runner1 : Runner :=
  mkRunner "run" false ["main.go"] ["-v"] false ∅ ∅ EmptyString 0.









(** *** a build that succeeds once package [p] is fixed *)
Definition fixable : Toolchain := {|
  Quote := @Quote demo;
  ParseFile := demoParseFile;
  ReadFile := demoReadFile;
  goCache := "/cache";
  goList := demoList;
  typeCheck := demoTypeCheck;
  goBuild := fun n mode args overlay =>
    match n with
    | O => demoBuild n mode args overlay
    | _ => BuildOk
    end
|}.

(** ** Outcomes of a fix *)

(** The outcome of a fix: nothing changed, or the entry of the file was
    replaced. *)
Definition Patched (f : Fixer) (filename : string) (b : bool) (f' : Fixer) : Prop :=
  if b then ∃ v, f' = setFixed f (<[filename := v]> (Fixed f)) else f' = f.

Ltac unbind H :=
  unfold mbind, Result_bind in H;
  repeat (let E := fresh "E" in
          match type of H with
          | match ?r with _ => _ end = _ => destruct r eqn:E; try discriminate H
          | (if ?c then _ else _) = _ => destruct c eqn:E; try discriminate H
          | (let '(_, _) := ?p in _) = _ => destruct p eqn:E
          end).

(** * Properties *)

(** ** Slices *)

Lemma slice_Ok (s : list byte) (lo hi : Z) (x : list byte) :
  slice s lo hi = Ok x →
  0 ≤ lo ∧ lo ≤ hi ∧ hi ≤ len s ∧ x = take (Z.to_nat (hi - lo)) (drop (Z.to_nat lo) s).
Proof.
  unfold slice. intros Hs.
  destruct (0 <=? lo) eqn:H0; [|discriminate].
  destruct (lo <=? hi) eqn:H1; [|discriminate].
  destruct (hi <=? len s) eqn:H2; [|discriminate].
  simpl in Hs. injection Hs as <-.
  repeat split; lia.
Qed.

Lemma slice_len (s : list byte) (lo hi : Z) (x : list byte) :
  slice s lo hi = Ok x → len x = hi - lo.
Proof.
  intros Hs. apply slice_Ok in Hs as (H0 & H1 & H2 & ->).
  unfold len in *. rewrite length_take, length_drop. lia.
Qed.

Lemma slice_split (s : list byte) (a b c : Z) (x y : list byte) :
  slice s a b = Ok x → slice s b c = Ok y →
  s = take (Z.to_nat a) s ++ x ++ y ++ drop (Z.to_nat c) s.
Proof.
  intros Hx Hy.
  apply slice_Ok in Hx as (Ha & Hab & Hb & ->).
  apply slice_Ok in Hy as (_ & Hbc & Hc & ->).
  unfold len in *.
  etrans; [symmetry; apply (take_drop (Z.to_nat a))|]. f_equal.
  etrans; [symmetry; apply (take_drop (Z.to_nat (b - a)))|]. f_equal.
  rewrite drop_drop.
  replace (Z.to_nat a + Z.to_nat (b - a))%nat with (Z.to_nat b) by lia.
  etrans; [symmetry; apply (take_drop (Z.to_nat (c - b)))|]. f_equal.
  rewrite drop_drop. f_equal. lia.
Qed.

Lemma sliceTo_Ok (s : list byte) (hi : Z) (x : list byte) :
  sliceTo s hi = Ok x → 0 ≤ hi ∧ hi ≤ len s ∧ x = take (Z.to_nat hi) s.
Proof.
  unfold sliceTo. intros Hs. apply slice_Ok in Hs as (_ & H0 & H1 & ->).
  repeat split; try lia. rewrite Z.sub_0_r. reflexivity.
Qed.

Lemma sliceFrom_Ok (s : list byte) (lo : Z) (x : list byte) :
  sliceFrom s lo = Ok x → 0 ≤ lo ∧ lo ≤ len s ∧ x = drop (Z.to_nat lo) s.
Proof.
  unfold sliceFrom. intros Hs. apply slice_Ok in Hs as (H0 & H1 & _ & ->).
  repeat split; try lia.
  apply take_ge. unfold len in *. rewrite length_drop. lia.
Qed.

(** ** Line breaks *)

Lemma newLinesInRange_filter (s : list byte) :
  newLinesInRange s = List.filter isNewline s.
Proof.
  induction s as [|b s IH]; simpl; [reflexivity|].
  destruct (isNewline b); rewrite IH; reflexivity.
Qed.

Lemma filter_isNewline_idem (s : list byte) :
  List.filter isNewline (List.filter isNewline s) = List.filter isNewline s.
Proof.
  induction s as [|b s IH]; simpl; [reflexivity|].
  destruct (isNewline b) eqn:Hb; simpl; rewrite ?Hb, IH; reflexivity.
Qed.

Lemma lineBreaks_newLinesInRange (s : list byte) :
  lineBreaks (newLinesInRange s) = lineBreaks s.
Proof.
  unfold lineBreaks. f_equal. exact (filter_isNewline_idem s).
Qed.

(** ** The overlay is replaced in one piece *)

Lemma update_Patched f filename parts b f' :
  Ok (update f filename parts) = Ok (b, f') → Patched f filename b f'.
Proof. unfold update. intros [= <- <-]. simpl. eauto. Qed.

Lemma Ok_false_Patched f filename b f' :
  @Ok (bool * Fixer) (false, f) = Ok (b, f') → Patched f filename b f'.
Proof. intros [= <- <-]. reflexivity. Qed.

Lemma fixUnusedImport_Patched f file filename content offset b f' :
  fixUnusedImport f file filename content offset = Ok (b, f') → Patched f filename b f'.
Proof.
  unfold fixUnusedImport. intros Hr. unbind Hr;
    eauto using update_Patched, Ok_false_Patched.
Qed.

Lemma fixUnusedVar_Patched f file filename content offset b f' :
  fixUnusedVar f file filename content offset = Ok (b, f') → Patched f filename b f'.
Proof.
  unfold fixUnusedVar. intros Hr. unbind Hr;
    eauto using update_Patched, Ok_false_Patched.
Qed.

Lemma fixUselessAssignment_Patched f file filename content offset b f' :
  fixUselessAssignment f file filename content offset = Ok (b, f') → Patched f filename b f'.
Proof.
  unfold fixUselessAssignment. intros Hr. unbind Hr;
    eauto using update_Patched, Ok_false_Patched.
Qed.

Lemma fixError_Patched `{Toolchain} f file filename content offset msg b f' :
  fixError f file filename content offset msg = Ok (b, f') → Patched f filename b f'.
Proof.
  unfold fixError. intros Hr. unfold mbind, Result_bind in Hr.
  destruct (Contains msg "imported and not used");
    [destruct file; simpl in Hr; [|discriminate]; by eapply fixUnusedImport_Patched|].
  destruct (Contains msg "declared and not used");
    [destruct file; simpl in Hr; [|discriminate]; by eapply fixUnusedVar_Patched|].
  destruct (Contains msg "no new variables on left side of :=");
    [destruct file; simpl in Hr; [|discriminate]; by eapply fixUselessAssignment_Patched|].
  destruct file as [file|]; [|discriminate]. simpl in Hr.
  destruct (findRangeToFix file content offset) as [[[start end_] tail]|]; [|discriminate].
  unbind Hr; eauto using update_Patched, Ok_false_Patched.
Qed.

(** C10 (atomicity of [fixError]).  When [fixError] returns false the
    overlay [Fixed] is what it was; when it returns true the entry of the
    given file name is replaced and every other entry is what it was. *)
Theorem fixError_atomic `{Toolchain} (f : Fixer) (file : option File) (filename : string)
  (content : list byte) (offset : Z) (msg : string) (b : bool) (f' : Fixer) :
  fixError f file filename content offset msg = Ok (b, f') →
  (b = false → Fixed f' = Fixed f) ∧
  (b = true → ∃ v, Fixed f' = <[filename := v]> (Fixed f) ∧
                   ∀ other, other ≠ filename → Fixed f' !! other = Fixed f !! other).
Proof.
  intros Hr. apply fixError_Patched in Hr. split; intros ->; simpl in Hr.
  - by rewrite Hr.
  - destruct Hr as [v ->]. exists v. simpl. split; [done|].
    intros other Hne. by rewrite lookup_insert_ne.
Qed.

(** C1 (newline preservation).  On the general path of [fixError], the one
    that defers the error, a patch keeps the content before the range and
    after it, and puts in place of the removed text the line breaks of the
    removed text before the error offset, then the [panic] call with the
    quoted message, then the line breaks of the removed text after the
    offset (and then the tail).  So the replacement has as many line breaks
    before the call as the removed text has before the offset, and as many
    after. *)
Theorem fixError_newlines `{Toolchain} (f : Fixer) (file : option File) (filename : string)
  (content : list byte) (offset : Z) (msg : string) (f' : Fixer) :
  Contains msg "imported and not used" = false →
  Contains msg "declared and not used" = false →
  Contains msg "no new variables on left side of :=" = false →
  fixError f file filename content offset msg = Ok (true, f') →
  ∃ file' start end_ tail kept before after rest,
    file = Some file' ∧
    findRangeToFix file' content offset = Ok (start, end_, tail) ∧
    content = kept ++ before ++ after ++ rest ∧
    len kept = start ∧ len before = offset - start ∧ len after = end_ - offset ∧
    Fixed f' !! filename =
      Some (kept ++
            (List.filter isNewline before ++
             bytes ("panic(" +:+ Quote msg +:+ ")") ++
             List.filter isNewline after) ++
            tail ++ rest) ∧
    lineBreaks (List.filter isNewline before) = lineBreaks before ∧
    lineBreaks (List.filter isNewline after) = lineBreaks after.
Proof.
  intros H1 H2 H3 Hr. unfold fixError in Hr. rewrite H1, H2, H3 in Hr.
  destruct file as [file|]; [|discriminate]. simpl in Hr.
  unfold mbind, Result_bind in Hr.
  destruct (findRangeToFix file content offset) as [[[start end_] tail]|] eqn:Hrange;
    [|discriminate].
  destruct (start =? end_); [discriminate|].
  destruct ((start >? offset) || (end_ <? offset)); [discriminate|].
  destruct (slice content start offset) as [before|] eqn:Hb; [|discriminate].
  destruct (slice content offset end_) as [after|] eqn:Ha; [|discriminate].
  destruct (slice content 0 start) as [kept|] eqn:Hk; [|discriminate].
  destruct (sliceFrom content end_) as [rest|] eqn:Hrest; [|discriminate].
  injection Hr as <-.
  exists file, start, end_, tail, kept, before, after, rest.
  pose proof (slice_split _ _ _ _ _ _ Hb Ha) as Hsplit.
  pose proof (slice_len _ _ _ _ Hb) as Lb.
  pose proof (slice_len _ _ _ _ Ha) as La.
  pose proof (slice_len _ _ _ _ Hk) as Lk.
  apply sliceTo_Ok in Hk as (_ & _ & ->).
  apply sliceFrom_Ok in Hrest as (_ & _ & ->).
  repeat split; try done; try lia.
  - simpl. rewrite lookup_insert_eq. f_equal. by rewrite app_nil_r.
  - unfold lineBreaks. f_equal. apply filter_isNewline_idem.
  - unfold lineBreaks. f_equal. apply filter_isNewline_idem.
Qed.

Lemma slicesIndexFuncFrom_found {A : Type} (l : list A) (p : A → bool) (k i : Z) :
  slicesIndexFuncFrom k l p = i → 0 ≤ k → i ≠ -1 →
  k ≤ i ∧ ∃ x, l !! Z.to_nat (i - k) = Some x ∧ p x = true.
Proof.
  revert k. induction l as [|y l IH]; intros k Hi Hk Hne; simpl in Hi; [lia|].
  destruct (p y) eqn:Hp.
  - subst i. split; [lia|]. exists y. rewrite Z.sub_diag. done.
  - destruct (IH (k + 1) Hi ltac:(lia) Hne) as (Hle & x & Hx & Hpx).
    split; [lia|]. exists x. split; [|done].
    replace (Z.to_nat (i - k)) with (S (Z.to_nat (i - (k + 1)))) by lia. done.
Qed.

Lemma slicesIndexFunc_at {A : Type} (l : list A) (p : A → bool) (x : A) :
  slicesIndexFunc l p ≠ -1 → at_ l (slicesIndexFunc l p) = Ok x →
  x ∈ l ∧ p x = true.
Proof.
  intros Hne Hat. unfold slicesIndexFunc in *.
  destruct (slicesIndexFuncFrom_found l p 0 _ eq_refl ltac:(lia) Hne) as (Hle & y & Hy & Hp).
  unfold at_ in Hat. destruct (_ <? 0) eqn:E; [lia|].
  rewrite Z.sub_0_r in Hy. rewrite Hy in Hat. injection Hat as <-.
  split; [|done]. by eapply list_elem_of_lookup_2.
Qed.

(** Every patch of [fixUnusedImport] comes from an import declaration and
    one of its entries that cover the offset, and has this shape. *)
Lemma fixUnusedImport_patched_entry (f : Fixer) (file : File) (filename : string)
  (content : list byte) (offset : Z) (f' : Fixer) :
  fixUnusedImport f file filename content offset = Ok (true, f') →
  ∃ tokPos lparen specs rparen name path endPos before removed after,
    GenDecl tokPos IMPORT lparen specs rparen ∈ Decls file ∧
    ImportSpec name path endPos ∈ specs ∧
    covers (FileStart file + offset) (ImportSpec name path endPos) = true ∧
    content = before ++ removed ++ after ∧
    Fixed f' = <[filename := before ++ bytes "_ " ++ after]> (Fixed f) ∧
    match name with
    | Some n =>
        len before = IdentPos n - FileStart file ∧ len removed = strlen (Name n) + 1
    | None =>
        len before = BasicLitPos path - FileStart file ∧ removed = []
    end.
Proof.
  unfold fixUnusedImport. intros Hr.
  destruct (slicesIndexFunc (Decls file) _ =? -1) eqn:Hd; [discriminate|].
  unfold mbind, Result_bind in Hr.
  destruct (at_ (Decls file) _) as [decl|] eqn:Hdecl; [|discriminate].
  apply slicesIndexFunc_at in Hdecl as [Hin _]; [|lia].
  destruct decl as [| | |tokPos tok lparen specs rparen| | | | |]; try discriminate.
  destruct tok; try discriminate. simpl in Hr.
  destruct (slicesIndexFunc specs _ =? -1) eqn:Hs; [discriminate|].
  destruct (at_ specs _) as [spec|] eqn:Hspec; [|discriminate].
  apply slicesIndexFunc_at in Hspec as [Hins Hcov]; [|lia].
  destruct spec as [| |name path endPos| | | | | |]; try discriminate.
  exists tokPos, lparen, specs, rparen, name, path, endPos.
  destruct name as [n|].
  - destruct (sliceTo content _) as [before|] eqn:Hb; [|discriminate].
    destruct (sliceFrom content _) as [after|] eqn:Ha; [|discriminate].
    injection Hr as <-.
    apply sliceTo_Ok in Hb as (Hb0 & Hb1 & ->).
    apply sliceFrom_Ok in Ha as (Ha0 & Ha1 & ->).
    set (ip := IdentPos n - FileStart file) in *.
    assert (Hlen : IdentEnd n - IdentPos n = strlen (Name n))
      by (unfold IdentEnd, IdentPos; lia).
    rewrite Hlen in *.
    assert (0 ≤ strlen (Name n)) by (unfold strlen; lia).
    exists (take (Z.to_nat ip) content),
           (take (Z.to_nat (strlen (Name n) + 1)) (drop (Z.to_nat ip) content)),
           (drop (Z.to_nat (ip + (strlen (Name n) + 1))) content).
    unfold len in *. repeat split; try done.
    + etrans; [symmetry; apply (take_drop (Z.to_nat ip))|]. f_equal.
      etrans; [symmetry; apply (take_drop (Z.to_nat (strlen (Name n) + 1)))|]. f_equal.
      rewrite drop_drop. f_equal. lia.
    + simpl. by rewrite app_nil_r.
    + rewrite length_take. lia.
    + rewrite length_take, length_drop. lia.
  - destruct (sliceTo content _) as [before|] eqn:Hb; [|discriminate].
    destruct (sliceFrom content _) as [after|] eqn:Ha; [|discriminate].
    injection Hr as <-.
    apply sliceTo_Ok in Hb as (Hb0 & Hb1 & ->).
    apply sliceFrom_Ok in Ha as (Ha0 & Ha1 & ->).
    set (ip := BasicLitPos path - FileStart file) in *.
    exists (take (Z.to_nat ip) content), [], (drop (Z.to_nat ip) content).
    unfold len in *. repeat split; try done.
    + simpl. by rewrite take_drop.
    + simpl. rewrite app_nil_r. by rewrite Z.add_0_r.
    + rewrite length_take. lia.
Qed.

Lemma slicesIndexFuncFrom_first {A : Type} (before after : list A) (x : A)
  (p : A → bool) : ∀ k : Z,
  Forall (fun y => p y = false) before → p x = true →
  slicesIndexFuncFrom k (before ++ x :: after) p = k + Z.of_nat (length before).
Proof.
  induction before as [|y before IH]; intros k Hall Hx.
  - simpl. rewrite Hx. lia.
  - apply Forall_cons in Hall as [Hy Hall].
    change ((y :: before) ++ x :: after) with (y :: (before ++ x :: after)).
    cbn [slicesIndexFuncFrom]. rewrite Hy, IH; [|done..]. cbn [length]. lia.
Qed.

Lemma at_middle {A : Type} (before after : list A) (x : A) :
  at_ (before ++ x :: after) (Z.of_nat (length before)) = Ok x.
Proof.
  unfold at_. destruct (Z.ltb_spec (Z.of_nat (length before)) 0) as [Hneg|_]; [lia|].
  rewrite Nat2Z.id, list_lookup_middle; done.
Qed.

(** C3 (unused import), as the code has it.  When the first declaration
    that covers the offset is an import declaration, and the first entry of
    it that covers the offset an import entry, [fixUnusedImport] patches
    the file, provided the span it replaces lies inside the content.  If
    the entry has a local name, the span of the name and of the one byte
    after it is replaced by the two bytes of the discard prefix; without a
    local name the discard prefix is inserted before the path.  The bytes
    before and after the replaced span are those of the file. *)
Theorem fixUnusedImport_patch (f : Fixer) (file : File) (filename : string)
  (content : list byte) (offset : Z) (dbefore dafter : list Node)
  (tokPos lparen rparen : Pos) (sbefore safter : list Node)
  (name : option Ident) (path : BasicLit) (endPos : Pos) :
  let pos := FileStart file + offset in
  let specs := sbefore ++ ImportSpec name path endPos :: safter in
  let insertPos :=
    match name with Some n => IdentPos n | None => BasicLitPos path end - FileStart file in
  let delLen := match name with Some n => strlen (Name n) + 1 | None => 0 end in
  Decls file = dbefore ++ GenDecl tokPos IMPORT lparen specs rparen :: dafter →
  Forall (fun d => covers pos d = false) dbefore →
  covers pos (GenDecl tokPos IMPORT lparen specs rparen) = true →
  Forall (fun sp => covers pos sp = false) sbefore →
  covers pos (ImportSpec name path endPos) = true →
  0 ≤ insertPos → insertPos + delLen ≤ len content →
  ∃ before removed after,
    content = before ++ removed ++ after ∧
    len before = insertPos ∧ len removed = delLen ∧
    fixUnusedImport f file filename content offset =
      Ok (true, setFixed f (<[filename := before ++ bytes "_ " ++ after]> (Fixed f))).
Proof.
  intros pos specs insertPos delLen Hdecls Hdb Hd Hsb Hsp Hlo Hhi.
  assert (Hdel : 0 ≤ delLen).
  { unfold delLen. destruct name; [unfold strlen|]; lia. }
  exists (take (Z.to_nat insertPos) content),
         (take (Z.to_nat delLen) (drop (Z.to_nat insertPos) content)),
         (drop (Z.to_nat (insertPos + delLen)) content).
  unfold len in *. split; [|split; [|split]].
  - etrans; [symmetry; apply (take_drop (Z.to_nat insertPos))|]. f_equal.
    etrans; [symmetry; apply (take_drop (Z.to_nat delLen))|]. f_equal.
    rewrite drop_drop. f_equal. lia.
  - rewrite length_take. lia.
  - rewrite length_take, length_drop. lia.
  - unfold fixUnusedImport. fold pos. rewrite Hdecls.
    unfold slicesIndexFunc.
    rewrite (slicesIndexFuncFrom_first dbefore dafter _ (covers pos) 0 Hdb Hd).
    rewrite (proj2 (Z.eqb_neq _ _)) by lia.
    rewrite Z.add_0_l, at_middle. unfold mbind, Result_bind. simpl negb. cbv iota.
    subst specs.
    rewrite (slicesIndexFuncFrom_first sbefore safter _ (covers pos) 0 Hsb Hsp).
    rewrite (proj2 (Z.eqb_neq _ _)) by lia.
    rewrite Z.add_0_l, at_middle.
    assert (Hslices :
      sliceTo content insertPos = Ok (take (Z.to_nat insertPos) content) ∧
      sliceFrom content (insertPos + delLen)
        = Ok (drop (Z.to_nat (insertPos + delLen)) content)).
    { unfold sliceTo, sliceFrom, slice, len.
      rewrite !(proj2 (Z.leb_le 0 0)) by lia.
      rewrite !(proj2 (Z.leb_le 0 insertPos)) by lia.
      rewrite !(proj2 (Z.leb_le insertPos (Z.of_nat (length content)))) by lia.
      rewrite !(proj2 (Z.leb_le 0 (insertPos + delLen))) by lia.
      rewrite !(proj2 (Z.leb_le (insertPos + delLen) (Z.of_nat (length content)))) by lia.
      rewrite !(proj2 (Z.leb_le (Z.of_nat (length content)) (Z.of_nat (length content))))
        by lia.
      simpl. split; [by rewrite Z.sub_0_r|]. f_equal.
      apply take_ge. rewrite length_drop. lia. }
    destruct Hslices as [Hto Hfrom].
    destruct name as [n|].
    + replace (IdentEnd n - IdentPos n + 1) with delLen
        by (unfold delLen, IdentEnd, IdentPos; lia).
      fold insertPos. rewrite Hto, Hfrom. unfold update. simpl. by rewrite app_nil_r.
    + fold insertPos. replace (insertPos + 0) with (insertPos + delLen) by (unfold delLen; lia).
      rewrite Hto, Hfrom. unfold update. simpl. by rewrite app_nil_r.
Qed.

(** C3 as stated fails: for [import fmt "fmt"] the local name is replaced by
    the discard marker; the file with the name deleted is another one. *)
Lemma fixUnusedImport_replaces_name :
  ∃ f', fixUnusedImport fixer0 import_file "i.go" import_src 17 = Ok (true, f') ∧
        Fixed f' !! "i.go" = Some import_discarded ∧
        import_discarded ≠ import_name_deleted.
Proof.
  eexists. split; [vm_compute; reflexivity|]. split; [vm_compute; reflexivity|].
  vm_compute. discriminate.
Qed.

(** ** The range to fix *)

(** With a block that has its closing brace, the range runs from the
    statement to that brace. *)
Lemma findRangeToFix_block (file : File) (content : list byte) (offset : Z)
  (e : Enclosing) (p : Path) (b : BlockStmt) (statement : Node) :
  findEnclosing file (FileStart file + offset) = Ok e →
  block e = Some (p, b) → IsValid (Rbrace b) = true → stmt e = Some statement →
  findRangeToFix file content offset =
    Ok (NodePos statement - FileStart file, Rbrace b - FileStart file, []).
Proof.
  intros He Hb Hv Hs. unfold findRangeToFix. rewrite He. simpl.
  rewrite Hb, Hv, Hs. do 3 f_equal.
  destruct b as [lb l rb]. simpl in *. rewrite Hv. lia.
Qed.

Lemma IndexFuncFrom_range {St : Type} (f : byte → St → bool * St) (s : list byte)
  (i : Z) (st : St) :
  IndexFuncFrom f i s st = -1 ∨
  (i ≤ IndexFuncFrom f i s st ∧ IndexFuncFrom f i s st < i + len s).
Proof.
  revert i st. induction s as [|r s IH]; intros i st; simpl; [by left|].
  destruct (f r st) as [hit st']. unfold len in *. simpl length.
  destruct hit; [right; lia|].
  destruct (IH (i + 1) st') as [->|IHr]; [by left|right; lia].
Qed.

Lemma index_Ok (s : list byte) (i : Z) :
  0 ≤ i → i < len s → ∃ b, index s i = Ok b.
Proof.
  intros H0 H1. unfold index.
  destruct (0 <=? i) eqn:E0; [|lia]. destruct (i <? len s) eqn:E1; [|lia]. simpl.
  destruct (s !! Z.to_nat i) as [b|] eqn:Hl; [by exists b|].
  apply lookup_ge_None in Hl. unfold len in *. lia.
Qed.

(** The forward scan stops at a byte of ["}fvct/"] that comes right after a
    line break. *)
Lemma scanBoundary_after_line_break (s : list byte) : ∀ (i : Z) (w : bool) (r : Z),
  IndexFuncFrom scanBoundary i s w = r → r ≠ -1 →
  ∃ (k : nat) (b : byte),
    r = i + Z.of_nat k ∧ s !! k = Some b ∧ ContainsRune (bytes "}fvct/") b = true ∧
    match k with
    | O => w = true
    | S k' => ∃ a, s !! k' = Some a ∧ isNewline a = true
    end.
Proof.
  induction s as [|c s IH]; intros i w r Hr Hne; simpl in Hr; [congruence|].
  unfold scanBoundary in Hr at 1.
  destruct (ContainsRune (bytes "}fvct/") c) eqn:Hc.
  - destruct w.
    + exists 0%nat, c. subst r. repeat split; try done. lia.
    + destruct (IH (i + 1) false r Hr Hne) as (k & b & -> & Hb & Hset & Hk).
      destruct k as [|k']; [discriminate|].
      exists (S (S k')), b. repeat split; try done. lia.
  - destruct (IH (i + 1) _ r Hr Hne) as (k & b & -> & Hb & Hset & Hk).
    exists (S k), b. repeat split; try done; [lia|].
    destruct k as [|k']; [by exists c|done].
Qed.

(** C4 (synthesized closing brace), as the code has it.  When no block with a
    valid closing brace is found, the forward scan from the statement does
    not stop at a closing brace and the backward scan over the scanned text
    finds no closing brace at the end of a line, the range ends at the
    boundary the forward scan found or, when it found none, one byte before
    the end of the file, and the tail is a closing brace. *)
Theorem findRangeToFix_synthesized (file : File) (content : list byte) (offset : Z)
  (e : Enclosing) (fp : Path) (fb : BlockStmt) (s : Node) (tail : list byte) :
  let pos := FileStart file + offset in
  let statement :=
    if negb (sameBlock (block e) (fnBody e)) then lastStmtBefore (List fb) pos s else s in
  let start := NodePos statement - FileStart file in
  let found := IndexFunc scanBoundary tail false in
  let end_ := if found =? -1 then len tail - 1 else found in
  findEnclosing file pos = Ok e →
  (∀ p b, block e = Some (p, b) → IsValid (Rbrace b) = false) →
  fnBody e = Some (fp, fb) → stmt e = Some s →
  sliceFrom content start = Ok tail → tail ≠ [] →
  index tail found ≠ Ok rbrace →
  LastIndexFunc scanCloseBrace (take (Z.to_nat end_) tail) false = -1 →
  findRangeToFix file content offset = Ok (start, start + end_, [rbrace]) ∧
  (found = -1 → start + end_ = len content - 1).
Proof.
  intros pos statement start found end_ He Hblock Hfn Hs Htail Hne Hfound Hback.
  subst start statement. rewrite Hfn in *.
  set (start := NodePos _ - FileStart file) in *.
  assert (Hlen : 0 < len tail) by (unfold len; destruct tail; [done|simpl; lia]).
  assert (Hrange : found = -1 ∨ (0 ≤ found ∧ found < len tail)).
  { destruct (IndexFuncFrom_range scanBoundary tail 0 false) as [?|?]; [by left|right].
    unfold found, IndexFunc. lia. }
  split.
  - unfold findRangeToFix. fold pos. rewrite He. simpl. rewrite Hfn. fold start.
    assert (Hv : match block e with
                 | Some (_, b) => if IsValid (Rbrace b) then Some b else None
                 | None => None
                 end = None).
    { destruct (block e) as [[p b]|] eqn:Hb; [|done]. by rewrite (Hblock p b). }
    rewrite Hv, Hs.
    match goal with
    | |- ?x ≫= ?k = _ => change (sliceFrom content start ≫= k = Ok (start, start + end_, [rbrace]))
    end.
    rewrite Htail. simpl.
    fold found.
    assert (Hhit : (if found >? -1
                    then index tail found ≫= λ b, Ok (Byte.eqb b rbrace)
                    else Ok false) = Ok false).
    { destruct Hrange as [->|[H0 H1]]; [done|].
      destruct (found >? -1) eqn:E; [|lia].
      destruct (index_Ok tail found H0 H1) as [b Hb]. rewrite Hb. simpl.
      f_equal. destruct (Byte.eqb b rbrace) eqn:Eb; [|done].
      apply Byte.byte_dec_bl in Eb. congruence. }
    rewrite Hhit. simpl.
    assert (Hend : 0 ≤ end_ ∧ end_ ≤ len tail).
    { unfold end_. destruct Hrange as [->|[H0 H1]]; simpl; [lia|].
      destruct (found =? -1) eqn:E; lia. }
    assert (Hslice : sliceTo tail end_ = Ok (take (Z.to_nat end_) tail)).
    { unfold sliceTo, slice.
      destruct (0 <=? 0) eqn:E0; [|lia]. destruct (0 <=? end_) eqn:E1; [|lia].
      destruct (end_ <=? len tail) eqn:E2; [|lia]. simpl. by rewrite Z.sub_0_r. }
    match goal with
    | |- _ ≫= ?k = ?r => change (sliceTo tail end_ ≫= k = r)
    end.
    rewrite Hslice. simpl. rewrite Hback. done.
  - intros Hf. unfold end_. rewrite Hf. simpl.
    apply sliceFrom_Ok in Htail as (H0 & H1 & ->). unfold len in *.
    rewrite length_drop. lia.
Qed.

(** C4 as stated fails: in noclosebrace.go the forward scan finds no
    boundary and the range ends at offset 45 of 46 bytes, not at the end of
    the file. *)
Lemma findRangeToFix_stops_before_eof :
  IndexFunc scanBoundary (drop 27 open_src) false = -1 ∧
  findRangeToFix open_file open_src 39 = Ok (27, 45, [rbrace]) ∧
  45 ≠ len open_src.
Proof. vm_compute. repeat split; discriminate. Qed.

(** C9 fails in the code: for a function with an empty body and a missing
    return, the error is reported at the closing brace; the locator finds the
    body, with a valid closing brace, and no statement, and the first branch
    of [findRangeToFix] reads the position of the nil statement. *)
Theorem findRangeToFix_empty_block_faults :
  (∃ e p b, findEnclosing noreturn_file 26 = Ok e ∧
            block e = Some (p, b) ∧ IsValid (Rbrace b) = true ∧ stmt e = None) ∧
  findRangeToFix noreturn_file noreturn_src 25 = Fault ∧
  @fixError demo fixer0 (Some noreturn_file) "f.go" noreturn_src 25 "missing return" = Fault.
Proof.
  split; [|split; vm_compute; reflexivity].
  eexists _, _, _. split; [vm_compute; reflexivity|]. by vm_compute.
Qed.

(** ** The ranges the tests of the repository expect *)

Example range_invalid_hex : findRangeToFix hex_file hex_src 55 = Ok (43, 60, []).
Proof. vm_compute; reflexivity. Qed.

Example range_in_an_if : findRangeToFix inif_file inif_src 67 = Ok (55, 73, []).
Proof. vm_compute; reflexivity. Qed.

Example range_unclosed_string :
  findRangeToFix unclosed_file unclosed_src 55 = Ok (43, 61, []).
Proof. vm_compute; reflexivity. Qed.

Example range_singleline : findRangeToFix single_file single_src 53 = Ok (41, 60, []).
Proof. vm_compute; reflexivity. Qed.

Example range_noclosebrace : findRangeToFix open_file open_src 39 = Ok (27, 45, [rbrace]).
Proof. vm_compute; reflexivity. Qed.

Example range_syntax_in_if : findRangeToFix synif_file synif_src 44 = Ok (29, 55, []).
Proof. vm_compute; reflexivity. Qed.

Example range_tld : findRangeToFix tld_file tld_src 13 = Ok (0, 0, []).
Proof. vm_compute; reflexivity. Qed.

(** ** The locator and the siblings of a statement *)

Section Siblings.
Variable pos : Pos.
Abbreviation pre := (findEnclosing_pre pos).
Abbreviation post := findEnclosing_post.

Lemma apply_GenDecl parent me tp t lp specs rp (e : Enclosing) :
  apply pre post parent me (GenDecl tp t lp specs rp) e =
  visit pre post (mkCursor (Some (NodeA (GenDecl tp t lp specs rp))) me parent)
    (fun s => andThen (applyNil pre post me 0 s) (applyDecls pre post me 1 specs)) e.
Proof. reflexivity. Qed.

Lemma apply_AssignStmt parent me lhs tp t rhs (e : Enclosing) :
  apply pre post parent me (AssignStmt lhs tp t rhs) e =
  visit pre post (mkCursor (Some (NodeA (AssignStmt lhs tp t rhs))) me parent)
    (fun s => andThen (applyDecls pre post me 0 lhs s)
                      (applyDecls pre post me (length lhs) rhs)) e.
Proof. reflexivity. Qed.

Lemma apply_OtherStmt parent me p q sub (e : Enclosing) :
  apply pre post parent me (OtherStmt p q sub) e =
  visit pre post (mkCursor (Some (NodeA (OtherStmt p q sub))) me parent)
    (applySub pre post me 0 sub) e.
Proof. reflexivity. Qed.

Lemma apply_OtherNode parent me p q sub (e : Enclosing) :
  apply pre post parent me (OtherNode p q sub) e =
  visit pre post (mkCursor (Some (NodeA (OtherNode p q sub))) me parent)
    (applySub pre post me 0 sub) e.
Proof. reflexivity. Qed.

Lemma applyBlock_Block parent me lb stmts rb (e : Enclosing) :
  applyBlock pre post parent me (Block lb stmts rb) e =
  visit pre post (mkCursor (Some (NodeA (BlockStmtN (Block lb stmts rb)))) me parent)
    (applyDecls pre post me 0 stmts) e.
Proof. reflexivity. Qed.

Lemma far_cons (e : Enclosing) (i : nat) (me : Path) : far e me → far e (i :: me).
Proof. unfold far. destruct (block e) as [[bp b]|]; simpl; [lia|done]. Qed.

Lemma far_samePlace (e : Enclosing) (me : Path) :
  far e me → samePlace (block e) (Some me) = false.
Proof.
  unfold far, samePlace. destruct (block e) as [[bp b]|]; [|done].
  intros Hlen. apply bool_decide_eq_false. intros ->. lia.
Qed.

Lemma far_post (e : Enclosing) (me : Path) (n : option AnyNode) (parent : option Path) :
  far e me → post (mkCursor n me parent) e = Ok (true, e).
Proof.
  unfold far, findEnclosing_post. simpl. destruct (block e) as [[bp b]|]; [|done].
  intros Hlen. destruct n; [|done]. do 2 f_equal.
  apply negb_true_iff, bool_decide_eq_false. intros ->. lia.
Qed.

Lemma applyNil_skip (me : Path) (i : nat) (e : Enclosing) :
  applyNil pre post me i e = Continue e.
Proof. reflexivity. Qed.

Lemma pre_plain (n : Node) (me : Path) (parent : option Path) (e : Enclosing) :
  plain n = true →
  pre (mkCursor (Some (NodeA n)) me parent) e =
    if NodePos n >? pos then Ok (false, e)
    else Ok (true, if isStmt n && samePlace (block e) parent then setStmt e n else e).
Proof.
  intros Hp. unfold findEnclosing_pre. simpl cNode. cbv beta iota.
  change (AnyPos (NodeA n)) with (NodePos n).
  destruct (NodePos n >? pos); [done|].
  destruct n; try discriminate Hp; try reflexivity;
    simpl; by destruct (samePlace _ _).
Qed.

Lemma visit_plain (n : Node) (me : Path) (parent : option Path)
  (children : Enclosing → Walk Enclosing) (e : Enclosing) :
  plain n = true → far e me →
  (∀ e', far e' me → children e' = Continue e') →
  visit pre post (mkCursor (Some (NodeA n)) me parent) children e =
    Continue (if (NodePos n <=? pos) && isStmt n && samePlace (block e) parent
              then setStmt e n else e).
Proof.
  intros Hp Hfar Hkids. unfold visit. rewrite (pre_plain n me parent e Hp).
  destruct (NodePos n >? pos) eqn:Hpos.
  - replace (NodePos n <=? pos) with false by lia. done.
  - replace (NodePos n <=? pos) with true by lia. rewrite andb_true_l.
    set (e1 := if isStmt n && samePlace (block e) parent then setStmt e n else e).
    assert (Hfar1 : far e1 me) by (unfold e1; by destruct (_ && _)).
    cbv beta iota. rewrite (Hkids e1 Hfar1). unfold andThen. by rewrite far_post.
Qed.

Lemma applyLeaf_far (n : Node) (me : Path) (i : nat) (e : Enclosing) :
  plain n = true → far e me → applyLeaf pre post me i n e = Continue e.
Proof.
  intros Hp Hfar. unfold applyLeaf.
  rewrite visit_plain; [|done|by apply far_cons|done].
  by rewrite (far_samePlace e me Hfar), andb_false_r.
Qed.

Lemma applyDecls_quiet (l : list Node) :
  Forall (QuietWalk pos) l → forallb (quiet pos) l = true →
  ∀ me i e, far e me → applyDecls pre post me i l e = Continue e.
Proof.
  induction 1 as [|x l Hx _ IH]; intros Hq me i e Hfar; [done|].
  simpl in Hq. apply andb_true_iff in Hq as [Hqx Hql].
  change (applyDecls pre post me i (x :: l) e) with
    (andThen (apply pre post (Some me) (i :: me) x e) (applyDecls pre post me (S i) l)).
  rewrite (Hx Hqx (Some me) (i :: me) e (far_cons e i me Hfar)).
  rewrite (far_samePlace e me Hfar), andb_false_r. simpl. by apply IH.
Qed.

Lemma applySub_quiet (l : list (option Node)) :
  Forall (fun o => match o with Some x => QuietWalk pos x | None => True end) l →
  forallb (fun o => match o with Some x => quiet pos x | None => true end) l = true →
  ∀ me i e, far e me → applySub pre post me i l e = Continue e.
Proof.
  induction 1 as [|o l Ho _ IH]; intros Hq me i e Hfar; [done|].
  simpl in Hq. apply andb_true_iff in Hq as [Hqx Hql].
  destruct o as [x|].
  - change (applySub pre post me i (Some x :: l) e) with
      (andThen (apply pre post (Some me) (i :: me) x e) (applySub pre post me (S i) l)).
    rewrite (Ho Hqx (Some me) (i :: me) e (far_cons e i me Hfar)).
    rewrite (far_samePlace e me Hfar), andb_false_r. simpl. by apply IH.
  - change (applySub pre post me i (None :: l) e) with
      (andThen (applyNil pre post me i e) (applySub pre post me (S i) l)).
    rewrite applyNil_skip. simpl. by apply IH.
Qed.

Lemma applyBlock_quiet (lb : Pos) (stmts : list Node) (rb : Pos) :
  Forall (QuietWalk pos) stmts → QuietBlockWalk pos (Block lb stmts rb).
Proof.
  intros Hall Hq parent me e Hfar. simpl in Hq.
  apply andb_true_iff in Hq as [[Hv Hend]%andb_true_iff Hq].
  rewrite applyBlock_Block. unfold visit, findEnclosing_pre. simpl cNode.
  cbv beta iota. change (AnyPos (NodeA (BlockStmtN (Block lb stmts rb)))) with lb.
  destruct (lb >? pos); [done|].
  assert (HE : BlockEnd (Block lb stmts rb) = rb + 1) by (simpl; by rewrite Hv).
  rewrite HE. simpl Rbrace. rewrite Hv.
  replace (rb + 1 >=? pos) with false by lia. cbv beta iota. simpl orb. cbv iota.
  rewrite applyDecls_quiet; [|done..]. unfold andThen. by rewrite far_post.
Qed.

Lemma quiet_walk : (∀ n, QuietWalk pos n) ∧ (∀ b, QuietBlockWalk pos b).
Proof.
  assert (HN : ∀ n, QuietWalk pos n); [|split; [exact HN|]].
  2:{ intros [lb stmts rb]. apply applyBlock_quiet. apply Forall_forall. intros; apply HN. }
  apply (Node_induction (QuietWalk pos) (QuietBlockWalk pos)).
  - intros i _ parent me e Hfar.
    change (apply pre post parent me (IdentN i) e) with
      (visit pre post (mkCursor (Some (NodeA (IdentN i))) me parent) Continue e).
    by apply visit_plain.
  - intros l _ parent me e Hfar.
    change (apply pre post parent me (BasicLitN l) e) with
      (visit pre post (mkCursor (Some (NodeA (BasicLitN l))) me parent) Continue e).
    by apply visit_plain.
  - intros name path endPos _ parent me e Hfar.
    change (apply pre post parent me (ImportSpec name path endPos) e) with
      (visit pre post (mkCursor (Some (NodeA (ImportSpec name path endPos))) me parent)
         (fun s =>
            andThen (applyNil pre post me 0 s) (fun s =>
            andThen (applyIdent pre post me 1 name s) (fun s =>
            andThen (applyLeaf pre post me 2 (BasicLitN path) s) (fun s =>
            applyNil pre post me 3 s)))) e).
    apply visit_plain; [done..|]. intros e' Hfar'. rewrite applyNil_skip. simpl.
    assert (Hname : applyIdent pre post me 1 name e' = Continue e').
    { destruct name; simpl; [by apply applyLeaf_far|done]. }
    rewrite Hname. simpl. rewrite applyLeaf_far; done.
  - intros tp t lp specs rp Hall Hq parent me e Hfar. rewrite apply_GenDecl.
    apply visit_plain; [done..|]. intros e' Hfar'. rewrite applyNil_skip. simpl.
    by apply applyDecls_quiet.
  - intros recv name type body Hq. discriminate Hq.
  - intros b Hb Hq parent me e Hfar.
    change (apply pre post parent me (BlockStmtN b) e) with
      (applyBlock pre post parent me b e).
    rewrite (Hb Hq parent me e Hfar).
    by rewrite andb_false_r.
  - intros lhs tp t rhs Hl Hr Hq parent me e Hfar. rewrite apply_AssignStmt.
    simpl in Hq. apply andb_true_iff in Hq as [Hql Hqr].
    apply visit_plain; [done..|]. intros e' Hfar'.
    rewrite applyDecls_quiet; [|done..]. simpl. by apply applyDecls_quiet.
  - intros p q sub Hall Hq parent me e Hfar. rewrite apply_OtherStmt.
    apply visit_plain; [done..|]. intros e' Hfar'. by apply applySub_quiet.
  - intros p q sub Hall Hq parent me e Hfar. rewrite apply_OtherNode.
    apply visit_plain; [done..|]. intros e' Hfar'. by apply applySub_quiet.
  - intros lb stmts rb Hall. by apply applyBlock_quiet.
Qed.


Lemma andThen_Continue (w : Walk Enclosing) (k : Enclosing → Walk Enclosing)
  (e : Enclosing) :
  w = Continue e → andThen w k = k e.
Proof. by intros ->. Qed.

Lemma pre_skip (a : AnyNode) (me : Path) (parent : option Path) (e : Enclosing) :
  pos < AnyPos a → pre (mkCursor (Some a) me parent) e = Ok (false, e).
Proof.
  intros Hp. unfold findEnclosing_pre. simpl cNode. cbv beta iota.
  by replace (AnyPos a >? pos) with true by lia.
Qed.

Lemma visit_skip (a : AnyNode) (me : Path) (parent : option Path)
  (children : Enclosing → Walk Enclosing) (e : Enclosing) :
  pos < AnyPos a →
  visit pre post (mkCursor (Some a) me parent) children e = Continue e.
Proof. intros Hp. unfold visit. by rewrite pre_skip. Qed.

Lemma apply_skip (n : Node) (me : Path) (parent : option Path) (e : Enclosing) :
  pos < NodePos n → apply pre post parent me n e = Continue e.
Proof.
  intros Hp. destruct n as [| | | | |[lb stmts rb]| | |];
    try (rewrite applyBlock_Block || rewrite apply_GenDecl || rewrite apply_AssignStmt
         || rewrite apply_OtherStmt || rewrite apply_OtherNode);
    by apply visit_skip.
Qed.

Lemma applyDecls_skip (l : list Node) : ∀ (me : Path) (i : nat) (e : Enclosing),
  Forall (fun n => pos < NodePos n) l → applyDecls pre post me i l e = Continue e.
Proof.
  induction l as [|x l IH]; intros me i e Hall; [done|].
  apply Forall_cons in Hall as [Hx Hl].
  change (applyDecls pre post me i (x :: l) e) with
    (andThen (apply pre post (Some me) (i :: me) x e) (applyDecls pre post me (S i) l)).
  rewrite apply_skip; [|done]. simpl. by apply IH.
Qed.

(** The walk over the statements of the block found: the statements before
    [s] leave the block alone, [s] becomes the statement, the statements
    after [pos] are skipped. *)
Lemma siblings_walk (bp : Path) (b : BlockStmt) (before : list Node) (s : Node)
  (after : list Node) : ∀ (i : nat) (e : Enclosing),
  block e = Some (bp, b) →
  forallb (quiet pos) before = true →
  isStmt s = true → NodePos s ≤ pos → quiet pos s = true →
  Forall (fun n => pos < NodePos n) after →
  applyDecls pre post bp i (before ++ s :: after) e = Continue (setStmt e s).
Proof.
  destruct quiet_walk as [HN _].
  induction before as [|x before IH]; intros i e Hb Hq Hs Hpos Hqs Hafter.
  - change (applyDecls pre post bp i ([] ++ s :: after) e) with
      (andThen (apply pre post (Some bp) (i :: bp) s e)
               (applyDecls pre post bp (S i) after)).
    rewrite (HN s Hqs); [|unfold far; rewrite Hb; simpl; lia].
    replace (NodePos s <=? pos) with true by lia. rewrite Hs.
    unfold samePlace at 1. rewrite Hb. rewrite bool_decide_eq_true_2; [|done].
    simpl. by apply applyDecls_skip.
  - simpl in Hq. apply andb_true_iff in Hq as [Hqx Hq].
    change (applyDecls pre post bp i ((x :: before) ++ s :: after) e) with
      (andThen (apply pre post (Some bp) (i :: bp) x e)
               (applyDecls pre post bp (S i) (before ++ s :: after))).
    rewrite (HN x Hqx); [|unfold far; rewrite Hb; simpl; lia].
    set (e1 := if (_ : bool) then setStmt e x else e).
    assert (Hb1 : block e1 = Some (bp, b)) by (unfold e1; by destruct (_ && _)).
    assert (Hf1 : fnBody e1 = fnBody e) by (unfold e1; by destruct (_ && _)).
    simpl. rewrite (IH (S i) e1 Hb1 Hq Hs Hpos Hqs Hafter).
    unfold setStmt. by rewrite Hb1, Hf1, Hb.
Qed.

(** The statement and the block located do not depend on the statements
    that come before the statement in the block. *)
Lemma findEnclosing_siblings (fs pk : Pos) (nm fname : Ident) (ftype : Node)
  (lb rb : Pos) (before after : list Node) (s : Node) :
  let body := Block lb (before ++ s :: after) rb in
  let file := mkFile fs pk nm [FuncDecl None fname ftype (Some body)] in
  pk ≤ pos → NodePos ftype ≤ pos → quiet pos ftype = true →
  lb ≤ pos → IsValid rb = true → pos ≤ rb + 1 →
  forallb (quiet pos) before = true →
  isStmt s = true → NodePos s ≤ pos → quiet pos s = true →
  Forall (fun n => pos < NodePos n) after →
  findEnclosing file pos =
    Ok (mkEnclosing (Some s) (Some ([4; 2]%nat, body)) (Some ([4; 2]%nat, body))).
Proof.
  intros body file Hpk Hty Hqty Hlb Hv Hrb Hq Hs Hpos Hqs Hafter.
  destruct quiet_walk as [HN _].
  set (e0 := mkEnclosing None None None).
  set (e1 := mkEnclosing None None (Some ([4; 2]%nat, body))).
  set (e2 := mkEnclosing None (Some ([4; 2]%nat, body)) (Some ([4; 2]%nat, body))).
  assert (HEnd : BlockEnd body = rb + 1) by (unfold body; simpl; by rewrite Hv).
  assert (Hbody : applyBlock pre post (Some [2%nat]) [4%nat; 2%nat] body e1 =
                  Aborted (setStmt e2 s)).
  { unfold body at 1. rewrite applyBlock_Block. fold body. unfold visit.
    unfold findEnclosing_pre at 1. simpl cNode. cbv beta iota.
    change (AnyPos (NodeA (BlockStmtN body))) with lb.
    replace (lb >? pos) with false by lia. rewrite HEnd.
    replace (rb + 1 >=? pos) with true by lia. cbv beta iota. simpl orb. cbv iota.
    change (setBlock e1 (cPath (mkCursor (Some (NodeA (BlockStmtN body)))
                                  [4%nat; 2%nat] (Some [2%nat])), body)) with e2.
    by rewrite (siblings_walk [4%nat; 2%nat] body before s after 0 e2). }
  assert (Hfunc : apply pre post (Some []) [2%nat]
                    (FuncDecl None fname ftype (Some body)) e0 =
                  Aborted (setStmt e2 s)).
  { change (apply pre post (Some []) [2%nat] (FuncDecl None fname ftype (Some body)) e0)
      with (visit pre post
              (mkCursor (Some (NodeA (FuncDecl None fname ftype (Some body))))
                        [2%nat] (Some []))
              (fun s0 =>
                 andThen (applyNil pre post [2%nat] 0 s0) (fun s0 =>
                 andThen (applyNil pre post [2%nat] 1 s0) (fun s0 =>
                 andThen (applyLeaf pre post [2%nat] 2 (IdentN fname) s0) (fun s0 =>
                 andThen (apply pre post (Some [2%nat]) [3%nat; 2%nat] ftype s0) (fun s0 =>
                 applyBlock pre post (Some [2%nat]) [4%nat; 2%nat] body s0))))) e0).
    unfold visit. unfold findEnclosing_pre at 1. simpl cNode. cbv beta iota.
    change (AnyPos (NodeA (FuncDecl None fname ftype (Some body)))) with (NodePos ftype).
    replace (NodePos ftype >? pos) with false by lia.
    change (NodeEnd (FuncDecl None fname ftype (Some body))) with (BlockEnd body).
    rewrite HEnd. replace (rb + 1 >=? pos) with true by lia. cbv beta iota.
    change (setFnBody e0 _) with e1.
    rewrite (andThen_Continue _ _ e1 (applyNil_skip _ _ e1)).
    rewrite (andThen_Continue _ _ e1 (applyNil_skip _ _ e1)).
    rewrite (andThen_Continue _ _ e1 (applyLeaf_far (IdentN fname) _ _ e1 eq_refl I)).
    rewrite (andThen_Continue (apply pre post (Some [2%nat]) [3%nat; 2%nat] ftype e1) _ e1);
      [cbv beta; by rewrite Hbody|].
    rewrite (HN ftype Hqty); [|done].
    change (samePlace (block e1) (Some [2%nat])) with false. by rewrite andb_false_r. }
  unfold findEnclosing, Apply, file. simpl Decls. simpl FileName.
  unfold visit. unfold findEnclosing_pre at 1. simpl cNode. cbv beta iota.
  change (AnyPos (FileA _)) with pk. replace (pk >? pos) with false by lia.
  cbv beta iota. fold e0.
  rewrite (andThen_Continue _ _ e0 (applyNil_skip _ _ e0)).
  rewrite (andThen_Continue _ _ e0 (applyLeaf_far (IdentN nm) _ _ e0 eq_refl I)).
  change (applyDecls pre post [] 2 [FuncDecl None fname ftype (Some body)] e0) with
    (andThen (apply pre post (Some []) [2%nat] (FuncDecl None fname ftype (Some body)) e0)
             (applyDecls pre post [] 3 [])).
  rewrite Hfunc. reflexivity.
Qed.

End Siblings.

(** Range determinism over the siblings: whatever quiet statements come
    before the statement, the range runs from the statement to the closing
    brace of the block. *)
Lemma findRangeToFix_siblings (content : list byte) (offset : Z) (fs pk : Pos)
  (nm fname : Ident) (ftype : Node) (lb rb : Pos) (before after : list Node) (s : Node) :
  let pos := fs + offset in
  let file := mkFile fs pk nm
                [FuncDecl None fname ftype (Some (Block lb (before ++ s :: after) rb))] in
  pk ≤ pos → NodePos ftype ≤ pos → quiet pos ftype = true →
  lb ≤ pos → IsValid rb = true → pos ≤ rb + 1 →
  forallb (quiet pos) before = true →
  isStmt s = true → NodePos s ≤ pos → quiet pos s = true →
  Forall (fun n => pos < NodePos n) after →
  findRangeToFix file content offset = Ok (NodePos s - fs, rb - fs, []).
Proof.
  intros pos file Hpk Hty Hqty Hlb Hv Hrb Hq Hs Hpos Hqs Hafter.
  unfold findRangeToFix. change (FileStart file) with fs. fold pos.
  unfold file.
  rewrite (findEnclosing_siblings pos fs pk nm fname ftype lb rb before after s); try done.
  simpl. rewrite Hv. simpl. rewrite Hv. do 3 f_equal. lia.
Qed.

(** Range determinism where a statement is located.  When the locator finds
    a statement and a block whose closing brace is valid, the range to fix
    runs from the start of that statement to the closing brace of the block,
    which stays outside the range, and the tail is empty.  The statements that come before the
    statement play no part: in a function body [before ++ s :: after] with a
    valid closing brace the range is that of [s] for every list [before] of
    statements whose own blocks are closed before the position. *)
Theorem findRangeToFix_range_determinism :
  (∀ (file : File) (content : list byte) (offset : Z) (e : Enclosing) (p : Path)
     (b : BlockStmt) (statement : Node),
     findEnclosing file (FileStart file + offset) = Ok e →
     block e = Some (p, b) → IsValid (Rbrace b) = true → stmt e = Some statement →
     findRangeToFix file content offset =
       Ok (NodePos statement - FileStart file, Rbrace b - FileStart file, [])) ∧
  (∀ (content : list byte) (offset : Z) (fs pk : Pos) (nm fname : Ident) (ftype : Node)
     (lb rb : Pos) (before after : list Node) (s : Node),
     let pos := fs + offset in
     let file := mkFile fs pk nm
                   [FuncDecl None fname ftype (Some (Block lb (before ++ s :: after) rb))] in
     pk ≤ pos → NodePos ftype ≤ pos → quiet pos ftype = true →
     lb ≤ pos → IsValid rb = true → pos ≤ rb + 1 →
     forallb (quiet pos) before = true →
     isStmt s = true → NodePos s ≤ pos → quiet pos s = true →
     Forall (fun n => pos < NodePos n) after →
     findRangeToFix file content offset = Ok (NodePos s - fs, rb - fs, [])).
Proof.
  split; [exact findRangeToFix_block|exact findRangeToFix_siblings].
Qed.

(** C2 fails in the code: in [func f() int {}] with the error at the closing
    brace, the block that the locator finds has a valid closing brace, and
    [findRangeToFix] gives no range at all, neither the one that ends at
    that brace nor another: no statement is located, and the first branch
    reads the position of the nil statement without the test for nil that
    the second branch makes. *)
Theorem findRangeToFix_valid_block_no_range :
  ∃ e p b,
    findEnclosing noreturn_file (FileStart noreturn_file + 25) = Ok e ∧
    block e = Some (p, b) ∧ IsValid (Rbrace b) = true ∧
    25 ≤ Rbrace b - FileStart noreturn_file ∧
    ∀ range, findRangeToFix noreturn_file noreturn_src 25 ≠ Ok range.
Proof.
  eexists _, _, _. split; [vm_compute; reflexivity|].
  split; [reflexivity|]. split; [reflexivity|]. split; [vm_compute; discriminate|].
  intros range. vm_compute. discriminate.
Qed.

(** ** The loops of the fixer *)

Section FixerLoops.
Context `{Toolchain}.












Lemma countFixes_app (a b : list Event) :
  countFixes (a ++ b) = (countFixes a + countFixes b)%nat.
Proof. unfold countFixes. by rewrite List.filter_app, length_app. Qed.







(** ** Sources without errors *)

Lemma parseFile_valid (f : Fixer) (filename : string) (content : list byte) :
  (ParseFile filename content).2 = NoErr →
  parseFile f filename content =
    Ok ((ParseFile filename content).1, NoErr, record f (EvParse filename content)).
Proof.
  intros Hp. unfold parseFile. simpl.
  destruct (ParseFile filename content) as [file err]. simpl in Hp. by subst err.
Qed.

Lemma parseFiles_valid (files : list string) : ∀ (f : Fixer),
  (∀ filename src, filename ∈ files → readFile f filename = Some src →
                   (ParseFile filename src).2 = NoErr) →
  ∃ f', parseFiles f files = Ok (trees (Fixed f) files, f') ∧
        Fixed f' = Fixed f ∧ mode f' = mode f ∧
        ∃ evs, trace f' = trace f ++ evs ∧ Forall (λ ev, isParse ev = true) evs.
Proof.
  induction files as [|filename files IH]; intros f Hok; simpl.
  - exists f. repeat split; try done. exists []. by rewrite app_nil_r.
  - unfold readFile in *.
    assert (Hrest : ∀ g, Fixed g = Fixed f →
              ∀ filename0 src, filename0 ∈ files →
                match Fixed g !! filename0 with
                | Some ret => Some ret
                | None => ReadFile filename0
                end = Some src → (ParseFile filename0 src).2 = NoErr).
    { intros g Hg filename0 src Hin. rewrite Hg. apply Hok. by right. }
    destruct (Fixed f !! filename) as [src|] eqn:Hov;
      [|destruct (ReadFile filename) as [src|] eqn:Hrd].
    + rewrite parseFile_valid; [|apply Hok; [by left|by rewrite Hov]]. simpl.
      destruct (IH (record f (EvParse filename src)) (Hrest _ eq_refl))
        as (f' & Hp & HF & Hm & evs & Ht & Hall).
      rewrite Hp. simpl. exists f'. repeat split; try done.
      exists (EvParse filename src :: evs). simpl in Ht.
      split; [by rewrite Ht, <- app_assoc|]. by constructor.
    + rewrite parseFile_valid; [|apply Hok; [by left|by rewrite Hov]]. simpl.
      destruct (IH (record f (EvParse filename src)) (Hrest _ eq_refl))
        as (f' & Hp & HF & Hm & evs & Ht & Hall).
      rewrite Hp. simpl. exists f'. repeat split; try done.
      exists (EvParse filename src :: evs). simpl in Ht.
      split; [by rewrite Ht, <- app_assoc|]. by constructor.
    + apply IH. by apply Hrest.
Qed.

Lemma loadPackages_valid (pkgs : list (list string)) : ∀ (f : Fixer),
  (∀ files filename src, files ∈ pkgs → filename ∈ files →
     readFile f filename = Some src → (ParseFile filename src).2 = NoErr) →
  (∀ files, files ∈ pkgs → typeCheck (trees (Fixed f) files) = []) →
  ∃ loaded f', loadPackages f pkgs = Ok (loaded, f') ∧
        Forall (λ pkg, TypeErrors pkg = []) loaded ∧
        Fixed f' = Fixed f ∧ mode f' = mode f ∧
        ∃ evs, trace f' = trace f ++ evs ∧ Forall (λ ev, isParse ev = true) evs.
Proof.
  induction pkgs as [|files pkgs IH]; intros f Hok Htc; simpl.
  - exists [], f. repeat split; try done. exists []. by rewrite app_nil_r.
  - destruct (parseFiles_valid files f) as (f1 & Hp & HF1 & Hm1 & evs1 & Ht1 & Hall1).
    { intros filename src Hin. apply (Hok files); [by left|done]. }
    rewrite Hp. simpl.
    destruct (IH f1) as (loaded & f2 & Hl & Hnone & HF2 & Hm2 & evs2 & Ht2 & Hall2).
    { intros files0 filename src Hin Hin'. unfold readFile. rewrite HF1.
      apply (Hok files0); [by right|done]. }
    { intros files0 Hin. rewrite HF1. apply Htc. by right. }
    rewrite Hl. simpl. eexists _, f2. split; [done|].
    split; [constructor; [simpl; apply Htc; by left|done]|].
    split; [congruence|]. split; [congruence|].
    exists (evs1 ++ evs2). split; [by rewrite Ht2, Ht1, app_assoc|]. by apply Forall_app.
Qed.

Lemma fixPkgs_no_errors (pkgs : list LoadedPackage) (f : Fixer) :
  Forall (λ pkg, TypeErrors pkg = []) pkgs →
  fixPkgs f pkgs false = Ok (false, None, f).
Proof.
  induction 1 as [|pkg pkgs Hp _ IH]; simpl; [done|].
  unfold fixPkg. rewrite Hp. simpl. exact IH.
Qed.

(** C7 (idempotence on valid sources).  When every file of the packages
    parses without error and the type checker reports nothing, [Fix] returns
    without error after one load, the overlay is what it was, and nothing
    but the load and the parse attempts happened. *)
Theorem Fix_valid_source (f : Fixer) (pkgNames : list string) (pkgs : list (list string)) :
  goList (mode f) pkgNames (Fixed f) = Some pkgs →
  (∀ files filename src, files ∈ pkgs → filename ∈ files →
     readFile f filename = Some src → (ParseFile filename src).2 = NoErr) →
  (∀ files, files ∈ pkgs → typeCheck (trees (Fixed f) files) = []) →
  ∃ f', Fix f pkgNames = Ok (None, f') ∧
        Fixed f' = Fixed f ∧
        ∃ parses, trace f' = trace f ++ EvLoad pkgNames :: parses ∧
                  Forall (λ ev, isParse ev = true) parses.
Proof.
  intros Hlist Hok Htc.
  destruct (loadPackages_valid pkgs (record f (EvLoad pkgNames)))
    as (loaded & f1 & Hl & Hnone & HF & Hm & evs & Ht & Hall); [done..|].
  exists f1. split; [|split; [done|]].
  - unfold Fix. simpl. unfold Load. simpl. rewrite Hlist, Hl. simpl.
    by rewrite (fixPkgs_no_errors loaded f1 Hnone).
  - exists evs. simpl in Ht. by rewrite Ht, <- app_assoc.
Qed.

End FixerLoops.


(** ** The build loop *)

Section BuildLoop.
Context `{Toolchain}.

Lemma markPackages_None (toFix : list string) : ∀ (i : Z) (attempted : gset string)
  (clidx : Z) (pkg : string),
  pkg ∈ toFix → pkg ∈ attempted → markPackages toFix i attempted clidx = None.
Proof.
  induction toFix as [|p toFix IH]; intros i attempted clidx pkg Hin Hatt; simpl.
  - by apply elem_of_nil in Hin.
  - destruct (bool_decide (p ∈ attempted)) eqn:Hp; [done|].
    apply bool_decide_eq_false in Hp.
    apply elem_of_cons in Hin as [->|Hin]; [done|].
    apply (IH _ _ _ pkg); [done|]. set_solver.
Qed.

Lemma markPackages_Some (toFix : list string) : ∀ (i : Z) (attempted : gset string)
  (clidx : Z) (attempted' : gset string) (clidx' : Z),
  markPackages toFix i attempted clidx = Some (attempted', clidx') →
  attempted' = list_to_set toFix ∪ attempted ∧
  (toFix ≠ [] → (size attempted < size attempted')%nat).
Proof.
  induction toFix as [|p toFix IH]; intros i attempted clidx attempted' clidx' Hm;
    simpl in Hm.
  - injection Hm as <- <-. split; [set_solver|done].
  - destruct (bool_decide (p ∈ attempted)) eqn:Hp; [discriminate|].
    apply bool_decide_eq_false in Hp.
    apply IH in Hm as [-> Hsize]. split; [set_solver|]. intros _.
    assert (Hone : size ({[p]} ∪ attempted) = S (size attempted)).
    { rewrite size_union; [|set_solver]. by rewrite size_singleton. }
    assert (Hle : (size ({[p]} ∪ attempted) ≤
                   size (list_to_set toFix ∪ ({[p]} ∪ attempted)))%nat).
    { apply subseteq_size. set_solver. }
    lia.
Qed.

Lemma getBrokenPackages_failed (r : Runner) (toFix : list string) (r' : Runner) (pkg : string) :
  getBrokenPackages r = (toFix, None, r') → pkg ∈ toFix →
  built r' = built r ∧ fixed r' = fixed r ∧ rmode r' = rmode r ∧
  buildArgs r' = buildArgs r ∧ runArgs r' = runArgs r ∧
  ∃ n mode args overlay out,
    goBuild n mode args overlay = BuildFailed out ∧ toFix = brokenPackages out.
Proof.
  unfold getBrokenPackages. intros Hg Hin.
  destruct (bool_decide (fixed r = ∅)) eqn:Hempty.
  - rewrite Hempty in Hg.
    destruct (goBuild _ _ _ _) as [| |out] eqn:Hb; try discriminate.
    + injection Hg as <- <-. by apply elem_of_nil in Hin.
    + injection Hg as <- <-. repeat split; try done. by eexists _, _, _, _, out.
  - simpl in Hg. rewrite Hempty in Hg.
    destruct (goBuild _ _ _ _) as [| |out] eqn:Hb; try discriminate.
    + injection Hg as <- <-. by apply elem_of_nil in Hin.
    + injection Hg as <- <-. repeat split; try done. by eexists _, _, _, _, out.
Qed.

Lemma runFix_built (r : Runner) (fixer : Fixer) (pkgNames : list string)
  (err : option error) (r' : Runner) (fixer' : Fixer) :
  runFix r fixer pkgNames = Ok (err, r', fixer') → built r' = built r.
Proof.
  unfold runFix, mbind, Result_bind. intros Hr.
  destruct (Fix _ _) as [[e f1]|]; [|discriminate]. by injection Hr as <- <- <-.
Qed.

Lemma Prepare_round_Again (r : Runner) (fixer : Fixer) (attempted : gset string)
  (r' : Runner) (fixer' : Fixer) (attempted' : gset string) :
  Prepare_round r fixer attempted = Again r' fixer' attempted' →
  ∃ toFix r1 clidx,
    getBrokenPackages r = (toFix, None, r1) ∧ toFix ≠ [] ∧
    markPackages toFix 0 attempted (-1) = Some (attempted', clidx) ∧
    built r' = built r1.
Proof.
  unfold Prepare_round. intros Hr.
  destruct (getBrokenPackages r) as [[toFix err] r1] eqn:Hg.
  destruct err as [e|]; [discriminate|].
  destruct toFix as [|p toFix]; [discriminate|].
  destruct (markPackages (p :: toFix) 0 attempted (-1)) as [[att cl]|] eqn:Hm;
    [|discriminate].
  exists (p :: toFix), r1, cl.
  destruct (cl >? -1).
  - unfold mbind, Result_bind in Hr.
    destruct (runFix r1 fixer (buildArgs r1)) as [[[e1 r2] fx2]|] eqn:H1; [|discriminate].
    destruct e1; [discriminate|].
    destruct (runFix r2 fx2 _) as [[[e3 r3] fx3]|] eqn:H3; [|discriminate].
    destruct e3; [discriminate|]. injection Hr as <- <- <-.
    apply runFix_built in H1, H3. repeat split; try done. congruence.
  - destruct (runFix r1 fixer _) as [[[e3 r3] fx3]|] eqn:H3; [|discriminate].
    destruct e3; [discriminate|]. injection Hr as <- <- <-.
    apply runFix_built in H3. repeat split; try done.
Qed.

Lemma Prepare_loop_terminates (U : gset string) :
  (∀ n mode args overlay out, goBuild n mode args overlay = BuildFailed out →
     ∀ pkg, pkg ∈ brokenPackages out → pkg ∈ U) →
  ∀ (fuel : nat) (r : Runner) (fixer : Fixer) (attempted : gset string),
    attempted ⊆ U → (size U - size attempted < fuel)%nat →
    ∃ res, Prepare_loop fuel r fixer attempted = Some res.
Proof.
  intros HU. induction fuel as [|fuel IH]; intros r fixer attempted Hsub Hfuel; [lia|].
  simpl. destruct (Prepare_round r fixer attempted) as [res|r' fixer' attempted'] eqn:Hround;
    [by exists res|].
  apply Prepare_round_Again in Hround as (toFix & r1 & cl & Hg & Hne & Hm & _).
  apply markPackages_Some in Hm as [-> Hsize]. specialize (Hsize Hne).
  assert (Hin : list_to_set toFix ∪ attempted ⊆ U).
  { destruct toFix as [|p toFix]; [done|].
    destruct (getBrokenPackages_failed r (p :: toFix) r1 p Hg ltac:(by left))
      as (_ & _ & _ & _ & _ & n & m & a & o & out & Hb & Hout).
    intros pkg [Hp|Hp]%elem_of_union; [|by apply Hsub].
    apply elem_of_list_to_set in Hp. rewrite Hout in Hp. by eapply HU. }
  apply IH; [done|]. apply subseteq_size in Hin. lia.
Qed.

(** C8 (the build loop gives up and terminates).  When a build reports a
    package that is already marked, the round returns without error and
    without a fix; [built] stays as it was, false since [New], so that [Run]
    executes the plain [go] command.  A round that goes on leaves [built]
    alone and marks at least one package more.  So when the packages the
    builds report are drawn from a finite set, [Prepare] returns within one
    round more than the size of the set. *)
Theorem Prepare_gives_up_and_terminates :
  (∀ r fixer attempted toFix r' pkg,
     getBrokenPackages r = (toFix, None, r') → pkg ∈ toFix → pkg ∈ attempted →
     Prepare_round r fixer attempted = Return (Ok (None, r')) ∧
     built r' = built r ∧ fixed r' = fixed r ∧
     (built r = false → Run r' = inl ("go" :: rmode r :: buildArgs r ++ runArgs r))) ∧
  (∀ r fixer attempted r' fixer' attempted',
     Prepare_round r fixer attempted = Again r' fixer' attempted' →
     built r' = built r ∧ attempted ⊆ attempted' ∧
     (size attempted < size attempted')%nat) ∧
  (∀ mode verbose args r, New mode verbose args = Ok r → built r = false) ∧
  (∀ U : gset string,
     (∀ n mode args overlay out, goBuild n mode args overlay = BuildFailed out →
        ∀ pkg, pkg ∈ brokenPackages out → pkg ∈ U) →
     ∀ r fuel, (size U < fuel)%nat → ∃ res, Prepare fuel r = Some res).
Proof.
  split; [|split; [|split]].
  - intros r fixer attempted toFix r' pkg Hg Hin Hatt.
    destruct (getBrokenPackages_failed r toFix r' pkg Hg Hin)
      as (Hb & Hf & Hm & Hba & Hra & _).
    repeat split; try done.
    + unfold Prepare_round. rewrite Hg.
      destruct toFix as [|p toFix]; [by apply elem_of_nil in Hin|].
      by rewrite (markPackages_None (p :: toFix) 0 attempted (-1) pkg).
    + intros Hbuilt. unfold Run. rewrite Hb, Hbuilt. simpl. by rewrite Hm, Hba, Hra.
  - intros r fixer attempted r' fixer' attempted' Hround.
    apply Prepare_round_Again in Hround as (toFix & r1 & cl & Hg & Hne & Hm & Hb).
    apply markPackages_Some in Hm as [-> Hsize].
    destruct toFix as [|p toFix]; [done|].
    destruct (getBrokenPackages_failed r (p :: toFix) r1 p Hg ltac:(by left)) as (Hb1 & _).
    split; [congruence|]. split; [set_solver|]. by apply Hsize.
  - intros mode verbose args r. unfold New.
    destruct (String.eqb mode "run"); [|by intros [= <-]].
    destruct args as [|a rest]; [done|].
    destruct (if HasSuffix a ".go" then _ else _) as [b rn]. by intros [= <-].
  - intros U HU r fuel Hfuel. unfold Prepare.
    apply (Prepare_loop_terminates U HU); [set_solver|lia].
Qed.

End BuildLoop.

(** ** The properties at concrete sources *)

Lemma fixError_atomic_witness :
  @fixError demo fixer0 (Some two_file) "a.go" two_src 21 "undefined: x"
    = Ok (true, setFixed fixer0 {["a.go" := two_src1]}) ∧
  (true = false → Fixed (setFixed fixer0 {["a.go" := two_src1]}) = Fixed fixer0) ∧
  (true = true →
   ∃ v, Fixed (setFixed fixer0 {["a.go" := two_src1]}) = <["a.go" := v]> (Fixed fixer0) ∧
        ∀ other, other ≠ "a.go" →
          Fixed (setFixed fixer0 {["a.go" := two_src1]}) !! other = Fixed fixer0 !! other).
Proof.
  split; [vm_compute; reflexivity|].
  apply (@fixError_atomic demo fixer0 (Some two_file) "a.go" two_src 21 "undefined: x").
  vm_compute; reflexivity.
Defined.

Lemma fixError_newlines_witness :
  @fixError demo fixer0 (Some hex_file) "hex.go" hex_src 55 hex_msg
    = Ok (true, setFixed fixer0 {["hex.go" := hex_fixed_src]}) ∧
  ∃ file' start end_ tail kept before after rest,
    Some hex_file = Some file' ∧
    findRangeToFix file' hex_src 55 = Ok (start, end_, tail) ∧
    hex_src = kept ++ before ++ after ++ rest ∧
    len kept = start ∧ len before = 55 - start ∧ len after = end_ - 55 ∧
    Fixed (setFixed fixer0 {["hex.go" := hex_fixed_src]}) !! "hex.go" =
      Some (kept ++
            (List.filter isNewline before ++
             bytes ("panic(" +:+ @Quote demo hex_msg +:+ ")") ++
             List.filter isNewline after) ++
            tail ++ rest) ∧
    lineBreaks (List.filter isNewline before) = lineBreaks before ∧
    lineBreaks (List.filter isNewline after) = lineBreaks after.
Proof.
  split; [vm_compute; reflexivity|].
  apply (@fixError_newlines demo fixer0 (Some hex_file) "hex.go" hex_src 55 hex_msg);
    vm_compute; reflexivity.
Defined.

Lemma fixUnusedImport_patch_witness :
  (∃ before removed after,
     import_src = before ++ removed ++ after ∧ len before = 17 ∧ len removed = 4 ∧
     fixUnusedImport fixer0 import_file "i.go" import_src 17 =
       Ok (true, setFixed fixer0 (<["i.go" := before ++ bytes "_ " ++ after]> (Fixed fixer0)))) ∧
  (∃ before removed after,
     plain_src = before ++ removed ++ after ∧ len before = 17 ∧ len removed = 0 ∧
     fixUnusedImport fixer0 plain_file "i.go" plain_src 17 =
       Ok (true, setFixed fixer0 (<["i.go" := before ++ bytes "_ " ++ after]> (Fixed fixer0)))).
Proof.
  split.
  - apply (fixUnusedImport_patch fixer0 import_file "i.go" import_src 17 [] [] 11 0 0 [] []
             (Some (mkIdent 18 "fmt")) (mkBasicLit 22 (dq +:+ "fmt" +:+ dq)) 0);
      first [reflexivity | apply List.Forall_nil | vm_compute; discriminate].
  - apply (fixUnusedImport_patch fixer0 plain_file "i.go" plain_src 17 [] [] 11 0 0 [] []
             None (mkBasicLit 18 (dq +:+ "fmt" +:+ dq)) 0);
      first [reflexivity | apply List.Forall_nil | vm_compute; discriminate].
Defined.

Lemma findRangeToFix_range_determinism_witness :
  findEnclosing hex_file (FileStart hex_file + 55) = Ok hex_enclosing ∧
  findRangeToFix hex_file hex_src 55 = Ok (43, 60, []) ∧
  findRangeToFix sib_file sib_src 33 = Ok (31, 38, []).
Proof.
  split; [vm_compute; reflexivity|]. split.
  - apply (proj1 findRangeToFix_range_determinism hex_file hex_src 55 hex_enclosing
             [4; 3]%nat hex_body hex_stmt); vm_compute; reflexivity.
  - apply (proj2 findRangeToFix_range_determinism sib_src 33 1 1 (mkIdent 9 "p")
             (mkIdent 16 "a") (funcType 11) 20 39 [sib_x; sib_y] [] sib_z);
      first [ reflexivity | constructor | vm_compute; discriminate ].
Defined.

Lemma findRangeToFix_synthesized_witness :
  findEnclosing open_file (FileStart open_file + 39) = Ok open_enclosing ∧
  sliceFrom open_src 27 = Ok (drop 27 open_src) ∧
  IndexFunc scanBoundary (drop 27 open_src) false = -1 ∧
  findRangeToFix open_file open_src 39 = Ok (27, 27 + 18, [rbrace]) ∧
  (IndexFunc scanBoundary (drop 27 open_src) false = -1 → 27 + 18 = len open_src - 1).
Proof.
  split; [vm_compute; reflexivity|].
  split; [vm_compute; reflexivity|].
  split; [vm_compute; reflexivity|].
  apply (findRangeToFix_synthesized open_file open_src 39 open_enclosing
           [4; 2]%nat open_body open_stmt (drop 27 open_src));
    first [ vm_compute; reflexivity
          | vm_compute; discriminate
          | intros p b [= <- <-]; reflexivity ].
Defined.


(** The bound is reached: a parser that reports the unused import again and
    again is asked ten times. *)
Example parseFile_ten_attempts :
  ∃ file errs f',
    @parseFile demo fixer0 "loop.go" plain_src = Ok (file, ErrorList errs, f') ∧
    length (trace f') = 10%nat.
Proof. eexists _, _, _. split; vm_compute; reflexivity. Qed.


Lemma Fix_valid_source_witness :
  @goList demo (mode fixer0) ["ok"] (Fixed fixer0) = Some [["ok.go"]] ∧
  ∃ f', @Fix demo fixer0 ["ok"] = Ok (None, f') ∧
        Fixed f' = Fixed fixer0 ∧
        ∃ parses, trace f' = trace fixer0 ++ EvLoad ["ok"] :: parses ∧
                  Forall (λ ev, isParse ev = true) parses.
Proof.
  split; [reflexivity|].
  apply (@Fix_valid_source demo fixer0 ["ok"] [["ok.go"]]).
  - reflexivity.
  - intros files filename src ->%list_elem_of_singleton ->%list_elem_of_singleton _.
    reflexivity.
  - intros files ->%list_elem_of_singleton. reflexivity.
Defined.

Lemma Prepare_gives_up_and_terminates_witness :
  (∃ res, @Prepare demo 2 runner0 = Some res) ∧
  ∃ r, @Prepare demo 2 runner0 = Some (Ok (None, r)) ∧ built r = false ∧
       Run r = inl ["go"; "build"; "p"].
Proof.
  split.
  - apply (proj2 (proj2 (proj2 (@Prepare_gives_up_and_terminates demo))) {["p"]}).
    + intros n mode args overlay out [= <-] pkg Hin.
      vm_compute in Hin. apply list_elem_of_singleton in Hin as ->.
      by apply elem_of_singleton.
    + rewrite size_singleton. lia.
  - eexists. split; [vm_compute; reflexivity|]. split; reflexivity.
Defined.

(** * More properties of the code *)

(** ** What holds along a walk *)

Section WalkInvariant.
Context {St : Type}.
Variable pre post : Cursor → St → Result (bool * St).
Variable panicOk : Prop.
Variable I : St → Prop.
Variable P : Node → Prop.
Hypothesis Hpre : ∀ c s, I s → cursorIn P c → Keeps panicOk I (pre c s).
Hypothesis Hpost : ∀ c s, I s → cursorIn P c → Keeps panicOk I (post c s).

Lemma Ended_andThen (w : Walk St) (k : St → Walk St) :
  Ended panicOk I w → (∀ s, I s → Ended panicOk I (k s)) → Ended panicOk I (andThen w k).
Proof. destruct w; simpl; auto. Qed.

Lemma Ended_visit (c : Cursor) (children : St → Walk St) (s : St) :
  cursorIn P c → I s → (∀ s', I s' → Ended panicOk I (children s')) →
  Ended panicOk I (visit pre post c children s).
Proof.
  intros Hc Hs Hkids. unfold visit.
  pose proof (Hpre c s Hs Hc) as H1.
  destruct (pre c s) as [[b s1]|]; [|exact H1]. destruct b; [|exact H1].
  apply Ended_andThen; [by apply Hkids|]. intros s2 H2.
  pose proof (Hpost c s2 H2 Hc) as H3.
  destruct (post c s2) as [[b s3]|]; [|exact H3]. by destruct b.
Qed.

Lemma Ended_applyNil (me : Path) (i : nat) (s : St) :
  I s → Ended panicOk I (applyNil pre post me i s).
Proof. intros Hs. by apply Ended_visit. Qed.

Lemma Ended_applyLeaf (me : Path) (i : nat) (n : Node) (s : St) :
  P n → I s → Ended panicOk I (applyLeaf pre post me i n s).
Proof. intros Hn Hs. by apply Ended_visit. Qed.

Lemma Ended_applyDecls (l : list Node) :
  Forall (EndedAt pre post panicOk I P) l → Forall P (flat_map nodes l) →
  ∀ me i s, I s → Ended panicOk I (applyDecls pre post me i l s).
Proof.
  induction 1 as [|x l Hx _ IH]; intros Hall me i s Hs; [done|].
  simpl in Hall. apply Forall_app in Hall as [Hax Hal].
  change (applyDecls pre post me i (x :: l) s) with
    (andThen (apply pre post (Some me) (i :: me) x s) (applyDecls pre post me (S i) l)).
  apply Ended_andThen; [by apply Hx|]. intros s' Hs'. by apply IH.
Qed.

Lemma Ended_applySub (l : list (option Node)) :
  Forall (fun o => match o with
                   | Some x => EndedAt pre post panicOk I P x
                   | None => True
                   end) l →
  Forall P (flat_map (fun o => match o with Some x => nodes x | None => [] end) l) →
  ∀ me i s, I s → Ended panicOk I (applySub pre post me i l s).
Proof.
  induction 1 as [|o l Ho _ IH]; intros Hall me i s Hs; [done|].
  simpl in Hall. apply Forall_app in Hall as [Hax Hal]. destruct o as [x|].
  - change (applySub pre post me i (Some x :: l) s) with
      (andThen (apply pre post (Some me) (i :: me) x s) (applySub pre post me (S i) l)).
    apply Ended_andThen; [by apply Ho|]. intros s' Hs'. by apply IH.
  - change (applySub pre post me i (None :: l) s) with
      (andThen (applyNil pre post me i s) (applySub pre post me (S i) l)).
    apply Ended_andThen; [by apply Ended_applyNil|]. intros s' Hs'. by apply IH.
Qed.

Lemma Ended_applyBlock (lb : Pos) (stmts : list Node) (rb : Pos) :
  Forall (EndedAt pre post panicOk I P) stmts →
  EndedAtBlock pre post panicOk I P (Block lb stmts rb).
Proof.
  intros Hall Hok parent me s Hs. cbn [nodesBlock] in Hok.
  apply Forall_cons in Hok as [Hb Hstmts].
  change (applyBlock pre post parent me (Block lb stmts rb) s) with
    (visit pre post (mkCursor (Some (NodeA (BlockStmtN (Block lb stmts rb)))) me parent)
       (applyDecls pre post me 0 stmts) s).
  apply Ended_visit; [done|done|]. intros s' Hs'. by apply Ended_applyDecls.
Qed.

Lemma Ended_apply : ∀ n, EndedAt pre post panicOk I P n.
Proof.
  apply (Node_induction_full (EndedAt pre post panicOk I P)
           (EndedAtBlock pre post panicOk I P)).
  - intros i Hok parent me s Hs. apply Forall_cons in Hok as [Hn _].
    change (apply pre post parent me (IdentN i) s) with
      (visit pre post (mkCursor (Some (NodeA (IdentN i))) me parent) Continue s).
    by apply Ended_visit.
  - intros l Hok parent me s Hs. apply Forall_cons in Hok as [Hn _].
    change (apply pre post parent me (BasicLitN l) s) with
      (visit pre post (mkCursor (Some (NodeA (BasicLitN l))) me parent) Continue s).
    by apply Ended_visit.
  - intros name path endPos Hok parent me s Hs. cbn [nodes] in Hok.
    apply Forall_cons in Hok as [Hn Hok]. apply Forall_app in Hok as [Hname Hpath].
    apply Forall_cons in Hpath as [Hpath _].
    change (apply pre post parent me (ImportSpec name path endPos) s) with
      (visit pre post (mkCursor (Some (NodeA (ImportSpec name path endPos))) me parent)
         (fun s =>
            andThen (applyNil pre post me 0 s) (fun s =>
            andThen (applyIdent pre post me 1 name s) (fun s =>
            andThen (applyLeaf pre post me 2 (BasicLitN path) s) (fun s =>
            applyNil pre post me 3 s)))) s).
    apply Ended_visit; [done|done|]. intros s0 Hs0.
    apply Ended_andThen; [by apply Ended_applyNil|]. intros s1 Hs1.
    apply Ended_andThen.
    { destruct name; simpl; [|by apply Ended_applyNil].
      apply Forall_cons in Hname as [Hname _]. by apply Ended_applyLeaf. }
    intros s2 Hs2. apply Ended_andThen; [by apply Ended_applyLeaf|].
    intros s3 Hs3. by apply Ended_applyNil.
  - intros tp t lp specs rp Hall Hok parent me s Hs. cbn [nodes] in Hok.
    apply Forall_cons in Hok as [Hn Hspecs].
    change (apply pre post parent me (GenDecl tp t lp specs rp) s) with
      (visit pre post (mkCursor (Some (NodeA (GenDecl tp t lp specs rp))) me parent)
         (fun s => andThen (applyNil pre post me 0 s) (applyDecls pre post me 1 specs)) s).
    apply Ended_visit; [done|done|]. intros s0 Hs0.
    apply Ended_andThen; [by apply Ended_applyNil|]. intros s1 Hs1.
    by apply Ended_applyDecls.
  - intros recv name type body Hrecv Htype Hbody Hok parent me s Hs. cbn [nodes] in Hok.
    apply Forall_cons in Hok as [Hn Hok]. apply Forall_app in Hok as [Hr Hok].
    apply Forall_cons in Hok as [Hnm Hok]. apply Forall_app in Hok as [Ht Hb].
    change (apply pre post parent me (FuncDecl recv name type body) s) with
      (visit pre post (mkCursor (Some (NodeA (FuncDecl recv name type body))) me parent)
         (fun s =>
            andThen (applyNil pre post me 0 s) (fun s =>
            andThen (match recv with
                     | Some r => apply pre post (Some me) (1%nat :: me) r s
                     | None => applyNil pre post me 1 s
                     end) (fun s =>
            andThen (applyLeaf pre post me 2 (IdentN name) s) (fun s =>
            andThen (apply pre post (Some me) (3%nat :: me) type s) (fun s =>
            match body with
            | Some b => applyBlock pre post (Some me) (4%nat :: me) b s
            | None => applyNil pre post me 4 s
            end))))) s).
    apply Ended_visit; [done|done|]. intros s0 Hs0.
    apply Ended_andThen; [by apply Ended_applyNil|]. intros s1 Hs1.
    apply Ended_andThen.
    { destruct recv; [by apply Hrecv|by apply Ended_applyNil]. }
    intros s2 Hs2. apply Ended_andThen; [by apply Ended_applyLeaf|].
    intros s3 Hs3. apply Ended_andThen; [by apply Htype|]. intros s4 Hs4.
    destruct body; [by apply Hbody|by apply Ended_applyNil].
  - intros b Hb Hok parent me s Hs.
    change (apply pre post parent me (BlockStmtN b) s) with
      (applyBlock pre post parent me b s).
    by apply Hb.
  - intros lhs tp t rhs Hl Hr Hok parent me s Hs. cbn [nodes] in Hok.
    apply Forall_cons in Hok as [Hn Hok]. apply Forall_app in Hok as [Hlhs Hrhs].
    change (apply pre post parent me (AssignStmt lhs tp t rhs) s) with
      (visit pre post (mkCursor (Some (NodeA (AssignStmt lhs tp t rhs))) me parent)
         (fun s => andThen (applyDecls pre post me 0 lhs s)
                           (applyDecls pre post me (length lhs) rhs)) s).
    apply Ended_visit; [done|done|]. intros s0 Hs0.
    apply Ended_andThen; [by apply Ended_applyDecls|]. intros s1 Hs1.
    by apply Ended_applyDecls.
  - intros p q sub Hall Hok parent me s Hs. cbn [nodes] in Hok.
    apply Forall_cons in Hok as [Hn Hsub].
    change (apply pre post parent me (OtherStmt p q sub) s) with
      (visit pre post (mkCursor (Some (NodeA (OtherStmt p q sub))) me parent)
         (applySub pre post me 0 sub) s).
    apply Ended_visit; [done|done|]. intros s0 Hs0. by apply Ended_applySub.
  - intros p q sub Hall Hok parent me s Hs. cbn [nodes] in Hok.
    apply Forall_cons in Hok as [Hn Hsub].
    change (apply pre post parent me (OtherNode p q sub) s) with
      (visit pre post (mkCursor (Some (NodeA (OtherNode p q sub))) me parent)
         (applySub pre post me 0 sub) s).
    apply Ended_visit; [done|done|]. intros s0 Hs0. by apply Ended_applySub.
  - intros lb stmts rb Hall. by apply Ended_applyBlock.
Qed.

(** the walk of a file *)
Lemma Ended_nodes (root : File) (s : St) :
  Forall P (nodesFile root) → I s → Ended panicOk I (Apply pre post root s).
Proof.
  intros Hok Hs. unfold nodesFile in Hok. apply Forall_cons in Hok as [Hname Hdecls].
  unfold Apply. apply Ended_visit; [done|done|]. intros s0 Hs0.
  apply Ended_andThen; [by apply Ended_applyNil|]. intros s1 Hs1.
  apply Ended_andThen; [by apply Ended_applyLeaf|]. intros s2 Hs2.
  apply Ended_applyDecls; [|done|done].
  apply Forall_forall. intros x _. apply Ended_apply.
Qed.

End WalkInvariant.

Lemma forallb_all {A : Type} (f : A → bool) (l : list A) :
  Forall (fun x => f x = true) l → forallb f l = true.
Proof. induction 1 as [|x l Hx _ IH]; simpl; [done|]. by rewrite Hx, IH. Qed.

Lemma forallb_flat_map (ok : Node → bool) (l : list Node) :
  Forall (fun n => allNodes ok n = true → Forall (fun m => ok m = true) (nodes n)) l →
  forallb (allNodes ok) l = true → Forall (fun m => ok m = true) (flat_map nodes l).
Proof.
  induction 1 as [|x l Hx _ IH]; simpl; [constructor|].
  intros [Hax Hal]%andb_true_iff. apply Forall_app. split; [by apply Hx|by apply IH].
Qed.

Lemma forallb_flat_map_sub (ok : Node → bool) (l : list (option Node)) :
  Forall (fun o => match o with
                   | Some x => allNodes ok x = true → Forall (fun m => ok m = true) (nodes x)
                   | None => True
                   end) l →
  forallb (fun o => match o with Some x => allNodes ok x | None => true end) l = true →
  Forall (fun m => ok m = true)
    (flat_map (fun o => match o with Some x => nodes x | None => [] end) l).
Proof.
  induction 1 as [|o l Ho _ IH]; simpl; [constructor|].
  intros [Hax Hal]%andb_true_iff. apply Forall_app. split; [|by apply IH].
  destruct o; [by apply Ho|constructor].
Qed.

(** [allNodes] is [ok] on the nodes of the walk *)
Lemma allNodes_nodes (ok : Node → bool) (n : Node) :
  allNodes ok n = true → Forall (fun m => ok m = true) (nodes n).
Proof.
  revert n.
  apply (Node_induction_full
           (fun n => allNodes ok n = true → Forall (fun m => ok m = true) (nodes n))
           (fun b => allNodesBlock ok b = true →
                     Forall (fun m => ok m = true) (nodesBlock b))).
  - intros i Hok. by constructor.
  - intros l Hok. by constructor.
  - intros name path endPos Hok. simpl in Hok.
    apply andb_true_iff in Hok as [[Hn Hname]%andb_true_iff Hpath].
    cbn [nodes]. constructor; [done|]. apply Forall_app. split.
    + destruct name; by repeat constructor.
    + by repeat constructor.
  - intros tp t lp specs rp Hall Hok. simpl in Hok.
    apply andb_true_iff in Hok as [Hn Hspecs].
    cbn [nodes]. constructor; [done|]. by apply forallb_flat_map.
  - intros recv name type body Hrecv Htype Hbody Hok. simpl in Hok.
    apply andb_true_iff in Hok
      as [[[[Hn Hr]%andb_true_iff Hnm]%andb_true_iff Ht]%andb_true_iff Hb].
    cbn [nodes]. constructor; [done|]. apply Forall_app. split.
    { destruct recv; [by apply Hrecv|constructor]. }
    constructor; [done|]. apply Forall_app. split; [by apply Htype|].
    destruct body; [by apply Hbody|constructor].
  - intros b Hb Hok. by apply Hb.
  - intros lhs tp t rhs Hl Hr Hok. simpl in Hok.
    apply andb_true_iff in Hok as [[Hn Hlhs]%andb_true_iff Hrhs].
    cbn [nodes]. constructor; [done|]. apply Forall_app.
    split; by apply forallb_flat_map.
  - intros p q sub Hall Hok. simpl in Hok. apply andb_true_iff in Hok as [Hn Hsub].
    cbn [nodes]. constructor; [done|]. by apply forallb_flat_map_sub.
  - intros p q sub Hall Hok. simpl in Hok. apply andb_true_iff in Hok as [Hn Hsub].
    cbn [nodes]. constructor; [done|]. by apply forallb_flat_map_sub.
  - intros lb stmts rb Hall Hok. simpl in Hok. apply andb_true_iff in Hok as [Hb Hstmts].
    cbn [nodesBlock]. constructor; [done|]. by apply forallb_flat_map.
Qed.

(** The walk of a file on whose nodes [ok] holds. *)
Lemma Ended_Apply {St : Type} (pre post : Cursor → St → Result (bool * St))
  (panicOk : Prop) (I : St → Prop) (ok : Node → bool) :
  (∀ c s, I s → cursorOk ok c → Keeps panicOk I (pre c s)) →
  (∀ c s, I s → cursorOk ok c → Keeps panicOk I (post c s)) →
  ∀ (root : File) (s : St),
    allNodesFile ok root = true → I s → Ended panicOk I (Apply pre post root s).
Proof.
  intros Hpre Hpost root s Hok Hs.
  apply (Ended_nodes pre post panicOk I (fun n => ok n = true) Hpre Hpost); [|done].
  unfold allNodesFile in Hok. apply andb_true_iff in Hok as [Hname Hdecls].
  unfold nodesFile. constructor; [done|].
  apply forallb_flat_map; [|done].
  apply Forall_forall. intros x _. apply allNodes_nodes.
Qed.

Lemma allNodes_true (n : Node) : allNodes (fun _ => true) n = true.
Proof.
  apply (Node_induction_full (fun n => allNodes (fun _ => true) n = true)
           (fun b => allNodesBlock (fun _ => true) b = true)); simpl; try done.
  - intros name; by destruct name.
  - intros _ _ _ specs _ Hall. by apply forallb_all.
  - intros recv name type body Hr Ht Hb. rewrite Ht.
    destruct recv, body; simpl; rewrite ?Hr, ?Hb; done.
  - intros lhs _ _ rhs Hl Hr. apply andb_true_iff. split; by apply forallb_all.
  - intros _ _ sub Hall. apply forallb_all.
    eapply Forall_impl; [exact Hall|]. by intros [x|].
  - intros _ _ sub Hall. apply forallb_all.
    eapply Forall_impl; [exact Hall|]. by intros [x|].
  - intros _ stmts _ Hall. by apply forallb_all.
Qed.

Lemma allNodesFile_true (f : File) : allNodesFile (fun _ => true) f = true.
Proof.
  unfold allNodesFile. simpl. apply forallb_all, Forall_forall.
  intros x _. apply allNodes_true.
Qed.

(** ** The identifier and the assignment that the micro-fixes find *)

Lemma covering_Node (pos : Pos) (c : Cursor) (a : AnyNode) :
  covering pos c = Some a →
  cNode c = Some a ∧ (AnyPos a <=? pos) && (AnyEnd a >=? pos) = true.
Proof.
  unfold covering. destruct (cNode c) as [a'|]; [|done].
  destruct (_ && _) eqn:Hc; [|done]. by intros [= ->].
Qed.

Lemma fixUnusedVar_pre_found (file : File) (pos : Pos) (c : Cursor) (s : option Ident) :
  foundIdent file pos s → cursorIn (fun n => n ∈ nodesFile file) c →
  Keeps False (foundIdent file pos) (fixUnusedVar_pre pos c s).
Proof.
  intros Hs Hc. unfold fixUnusedVar_pre, Keeps.
  destruct (covering pos c) as [[f|n]|] eqn:Hcov; try done.
  destruct n; try done. apply covering_Node in Hcov as [Hnode Hcov].
  unfold cursorIn in Hc. rewrite Hnode in Hc. by split.
Qed.

Lemma fixUselessAssignment_pre_found (file : File) (pos : Pos) (c : Cursor)
  (s : option (Token * Pos)) :
  foundAssign file pos s → cursorIn (fun n => n ∈ nodesFile file) c →
  Keeps False (foundAssign file pos) (fixUselessAssignment_pre pos c s).
Proof.
  intros Hs Hc. unfold fixUselessAssignment_pre, Keeps.
  destruct (covering pos c) as [[f|n]|] eqn:Hcov; try done.
  destruct n; try done. apply covering_Node in Hcov as [Hnode Hcov].
  unfold cursorIn in Hc. rewrite Hnode in Hc. simpl. eauto.
Qed.

Lemma walked_Ended {St : Type} (I : St → Prop) (w : Walk St) :
  Ended False I w → ∃ s, walked w = Ok s ∧ I s.
Proof. destruct w; simpl; [eauto..|done]. Qed.

Lemma fixUnusedVar_walk (file : File) (pos : Pos) :
  ∃ found, walked (Apply (fixUnusedVar_pre pos) noPost file None) = Ok found ∧
           foundIdent file pos found.
Proof.
  apply walked_Ended.
  apply (Ended_nodes _ _ False _ (fun n => n ∈ nodesFile file)); [| | |done].
  - intros c s. apply fixUnusedVar_pre_found.
  - by intros c s Hs _.
  - by apply Forall_forall.
Qed.

Lemma fixUselessAssignment_walk (file : File) (pos : Pos) :
  ∃ found, walked (Apply (fixUselessAssignment_pre pos) noPost file None) = Ok found ∧
           foundAssign file pos found.
Proof.
  apply walked_Ended.
  apply (Ended_nodes _ _ False _ (fun n => n ∈ nodesFile file)); [| | |done].
  - intros c s. apply fixUselessAssignment_pre_found.
  - by intros c s Hs _.
  - by apply Forall_forall.
Qed.

Lemma slice_Fault (s : list byte) (lo hi : Z) :
  ¬ (0 ≤ lo ∧ lo ≤ hi ∧ hi ≤ len s) → slice s lo hi = Fault.
Proof.
  intros Hout. unfold slice.
  destruct (Z.leb_spec 0 lo); [|done]. destruct (Z.leb_spec lo hi); [|done].
  destruct (Z.leb_spec hi (len s)); [|done]. lia.
Qed.

Lemma slice_take_drop (s : list byte) (lo hi : Z) :
  0 ≤ lo → lo ≤ hi → hi ≤ len s →
  slice s lo hi = Ok (take (Z.to_nat (hi - lo)) (drop (Z.to_nat lo) s)).
Proof.
  intros H0 H1 H2. unfold slice.
  destruct (Z.leb_spec 0 lo); [|lia]. destruct (Z.leb_spec lo hi); [|lia].
  destruct (Z.leb_spec hi (len s)); [|lia]. done.
Qed.

(** X1.  [fixUnusedVar] never faults in its walk.  When the walk finds no
    identifier the file is left alone.  When it finds one, that is an
    identifier of the file that spans the position of the error; if its
    span lies inside the content, the name is replaced by [_], the bytes
    before the identifier and after it are kept and the text removed is as
    long as the name; if not, the slices fault. *)
Theorem fixUnusedVar_patch (f : Fixer) (file : File) (filename : string)
  (content : list byte) (offset : Z) :
  let pos := FileStart file + offset in
  ∃ found,
    walked (Apply (fixUnusedVar_pre pos) noPost file None) = Ok found ∧
    match found with
    | None => fixUnusedVar f file filename content offset = Ok (false, f)
    | Some ident =>
        let insertPos := IdentPos ident - FileStart file in
        let inside := 0 ≤ insertPos ∧ insertPos + strlen (Name ident) ≤ len content in
        IdentN ident ∈ nodesFile file ∧
        IdentPos ident ≤ pos ≤ IdentEnd ident ∧
        (inside →
         ∃ before removed after,
           content = before ++ removed ++ after ∧
           len before = insertPos ∧ len removed = strlen (Name ident) ∧
           fixUnusedVar f file filename content offset =
             Ok (true, setFixed f (<[filename := before ++ bytes "_" ++ after]> (Fixed f)))) ∧
        (¬ inside → fixUnusedVar f file filename content offset = Fault)
    end.
Proof.
  intros pos. destruct (fixUnusedVar_walk file pos) as (found & Hw & Hfound).
  exists found. split; [done|].
  unfold fixUnusedVar. fold pos. rewrite Hw. unfold mbind, Result_bind.
  destruct found as [ident|]; [|done].
  destruct Hfound as [Hin Hcov]. unfold covers in Hcov. simpl in Hcov.
  apply andb_true_iff in Hcov as [Hc1 Hc2].
  assert (Hlen : IdentEnd ident - IdentPos ident = strlen (Name ident))
    by (unfold IdentEnd, IdentPos; lia).
  assert (Hn : 0 ≤ strlen (Name ident)) by (unfold strlen; lia).
  rewrite Hlen. set (ip := IdentPos ident - FileStart file).
  split; [done|]. split; [lia|]. split.
  - intros [Hlo Hhi].
    exists (take (Z.to_nat ip) content),
           (take (Z.to_nat (strlen (Name ident))) (drop (Z.to_nat ip) content)),
           (drop (Z.to_nat (ip + strlen (Name ident))) content).
    split; [|split; [|split]].
    + etrans; [symmetry; apply (take_drop (Z.to_nat ip))|]. f_equal.
      etrans; [symmetry; apply (take_drop (Z.to_nat (strlen (Name ident))))|]. f_equal.
      rewrite drop_drop. f_equal. lia.
    + unfold len in *. rewrite length_take. lia.
    + unfold len in *. rewrite length_take, length_drop. lia.
    + unfold sliceTo, sliceFrom. rewrite !slice_take_drop by lia.
      rewrite Z.sub_0_r. unfold update. simpl. rewrite app_nil_r.
      rewrite (take_ge (drop (Z.to_nat (ip + strlen (Name ident))) content));
        [done|unfold len in *; rewrite length_drop; lia].
  - intros Hout. unfold sliceTo, sliceFrom.
    destruct (slice content 0 ip) as [before|] eqn:Hb; [|done].
    apply slice_Ok in Hb as (_ & Hb0 & Hb1 & _).
    rewrite slice_Fault; [done|]. lia.
Qed.

(** X2.  [fixUselessAssignment] never faults in its walk.  What the walk
    finds is the token of an assignment statement of the file that spans
    the position of the error.  The file is patched only if that token is
    [:=], and then the one byte at the position of the token, the colon, is
    dropped and every other byte kept; the slices fault if the token lies
    outside the content.  In every other case the file is left alone. *)
Theorem fixUselessAssignment_patch (f : Fixer) (file : File) (filename : string)
  (content : list byte) (offset : Z) :
  let pos := FileStart file + offset in
  ∃ found,
    walked (Apply (fixUselessAssignment_pre pos) noPost file None) = Ok found ∧
    match found with
    | None => fixUselessAssignment f file filename content offset = Ok (false, f)
    | Some (tok, tokPos) =>
        let tokOff := tokPos - FileStart file in
        let inside := 0 ≤ tokOff ∧ tokOff < len content in
        (∃ lhs rhs, AssignStmt lhs tokPos tok rhs ∈ nodesFile file ∧
                    covers pos (AssignStmt lhs tokPos tok rhs) = true) ∧
        (tok ≠ DEFINE → fixUselessAssignment f file filename content offset = Ok (false, f)) ∧
        (tok = DEFINE → inside →
         ∃ before colon after,
           content = before ++ colon :: after ∧ len before = tokOff ∧
           fixUselessAssignment f file filename content offset =
             Ok (true, setFixed f (<[filename := before ++ after]> (Fixed f)))) ∧
        (tok = DEFINE → ¬ inside →
         fixUselessAssignment f file filename content offset = Fault)
    end.
Proof.
  intros pos. destruct (fixUselessAssignment_walk file pos) as (found & Hw & Hfound).
  exists found. split; [done|].
  unfold fixUselessAssignment. fold pos. rewrite Hw. unfold mbind, Result_bind.
  destruct found as [[tok tokPos]|]; [|done].
  set (ip := tokPos - FileStart file).
  split; [exact Hfound|]. split; [by destruct tok|]. split.
  - intros -> [Hlo Hhi]. simpl negb. cbv iota.
    destruct (drop (Z.to_nat ip) content) as [|colon rest] eqn:Hd.
    { apply (f_equal length) in Hd. rewrite length_drop in Hd. unfold len in *.
      simpl in Hd. lia. }
    exists (take (Z.to_nat ip) content), colon, rest.
    split; [|split].
    + rewrite <- Hd. symmetry. apply take_drop.
    + unfold len in *. rewrite length_take. lia.
    + unfold sliceTo, sliceFrom. rewrite !slice_take_drop by lia.
      rewrite Z.sub_0_r. unfold update. simpl. rewrite app_nil_r.
      rewrite (take_ge (drop (Z.to_nat (ip + 1)) content))
        by (unfold len in *; rewrite length_drop; lia).
      do 4 f_equal.
      replace (Z.to_nat (ip + 1)) with (Z.to_nat ip + 1)%nat by lia.
      rewrite <- drop_drop, Hd. reflexivity.
  - intros -> Hout. simpl negb. cbv iota. unfold sliceTo, sliceFrom.
    destruct (slice content 0 ip) as [before|] eqn:Hb; [|done].
    apply slice_Ok in Hb as (_ & Hb0 & Hb1 & _).
    rewrite slice_Fault; [done|]. lia.
Qed.

(** ** Where the locator faults, and where it cannot *)

Lemma findEnclosing_pre_hasBody (pos : Pos) (c : Cursor) (e : Enclosing) :
  True → cursorOk hasBody c → Keeps False (fun _ => True) (findEnclosing_pre pos c e).
Proof.
  intros _ Hc. unfold findEnclosing_pre, cursorOk, Keeps in *.
  destruct (cNode c) as [[f|n]|]; [| |done].
  - by destruct (AnyPos (FileA f) >? pos).
  - destruct (AnyPos (NodeA n) >? pos); [done|].
    destruct n as [| | | |recv name type body|b| | |]; try done.
    + destruct (NodeEnd _ >=? pos); [done|].
      destruct body as [b|]; [|done]. by destruct (negb _).
    + by destruct (_ || _).
    + by destruct (samePlace _ _).
    + by destruct (samePlace _ _).
Qed.

Lemma findEnclosing_post_Ok (c : Cursor) (e : Enclosing) :
  True → cursorOk hasBody c → Keeps False (fun _ => True) (findEnclosing_post c e).
Proof. done. Qed.

(** X3.  [findEnclosing] does not fault on a tree in which every function
    declaration has a body. *)
Theorem findEnclosing_total (file : File) (pos : Pos) :
  allNodesFile hasBody file = true → ∃ e, findEnclosing file pos = Ok e.
Proof.
  intros Hok. unfold findEnclosing.
  pose proof (Ended_Apply (findEnclosing_pre pos) findEnclosing_post False
                (fun _ => True) hasBody (findEnclosing_pre_hasBody pos) findEnclosing_post_Ok
                file (mkEnclosing None None None) Hok I) as Hend.
  destruct (Apply _ _ _ _); simpl in Hend; [eauto..|done].
Qed.

Lemma applyDecls_app {St : Type} (pre post : Cursor → St → Result (bool * St))
  (me : Path) (l1 l2 : list Node) : ∀ (i : nat) (s : St),
  applyDecls pre post me i (l1 ++ l2) s =
  andThen (applyDecls pre post me i l1 s) (applyDecls pre post me (i + length l1) l2).
Proof.
  induction l1 as [|x l1 IH]; intros i s.
  - simpl. by rewrite Nat.add_0_r.
  - change (applyDecls pre post me i ((x :: l1) ++ l2) s) with
      (andThen (apply pre post (Some me) (i :: me) x s)
               (applyDecls pre post me (S i) (l1 ++ l2))).
    change (applyDecls pre post me i (x :: l1) s) with
      (andThen (apply pre post (Some me) (i :: me) x s)
               (applyDecls pre post me (S i) l1)).
    destruct (apply pre post (Some me) (i :: me) x s) as [s1| |]; [|done..].
    cbv beta iota delta [andThen]. rewrite IH. cbn [length].
    by replace (S i + length l1)%nat with (i + S (length l1))%nat by lia.
Qed.

Lemma applyDecls_all_quiet (pos : Pos) (l : list Node) (me : Path) (i : nat)
  (e : Enclosing) :
  forallb (quiet pos) l = true → far e me →
  applyDecls (findEnclosing_pre pos) findEnclosing_post me i l e = Continue e.
Proof.
  intros Hq Hfar. apply applyDecls_quiet; [|done..].
  apply Forall_forall. intros x _. apply quiet_walk.
Qed.

(** X4.  [findEnclosing] faults at a function declared without a body that
    ends before the position: the closure reads [n.Body.Rbrace] of a nil
    body.  The declarations before it hold no function. *)
Theorem findEnclosing_bodyless_faults (file : File) (pos : Pos) (before : list Node)
  (recv : option Node) (name : Ident) (type : Node) (after : list Node)
  (content : list byte) :
  Decls file = before ++ FuncDecl recv name type None :: after →
  forallb (quiet pos) before = true →
  Package file ≤ pos → NodePos type ≤ pos → NodeEnd type < pos →
  findEnclosing file pos = Fault ∧
  findRangeToFix file content (pos - FileStart file) = Fault.
Proof.
  intros Hdecls Hq Hpk Hty Hend.
  assert (Hfault : findEnclosing file pos = Fault).
  { unfold findEnclosing, Apply. rewrite Hdecls.
    unfold visit at 1. unfold findEnclosing_pre at 1. simpl cNode. cbv beta iota.
    replace (AnyPos (FileA file) >? pos) with false by (simpl; lia).
    rewrite applyNil_skip. unfold andThen at 2.
    rewrite applyLeaf_far; [|done..]. unfold andThen at 2.
    rewrite applyDecls_app, applyDecls_all_quiet; [|done..]. unfold andThen at 2.
    change (applyDecls (findEnclosing_pre pos) findEnclosing_post []
              (2 + length before) (FuncDecl recv name type None :: after)
              (mkEnclosing None None None)) with
      (andThen (apply (findEnclosing_pre pos) findEnclosing_post (Some [])
                  [(2 + length before)%nat] (FuncDecl recv name type None)
                  (mkEnclosing None None None))
               (applyDecls (findEnclosing_pre pos) findEnclosing_post []
                  (S (2 + length before)) after)).
    assert (Hf : apply (findEnclosing_pre pos) findEnclosing_post (Some [])
                  [(2 + length before)%nat] (FuncDecl recv name type None)
                  (mkEnclosing None None None) = Panicked).
    { simpl. unfold visit at 1. unfold findEnclosing_pre at 1. simpl.
      replace (NodePos type >? pos) with false by lia.
      replace (NodeEnd type >=? pos) with false by lia. done. }
    rewrite Hf. done. }
  split; [done|]. unfold findRangeToFix.
  replace (FileStart file + (pos - FileStart file)) with pos by lia.
  by rewrite Hfault.
Qed.

Lemma findEnclosing_nothing (file : File) (pos : Pos) (before after : list Node) :
  Decls file = before ++ after →
  forallb (quiet pos) before = true →
  Forall (fun n => pos < NodePos n) after →
  findEnclosing file pos = Ok (mkEnclosing None None None).
Proof.
  intros Hdecls Hq Hafter. unfold findEnclosing, Apply. rewrite Hdecls.
  unfold visit at 1. unfold findEnclosing_pre at 1. simpl cNode. cbv beta iota.
  destruct (AnyPos (FileA file) >? pos); [done|].
  rewrite applyNil_skip. unfold andThen at 2.
  rewrite applyLeaf_far; [|done..]. unfold andThen at 2.
  rewrite applyDecls_app, applyDecls_all_quiet; [|done..]. unfold andThen at 2.
  rewrite applyDecls_skip; [|done]. done.
Qed.

(** X5.  An error outside every function declaration is not deferred: when
    the declarations that start at or before the position hold no function
    (and the blocks inside them are closed before it), the locator finds
    nothing, the range is empty and the general path of [fixError] gives up
    with the overlay untouched. *)
Theorem fixError_outside_function `{Toolchain} (f : Fixer) (file : File)
  (filename : string) (content : list byte) (offset : Z) (msg : string)
  (before after : list Node) :
  Contains msg "imported and not used" = false →
  Contains msg "declared and not used" = false →
  Contains msg "no new variables on left side of :=" = false →
  Decls file = before ++ after →
  forallb (quiet (FileStart file + offset)) before = true →
  Forall (fun n => FileStart file + offset < NodePos n) after →
  findRangeToFix file content offset = Ok (0, 0, []) ∧
  fixError f (Some file) filename content offset msg = Ok (false, f).
Proof.
  intros H1 H2 H3 Hdecls Hq Hafter.
  assert (Hr : findRangeToFix file content offset = Ok (0, 0, [])).
  { unfold findRangeToFix.
    by rewrite (findEnclosing_nothing file _ before after Hdecls Hq Hafter). }
  split; [done|]. unfold fixError. rewrite H1, H2, H3. simpl.
  unfold mbind, Result_bind. by rewrite Hr.
Qed.

(** ** The range found by scanning the text *)

Lemma LastIndexFuncRev_range {St : Type} (f : byte → St → bool * St) (rs : list byte)
  (i : Z) (st : St) :
  LastIndexFuncRev f i rs st = -1 ∨
  (i - len rs < LastIndexFuncRev f i rs st ∧ LastIndexFuncRev f i rs st ≤ i).
Proof.
  revert i st. induction rs as [|r rs IH]; intros i st; simpl; [by left|].
  destruct (f r st) as [hit st']. unfold len in *. simpl length.
  destruct hit; [right; lia|].
  destruct (IH (i - 1) st') as [->|IHr]; [by left|right; lia].
Qed.

Lemma LastIndexFunc_range {St : Type} (f : byte → St → bool * St) (s : list byte)
  (st : St) :
  LastIndexFunc f s st = -1 ∨ (0 ≤ LastIndexFunc f s st ∧ LastIndexFunc f s st < len s).
Proof.
  unfold LastIndexFunc.
  destruct (LastIndexFuncRev_range f (rev s) (len s - 1) st) as [->|Hr]; [by left|].
  right. unfold len in *. rewrite length_rev in Hr. lia.
Qed.

(** the block found is no block with a closing brace *)
Lemma findRangeToFix_scan (file : File) (content : list byte) (offset : Z)
  (e : Enclosing) (start end_ : Z) (tail : list byte) :
  findEnclosing file (FileStart file + offset) = Ok e →
  noValidBlock e →
  findRangeToFix file content offset = Ok (start, end_, tail) →
  (start, end_, tail) = (0, 0, []) ∨
  (0 ≤ start ∧ start ≤ end_ ∧ end_ < len content ∧ (tail = [] ∨ tail = [rbrace])).
Proof.
  intros He Hnb Hr. unfold findRangeToFix in Hr. rewrite He in Hr. simpl in Hr.
  unfold noValidBlock in Hnb.
  assert (Hvb : match block e with
                | Some (_, b) => if IsValid (Rbrace b) then Some b else None
                | None => None
                end = None).
  { destruct (block e) as [[p b]|]; [|done]. by rewrite Hnb. }
  rewrite Hvb in Hr. clear Hvb.
  destruct (fnBody e) as [[fp fb]|]; [|left; destruct (stmt e); by injection Hr as <- <- <-].
  destruct (stmt e) as [statement|]; [|left; by injection Hr as <- <- <-].
  set (s0 := NodePos _ - FileStart file) in Hr.
  unfold mbind, Result_bind in Hr.
  destruct (sliceFrom content s0) as [tl|] eqn:Htl; [|discriminate].
  pose proof (slice_len _ _ _ _ Htl) as Ltl.
  apply sliceFrom_Ok in Htl as (Hs0 & Hs1 & _).
  destruct (IndexFuncFrom_range scanBoundary tl 0 false) as [Hi|Hi];
    fold (IndexFunc scanBoundary tl false) in Hi;
    set (ix := IndexFunc scanBoundary tl false) in *.
  - rewrite Hi in Hr. simpl in Hr.
    destruct (sliceTo tl (len tl - 1)) as [scanned|] eqn:Hsc; [|discriminate].
    pose proof (slice_len _ _ _ _ Hsc) as Lsc.
    apply sliceTo_Ok in Hsc as (Hsc0 & _ & _).
    destruct (LastIndexFunc_range scanCloseBrace scanned false) as [Hc|Hc].
    + rewrite Hc in Hr. simpl in Hr. injection Hr as <- <- <-. right.
      repeat split; try lia. by right.
    + destruct (LastIndexFunc scanCloseBrace scanned false >? -1) eqn:Hgt; [|lia].
      injection Hr as <- <- <-. right. repeat split; try lia. by left.
  - destruct (ix >? -1) eqn:Hgt; [|lia].
    destruct (index tl ix) as [b|] eqn:Hb; [|discriminate].
    destruct (Byte.eqb b rbrace).
    + injection Hr as <- <- <-. right. repeat split; try lia. by left.
    + destruct (ix =? -1) eqn:Hm; [lia|].
      destruct (sliceTo tl ix) as [scanned|] eqn:Hsc; [|discriminate].
      pose proof (slice_len _ _ _ _ Hsc) as Lsc.
      destruct (LastIndexFunc_range scanCloseBrace scanned false) as [Hc|Hc].
      * rewrite Hc in Hr. simpl in Hr. injection Hr as <- <- <-. right.
        repeat split; try lia. by right.
      * destruct (LastIndexFunc scanCloseBrace scanned false >? -1) eqn:Hgt2; [|lia].
        injection Hr as <- <- <-. right. repeat split; try lia. by left.
Qed.

Lemma findRangeToFix_tail_cases (file : File) (content : list byte) (offset : Z)
  (start end_ : Z) (tail : list byte) :
  findRangeToFix file content offset = Ok (start, end_, tail) →
  tail = [] ∨ tail = [rbrace].
Proof.
  intros Hr.
  destruct (findEnclosing file (FileStart file + offset)) as [e|] eqn:He.
  2:{ unfold findRangeToFix in Hr. by rewrite He in Hr. }
  destruct (block e) as [[p b]|] eqn:Hb.
  - destruct (IsValid (Rbrace b)) eqn:Hv.
    + unfold findRangeToFix in Hr. rewrite He in Hr. simpl in Hr. rewrite Hb, Hv in Hr.
      destruct (stmt e); [|discriminate]. injection Hr as <- <- <-. by left.
    + destruct (findRangeToFix_scan file content offset e start end_ tail He) as [H1|H1];
        [by unfold noValidBlock; rewrite Hb|done|left; congruence|tauto].
  - destruct (findRangeToFix_scan file content offset e start end_ tail He) as [H1|H1];
      [by unfold noValidBlock; rewrite Hb|done|left; congruence|tauto].
Qed.

(** X6.  What [findRangeToFix] asks to insert after the replacement is
    nothing or one closing brace, and with the brace the range lies inside
    the content: [0 ≤ start ≤ end < len content]. *)
Theorem findRangeToFix_tail (file : File) (content : list byte) (offset : Z)
  (start end_ : Z) (tail : list byte) :
  findRangeToFix file content offset = Ok (start, end_, tail) →
  tail = [] ∨ (tail = [rbrace] ∧ 0 ≤ start ∧ start ≤ end_ ∧ end_ < len content).
Proof.
  intros Hr.
  destruct (findEnclosing file (FileStart file + offset)) as [e|] eqn:He.
  2:{ unfold findRangeToFix in Hr. by rewrite He in Hr. }
  assert (Hscan : noValidBlock e →
            tail = [] ∨ (tail = [rbrace] ∧ 0 ≤ start ∧ start ≤ end_ ∧ end_ < len content)).
  { intros Hnb.
    destruct (findRangeToFix_scan file content offset e start end_ tail He Hnb Hr)
      as [Hz|(H0 & H1 & H2 & [Ht|Ht])]; [left; congruence|by left|by right]. }
  destruct (block e) as [[p b]|] eqn:Hb; [|apply Hscan; unfold noValidBlock; by rewrite Hb].
  destruct (IsValid (Rbrace b)) eqn:Hv; [|apply Hscan; unfold noValidBlock; by rewrite Hb].
  unfold findRangeToFix in Hr. rewrite He in Hr. simpl in Hr. rewrite Hb, Hv in Hr.
  destruct (stmt e); [|discriminate]. injection Hr as <- <- <-. by left.
Qed.

Lemma slice_in_range (s : list byte) (lo hi : Z) :
  0 ≤ lo → lo ≤ hi → hi ≤ len s → ∃ x, slice s lo hi = Ok x.
Proof.
  intros H0 H1 H2. unfold slice.
  replace (0 <=? lo) with true by lia. replace (lo <=? hi) with true by lia.
  replace (hi <=? len s) with true by lia. simpl. eauto.
Qed.

(** X7.  Without a block that has its closing brace the general path of
    [fixError] does not fault: a range found by scanning the text is inside
    the content, so every slice of the patch is in range. *)
Theorem fixError_scan_no_fault `{Toolchain} (f : Fixer) (file : File) (filename : string)
  (content : list byte) (offset : Z) (msg : string) (e : Enclosing)
  (start end_ : Z) (tail : list byte) :
  Contains msg "imported and not used" = false →
  Contains msg "declared and not used" = false →
  Contains msg "no new variables on left side of :=" = false →
  findEnclosing file (FileStart file + offset) = Ok e →
  noValidBlock e →
  findRangeToFix file content offset = Ok (start, end_, tail) →
  ∃ b f', fixError f (Some file) filename content offset msg = Ok (b, f').
Proof.
  intros H1 H2 H3 He Hnb Hr. unfold fixError. rewrite H1, H2, H3. simpl.
  unfold mbind, Result_bind. rewrite Hr.
  destruct (start =? end_) eqn:Hse; [by eauto|].
  destruct ((start >? offset) || (end_ <? offset)) eqn:Hin; [by eauto|].
  apply orb_false_iff in Hin as [Hin1 Hin2].
  destruct (findRangeToFix_scan file content offset e start end_ tail He Hnb Hr)
    as [Hz|(Hs0 & Hs1 & Hs2 & _)]; [injection Hz as -> -> ->; lia|].
  destruct (slice_in_range content start offset) as [x1 ->]; [lia..|].
  destruct (slice_in_range content offset end_) as [x2 ->]; [lia..|].
  destruct (slice_in_range content 0 start) as [x3 ->]; [lia..|].
  unfold sliceFrom.
  destruct (slice_in_range content end_ (len content)) as [x4 ->]; [lia..|].
  eauto.
Qed.

Lemma lineBreaks_app (a b : list byte) :
  lineBreaks (a ++ b) = (lineBreaks a + lineBreaks b)%nat.
Proof. unfold lineBreaks. by rewrite List.filter_app, length_app. Qed.

(** X8.  A patch of the general path leaves the number of line breaks of
    the file as it was, when the quoted message holds none: line numbers
    reported for the rest of the file stay valid. *)
Theorem fixError_keeps_line_count `{Toolchain} (f : Fixer) (file : option File)
  (filename : string) (content : list byte) (offset : Z) (msg : string) (f' : Fixer) :
  Contains msg "imported and not used" = false →
  Contains msg "declared and not used" = false →
  Contains msg "no new variables on left side of :=" = false →
  lineBreaks (panicCall msg) = 0%nat →
  fixError f file filename content offset msg = Ok (true, f') →
  ∃ new, Fixed f' !! filename = Some new ∧ lineBreaks new = lineBreaks content.
Proof.
  intros H1 H2 H3 Hq Hr. unfold fixError in Hr. rewrite H1, H2, H3 in Hr.
  destruct file as [file|]; [|discriminate]. simpl in Hr.
  unfold mbind, Result_bind in Hr.
  destruct (findRangeToFix file content offset) as [[[start end_] tail]|] eqn:Hrange;
    [|discriminate].
  destruct (start =? end_); [discriminate|].
  destruct ((start >? offset) || (end_ <? offset)); [discriminate|].
  destruct (slice content start offset) as [before|] eqn:Hb; [|discriminate].
  destruct (slice content offset end_) as [after|] eqn:Ha; [|discriminate].
  destruct (slice content 0 start) as [kept|] eqn:Hk; [|discriminate].
  destruct (sliceFrom content end_) as [rest|] eqn:Hrest; [|discriminate].
  injection Hr as <-.
  pose proof (slice_split _ _ _ _ _ _ Hb Ha) as Hsplit.
  apply sliceTo_Ok in Hk as (_ & _ & ->).
  apply sliceFrom_Ok in Hrest as (_ & _ & ->).
  exists (take (Z.to_nat start) content ++
          (newLinesInRange before ++ panicCall msg ++ newLinesInRange after) ++
          tail ++ drop (Z.to_nat end_) content).
  split; [simpl; rewrite lookup_insert_eq; by rewrite app_nil_r|].
  etrans; [|symmetry; apply (f_equal lineBreaks Hsplit)].
  assert (Htail : lineBreaks tail = 0%nat).
  { destruct (findRangeToFix_tail_cases _ _ _ _ _ _ Hrange) as [->| ->]; done. }
  rewrite !lineBreaks_app, !lineBreaks_newLinesInRange, Hq, Htail. lia.
Qed.

(** ** The overlay along the loops of the Fixer *)

Lemma Patched_extends (f : Fixer) (filename : string) (b : bool) (f' : Fixer) :
  Patched f filename b f' → extends f f'.
Proof.
  unfold Patched, extends. destruct b.
  - intros [v ->]. simpl. split; [|done]. rewrite dom_insert. set_solver.
  - by intros ->.
Qed.

Lemma extends_refl (f : Fixer) : extends f f.
Proof. by unfold extends. Qed.

Lemma extends_trans (f g h : Fixer) : extends f g → extends g h → extends f h.
Proof.
  unfold extends. intros (H1 & H2 & H3) (H4 & H5 & H6).
  split; [set_solver|]. split; congruence.
Qed.

Lemma extends_record (f : Fixer) (ev : Event) : extends f (record f ev).
Proof. by unfold extends. Qed.

Section FixerOverlay.
Context `{Toolchain}.

Lemma parseFile_loop_result (filename : string) (fuel : nat) :
  ∀ (i : Z) (f : Fixer) (content : list byte) (file : File) (err : ParseErr) (f' : Fixer),
  parseFile_loop fuel i f filename content = Some (Ok (file, err, f')) →
  (∀ other, other ≠ filename → Fixed f' !! other = Fixed f !! other) ∧
  extends f f' ∧
  ∃ last, ParseFile filename last = (file, err) ∧
    ((last = content ∧ Fixed f' = Fixed f) ∨ Fixed f' !! filename = Some last).
Proof.
  induction fuel as [|fuel IH]; intros i f content file err f' Hr; [discriminate|].
  simpl in Hr. destruct (ParseFile filename content) as [file0 err0] eqn:Hparse.
  assert (Hstop : ∀ e0, Some (Ok (file0, e0, record f (EvParse filename content)))
                        = Some (Ok (file, err, f')) → e0 = err0 →
            (∀ other, other ≠ filename → Fixed f' !! other = Fixed f !! other) ∧
            extends f f' ∧
            ∃ last, ParseFile filename last = (file, err) ∧
              ((last = content ∧ Fixed f' = Fixed f) ∨ Fixed f' !! filename = Some last)).
  { intros e0 [= <- <- <-] ->. split; [done|]. split; [apply extends_record|].
    exists content. split; [done|]. by left. }
  destruct err0 as [|errs|]; [by eapply Hstop| |by eapply Hstop].
  destruct (i + 1 >=? 10); [by eapply Hstop|].
  destruct errs as [|e errs]; [by eapply Hstop|].
  destruct (fixError _ _ _ _ _ _) as [[[|] f2]|] eqn:Hfix; [| |discriminate].
  - pose proof (fixError_Patched _ _ _ _ _ _ _ _ Hfix) as Hp.
    pose proof (Patched_extends _ _ _ _ Hp) as Hpe.
    destruct Hp as [v Hv]. simpl in Hv.
    assert (Hl : Fixed f2 !! filename = Some v) by (rewrite Hv; simpl; apply lookup_insert_eq).
    rewrite Hl in Hr. simpl in Hr.
    apply IH in Hr as (Hframe & Hext & last & Hlast & Hcase).
    split; [|split].
    + intros other Hne. rewrite (Hframe other Hne), Hv. simpl.
      by rewrite lookup_insert_ne.
    + eapply extends_trans; [|exact Hext].
      eapply extends_trans; [apply extends_record|exact Hpe].
    + exists last. split; [done|]. right.
      destruct Hcase as [[-> Heq]|Hc]; [by rewrite Heq|done].
  - pose proof (fixError_Patched _ _ _ _ _ _ _ _ Hfix) as Hp. simpl in Hp. subst f2.
    by eapply Hstop.
Qed.

(** X9.  What [parseFile] returns is the parse of what the overlay holds:
    the tree and the error come from parsing the input, when no fix was
    applied, or else from parsing the entry of the file in [Fixed]; the
    entries of other files are not touched. *)
Theorem parseFile_result (f : Fixer) (filename : string) (content : list byte)
  (file : File) (err : ParseErr) (f' : Fixer) :
  parseFile f filename content = Ok (file, err, f') →
  (∀ other, other ≠ filename → Fixed f' !! other = Fixed f !! other) ∧
  ∃ last, ParseFile filename last = (file, err) ∧
    ((last = content ∧ Fixed f' = Fixed f) ∨ Fixed f' !! filename = Some last).
Proof.
  unfold parseFile. intros Hr.
  destruct (parseFile_loop 10 0 f filename content) as [r|] eqn:Hl; [|discriminate].
  subst r. apply parseFile_loop_result in Hl as (Hframe & _ & Hlast). by split.
Qed.

Lemma parseFile_extends (f : Fixer) (filename : string) (content : list byte)
  (file : File) (err : ParseErr) (f' : Fixer) :
  parseFile f filename content = Ok (file, err, f') → extends f f'.
Proof.
  unfold parseFile. intros Hr.
  destruct (parseFile_loop 10 0 f filename content) as [r|] eqn:Hl; [|discriminate].
  subst r. by apply parseFile_loop_result in Hl as (_ & Hext & _).
Qed.

Lemma parseFiles_extends (files : list string) : ∀ (f : Fixer) (syntax : list File)
  (f' : Fixer), parseFiles f files = Ok (syntax, f') → extends f f'.
Proof.
  induction files as [|filename files IH]; intros f syntax f' Hr; simpl in Hr.
  - injection Hr as <- <-. apply extends_refl.
  - destruct (readFile f filename) as [src|]; [|by eapply IH].
    unfold mbind, Result_bind in Hr.
    destruct (parseFile f filename src) as [[[file err] f1]|] eqn:Hp; [|discriminate].
    destruct (parseFiles f1 files) as [[syntax1 f2]|] eqn:Hps; [|discriminate].
    injection Hr as <- <-.
    eapply extends_trans; [by eapply parseFile_extends|by eapply IH].
Qed.

Lemma loadPackages_extends (pkgs : list (list string)) : ∀ (f : Fixer)
  (loaded : list LoadedPackage) (f' : Fixer),
  loadPackages f pkgs = Ok (loaded, f') → extends f f'.
Proof.
  induction pkgs as [|files pkgs IH]; intros f loaded f' Hr; simpl in Hr.
  - injection Hr as <- <-. apply extends_refl.
  - unfold mbind, Result_bind in Hr.
    destruct (parseFiles f files) as [[syntax f1]|] eqn:Hp; [|discriminate].
    destruct (loadPackages f1 pkgs) as [[loaded1 f2]|] eqn:Hl; [|discriminate].
    injection Hr as <- <-.
    eapply extends_trans; [by eapply parseFiles_extends|by eapply IH].
Qed.

Lemma Load_extends (f : Fixer) (pkgNames : list string)
  (loaded : option (list LoadedPackage)) (f' : Fixer) :
  Load f pkgNames = Ok (loaded, f') → extends f f'.
Proof.
  unfold Load. intros Hr. destruct (goList _ _ _) as [pkgs|].
  - unfold mbind, Result_bind in Hr.
    destruct (loadPackages f pkgs) as [[l f1]|] eqn:Hl; [|discriminate].
    injection Hr as <- <-. by eapply loadPackages_extends.
  - injection Hr as <- <-. apply extends_refl.
Qed.

Lemma fixPkg_extends (f : Fixer) (pkg : LoadedPackage) (fx : bool)
  (err : option error) (f' : Fixer) :
  fixPkg f pkg = Ok (fx, err, f') → extends f f'.
Proof.
  unfold fixPkg. intros Hr.
  destruct (TypeErrors pkg) as [|e rest]; [injection Hr as <- <- <-; apply extends_refl|].
  destruct (HasPrefix _ _).
  - destruct (readFile f _) as [content|];
      [|injection Hr as <- <- <-; apply extends_refl].
    destruct (ParseFile _ _) as [file err0].
    destruct err0; try (injection Hr as <- <- <-; apply extends_refl).
    unfold mbind, Result_bind in Hr.
    destruct (fixError _ _ _ _ _ _) as [[b f1]|] eqn:Hfix; [|discriminate].
    injection Hr as <- <- <-.
    eapply extends_trans; [apply extends_record|].
    eapply Patched_extends. by eapply fixError_Patched.
  - destruct (readFile f _) as [content|];
      [|injection Hr as <- <- <-; apply extends_refl].
    unfold mbind, Result_bind in Hr.
    destruct (fixError _ _ _ _ _ _) as [[b f1]|] eqn:Hfix; [|discriminate].
    injection Hr as <- <- <-.
    eapply extends_trans; [apply extends_record|].
    eapply Patched_extends. by eapply fixError_Patched.
Qed.

Lemma fixPkgs_extends (pkgs : list LoadedPackage) : ∀ (f : Fixer) (fixed fx : bool)
  (err : option error) (f' : Fixer),
  fixPkgs f pkgs fixed = Ok (fx, err, f') → extends f f'.
Proof.
  induction pkgs as [|pkg pkgs IH]; intros f fixed fx err f' Hr; simpl in Hr.
  - injection Hr as <- <- <-. apply extends_refl.
  - unfold mbind, Result_bind in Hr.
    destruct (fixPkg f pkg) as [[[fx1 err1] f1]|] eqn:Hp; [|discriminate].
    apply fixPkg_extends in Hp.
    destruct err1; [by injection Hr as <- <- <-|].
    eapply extends_trans; [exact Hp|by eapply IH].
Qed.

Lemma Fix_loop_extends (fuel : nat) : ∀ (i : Z) (f : Fixer) (pkgNames : list string)
  (err : option error) (f' : Fixer),
  Fix_loop fuel i f pkgNames = Some (Ok (err, f')) → extends f f'.
Proof.
  induction fuel as [|fuel IH]; intros i f pkgNames err f' Hr; simpl in Hr.
  - destruct (i <? 10); [discriminate|]. injection Hr as <- <-. apply extends_refl.
  - destruct (i <? 10); [|injection Hr as <- <-; apply extends_refl].
    destruct (Load _ _) as [[loaded f1]|] eqn:Hl; [|discriminate].
    apply Load_extends in Hl.
    assert (H0 : extends f f1)
      by (eapply extends_trans; [apply extends_record|exact Hl]).
    destruct loaded as [pkgs|]; [|by injection Hr as <- <-].
    destruct (fixPkgs f1 pkgs false) as [[[fx err1] f2]|] eqn:Hp; [|discriminate].
    apply fixPkgs_extends in Hp.
    assert (H1 : extends f f2) by (eapply extends_trans; [exact H0|exact Hp]).
    destruct fx, err1; try (by injection Hr as <- <-).
    eapply extends_trans; [exact H1|by eapply IH].
Qed.

(** X10.  [Fix] never drops a file from the overlay: every file that has an
    entry in [Fixed] before the call has one after it, whatever the passes
    did, and the mode and the verbosity of the Fixer stay as they were. *)
Theorem Fix_keeps_entries (f : Fixer) (pkgNames : list string) (err : option error)
  (f' : Fixer) :
  Fix f pkgNames = Ok (err, f') →
  dom (Fixed f) ⊆ dom (Fixed f') ∧ mode f' = mode f ∧ verbose f' = verbose f.
Proof.
  unfold Fix. intros Hr.
  destruct (Fix_loop 10 0 f pkgNames) as [r|] eqn:Hl; [|discriminate].
  subst r. by apply Fix_loop_extends in Hl.
Qed.

Lemma fileOf_None (syntax : list File) (pos : Pos) :
  Forall (fun ast => ¬ (Package ast ≤ pos ∧ pos ≤ FileEnd ast)) syntax →
  fileOf syntax pos None = None.
Proof.
  induction 1 as [|ast syntax Hx _ IH]; simpl; [done|].
  destruct ((Package ast <=? pos) && (FileEnd ast >=? pos)) eqn:Hc; [|done].
  apply andb_true_iff in Hc as [H1 H2]. exfalso. apply Hx. lia.
Qed.

Lemma fixError_nil_file (f : Fixer) (filename : string) (content : list byte)
  (offset : Z) (msg : string) :
  fixError f None filename content offset msg = Fault.
Proof. unfold fixError. by repeat destruct (Contains _ _). Qed.

(** X11.  [fixPkg] faults when no tree of the package spans the position of
    the first type error: [file] stays nil and every path of [fixError]
    starts by reading [file.FileStart].  The file of the error is read
    before that, and is not one of the Go cache. *)
Theorem fixPkg_no_tree_faults (f : Fixer) (pkg : LoadedPackage) (e : TypeError)
  (rest : list TypeError) (content : list byte) :
  TypeErrors pkg = e :: rest →
  Forall (fun ast => ¬ (Package ast ≤ tePos e ∧ tePos e ≤ FileEnd ast)) (Syntax pkg) →
  HasPrefix (teFilename e) goCache = false →
  readFile f (teFilename e) = Some content →
  fixPkg f pkg = Fault.
Proof.
  intros He Hall Hcache Hread. unfold fixPkg.
  rewrite He, Hcache, Hread, (fileOf_None _ _ Hall), fixError_nil_file. done.
Qed.

End FixerOverlay.

(** ** The offset of a line and a column *)

Lemma eqb_nl_false (b : byte) : b ≠ nl → Byte.eqb b nl = false.
Proof.
  intros Hb. destruct (Byte.eqb b nl) eqn:E; [|done].
  by apply Byte.byte_dec_bl in E.
Qed.

Lemma offsetOfLineColumn_other_line (l rest : list byte) (line column offset : Z) :
  noLineFeed l → ∀ i lno cno, lno ≠ line →
  offsetOfLineColumn (l ++ rest) i lno cno line column offset =
  offsetOfLineColumn rest (i + len l) lno cno line column offset.
Proof.
  induction 1 as [|b l Hb _ IH]; intros i lno cno Hne.
  - simpl. f_equal. unfold len. simpl. lia.
  - simpl. rewrite (eqb_nl_false b Hb).
    replace (lno =? line) with false by lia.
    rewrite IH; [|done]. f_equal. unfold len. simpl length. lia.
Qed.

Lemma offsetOfLineColumn_lines (lines : list (list byte)) (rest : list byte)
  (line column offset : Z) :
  Forall noLineFeed lines → ∀ i lno cno, lno + Z.of_nat (length lines) ≤ line →
  offsetOfLineColumn (terminated lines ++ rest) i lno cno line column offset =
  offsetOfLineColumn rest (i + len (terminated lines)) (lno + Z.of_nat (length lines))
    cno line column offset.
Proof.
  unfold terminated.
  induction 1 as [|l lines Hl _ IH]; intros i lno cno Hle.
  - simpl. f_equal; unfold len; simpl; lia.
  - simpl map. simpl concat. simpl length in Hle.
    rewrite <- !app_assoc. rewrite offsetOfLineColumn_other_line; [|done|lia].
    simpl. rewrite IH; [|lia].
    f_equal; unfold len; rewrite ?length_app; simpl length; lia.
Qed.

Lemma offsetOfLineColumn_column (mid : list byte) (b : byte) (rest : list byte)
  (line column offset : Z) :
  noLineFeed mid → b ≠ nl → ∀ i cno, cno + len mid + 1 = column →
  offsetOfLineColumn (mid ++ b :: rest) i line cno line column offset = i + len mid.
Proof.
  intros Hmid Hb. induction Hmid as [|x mid Hx _ IH]; intros i cno Hcol.
  - simpl. rewrite (eqb_nl_false b Hb). rewrite Z.eqb_refl.
    unfold len in *. simpl in *. replace (cno + 1 =? column) with true by lia. lia.
  - simpl. rewrite (eqb_nl_false x Hx). rewrite Z.eqb_refl.
    unfold len in *. simpl length in *.
    replace (cno + 1 =? column) with false by lia.
    rewrite IH; lia.
Qed.

(** X12.  The loop of [fixPkg] that turns a line and a column into an
    offset: for a content made of whole lines, then [mid] and a byte [b]
    that is no line feed, the line being the number of whole lines plus one
    and the column the length of [mid] plus one, it gives the offset of
    [b]. *)
Theorem offsetOfLineColumn_found (lines : list (list byte)) (mid : list byte) (b : byte)
  (rest : list byte) (offset : Z) :
  Forall noLineFeed lines → noLineFeed mid → b ≠ nl →
  offsetOfLineColumn (terminated lines ++ mid ++ b :: rest) 0 1 0
    (Z.of_nat (length lines) + 1) (len mid + 1) offset =
  len (terminated lines) + len mid.
Proof.
  intros Hlines Hmid Hb.
  rewrite offsetOfLineColumn_lines; [|done|lia].
  replace (1 + Z.of_nat (length lines)) with (Z.of_nat (length lines) + 1) by lia.
  rewrite (offsetOfLineColumn_column mid b rest); [lia|done..|lia].
Qed.

(** ** The arguments of the runner *)

Lemma goFiles_split (args : list string) (b r : list string) :
  goFiles args = (b, r) →
  b ++ r = args ∧ Forall (fun a => HasSuffix a ".go" = true) b ∧
  match r with a :: _ => HasSuffix a ".go" = false | [] => True end.
Proof.
  revert b r. induction args as [|a args IH]; intros b r Hg; simpl in Hg.
  - by injection Hg as <- <-.
  - destruct (HasSuffix a ".go") eqn:Ha.
    + destruct (goFiles args) as [b1 r1]. injection Hg as <- <-.
      destruct (IH b1 r1 eq_refl) as (Happ & Hall & Hr).
      split; [by rewrite <- Happ|]. split; [by constructor|done].
    + injection Hg as <- <-. by rewrite Ha.
Qed.

(** X13.  [New] splits the arguments and loses none of them: the build
    arguments followed by the run arguments are the arguments given, so a
    runner that was never built runs the go command as it was typed.  In
    mode [run] there is at least one build argument, several build
    arguments are all [.go] files, and after [.go] files the run arguments
    do not start with one. *)
Theorem New_splits_args (mode : string) (verbose : bool) (args : list string) (r : Runner) :
  New mode verbose args = Ok r →
  buildArgs r ++ runArgs r = args ∧
  Run r = inl ("go" :: mode :: args) ∧
  (mode = "run" →
   ∃ a rest, buildArgs r = a :: rest ∧
     Forall (fun x => HasSuffix x ".go" = true) rest ∧
     (HasSuffix a ".go" = false → rest = []) ∧
     (HasSuffix a ".go" = true →
      match runArgs r with x :: _ => HasSuffix x ".go" = false | [] => True end)).
Proof.
  unfold New. intros Hn. destruct (String.eqb mode "run") eqn:Hmode.
  - destruct args as [|a rest]; [discriminate|].
    destruct (HasSuffix a ".go") eqn:Ha.
    + destruct (goFiles (a :: rest)) as [b rn] eqn:Hg. injection Hn as <-.
      destruct (goFiles_split _ _ _ Hg) as (Happ & Hall & Hr). simpl.
      split; [done|]. split; [unfold Run; simpl; by rewrite Happ|]. intros _.
      simpl in Hg. rewrite Ha in Hg. destruct (goFiles rest) as [b1 r1].
      injection Hg as <- <-. exists a, b1.
      apply Forall_cons in Hall as [_ Hall]. simpl.
      split; [done|]. split; [done|]. split; [intros; congruence|by intros _].
    + injection Hn as <-. simpl. split; [done|]. split; [done|]. intros _.
      exists a, []. split; [done|]. split; [by constructor|]. split; [done|].
      intros; congruence.
  - injection Hn as <-. simpl. rewrite app_nil_r. split; [done|].
    split; [unfold Run; simpl; by rewrite app_nil_r|].
    intros ->. discriminate.
Qed.

(** ** The report of a failed build *)

Lemma nonSpaces_name (name rest : list byte) :
  Forall (fun b => isSpace b = false) name →
  match rest with b :: _ => isSpace b = true | [] => True end →
  nonSpaces (name ++ rest) = (name, rest).
Proof.
  intros Hname Hrest. induction Hname as [|b name Hb _ IH].
  - change ([] ++ rest) with rest. destruct rest as [|b rest]; [done|].
    cbn [nonSpaces]. by rewrite Hrest.
  - change ((b :: name) ++ rest) with (b :: (name ++ rest)).
    cbn [nonSpaces]. by rewrite Hb, IH.
Qed.

Lemma nonSpaces_split (s name rest : list byte) :
  nonSpaces s = (name, rest) →
  s = name ++ rest ∧ Forall (fun b => isSpace b = false) name.
Proof.
  revert name rest. induction s as [|b s IH]; intros name rest Hn.
  - injection Hn as <- <-. by split.
  - cbn [nonSpaces] in Hn. destruct (isSpace b) eqn:Hb.
    + injection Hn as <- <-. by split.
    + destruct (nonSpaces s) as [name1 rest1]. injection Hn as <- <-.
      destruct (IH name1 rest1 eq_refl) as [-> Hall]. split; [done|by constructor].
Qed.

Lemma noLineFeed_forallb (l : list byte) :
  forallb (fun b => negb (Byte.eqb b nl)) l = true ↔ noLineFeed l.
Proof.
  unfold noLineFeed. induction l as [|b l IH]; simpl.
  - split; [constructor|done].
  - rewrite andb_true_iff, IH, Forall_cons. apply and_iff_compat_r.
    destruct (Byte.eqb b nl) eqn:E; simpl.
    + apply Byte.byte_dec_bl in E. split; [done|]. by intros Hne.
    + split; [|done]. intros _ ->. by rewrite (Byte.byte_dec_lb eq_refl) in E.
Qed.

(** X14.  [rePackage] matches the header lines and nothing else: it gives
    [name] exactly for the lines [# name] and [# name [variant]], where the
    name has no white space and the variant no line feed. *)
Theorem rePackage_header (line : list byte) (name : string) :
  rePackage line = Some name ↔
  Forall (fun b => isSpace b = false) (bytes name) ∧
  (line = bytes "# " ++ bytes name ∨
   ∃ variant, noLineFeed variant ∧
     line = bytes "# " ++ bytes name ++ bytes " [" ++ variant ++ bytes "]").
Proof.
  split.
  - unfold rePackage. intros Hr.
    destruct line as [|c1 [|c2 s]]; try discriminate;
      [by destruct c1|].
    assert (Hc : c1 = "#"%byte ∧ c2 = " "%byte).
    { destruct c1; try discriminate Hr; destruct c2; try discriminate Hr; done. }
    destruct Hc as [-> ->].
    destruct (nonSpaces s) as [nm rest] eqn:Hn.
    apply nonSpaces_split in Hn as [-> Hnm].
    assert (Hname : ∀ o, o = Some (String.string_of_list_byte nm) → o = Some name →
              bytes name = nm).
    { intros o -> [= <-]. apply String.list_byte_of_string_of_list_byte. }
    destruct rest as [|r1 rest].
    + rewrite (Hname _ eq_refl Hr). rewrite app_nil_r. split; [done|by left].
    + destruct rest as [|r2 more]; [by destruct r1|].
      assert (Hr12 : r1 = " "%byte ∧ r2 = "["%byte).
      { destruct r1; try discriminate Hr; destruct r2; try discriminate Hr; done. }
      destruct Hr12 as [-> ->].
      destruct (last more) as [c|] eqn:Hlast; [|discriminate].
      assert (Hc : c = "]"%byte) by (destruct c; try discriminate Hr; done).
      subst c.
      destruct (forallb _ more) eqn:Hall; [|discriminate].
      rewrite (Hname _ eq_refl Hr). split; [done|]. right.
      apply last_Some in Hlast as [variant ->]. exists variant. split; [|done].
      apply noLineFeed_forallb in Hall. unfold noLineFeed in *.
      by apply Forall_app in Hall as [? _].
  - intros [Hname [->|(variant & Hv & ->)]].
    + change (bytes "# " ++ bytes name) with ("#"%byte :: " "%byte :: bytes name).
      unfold rePackage. rewrite <- (app_nil_r (bytes name)).
      rewrite (nonSpaces_name _ [] Hname I).
      unfold bytes. by rewrite String.string_of_list_byte_of_string.
    + change (bytes "# " ++ bytes name ++ bytes " [" ++ variant ++ bytes "]") with
        ("#"%byte :: " "%byte :: bytes name ++ " "%byte :: "["%byte :: variant ++ ["]"%byte]).
      unfold rePackage. rewrite (nonSpaces_name _ _ Hname); [|done].
      rewrite last_snoc.
      assert (Hall : forallb (fun b => negb (Byte.eqb b nl)) (variant ++ ["]"%byte]) = true).
      { apply noLineFeed_forallb. unfold noLineFeed in *.
        apply Forall_app. split; [done|]. by constructor. }
      rewrite Hall. unfold bytes. by rewrite String.string_of_list_byte_of_string.
Qed.

Lemma splitLines_line (l : list byte) : noLineFeed l → ∀ (acc rest : list byte),
  splitLines (l ++ nl :: rest) acc = (acc ++ l) :: splitLines rest [] ∧
  splitLines l acc = [acc ++ l].
Proof.
  induction 1 as [|b l Hb _ IH]; intros acc rest.
  - simpl. by rewrite app_nil_r.
  - simpl. rewrite (eqb_nl_false b Hb).
    destruct (IH (acc ++ [b]) rest) as [-> ->]. by rewrite <- !app_assoc.
Qed.

Lemma splitLines_joinLines (more : list (list byte)) : ∀ (first : list byte),
  noLineFeed first → Forall noLineFeed more →
  splitLines (joinLines first more) [] = first :: more.
Proof.
  induction more as [|l more IH]; intros first Hfirst Hmore; simpl.
  - by destruct (splitLines_line first Hfirst [] []) as [_ ->].
  - apply Forall_cons in Hmore as [Hl Hmore].
    destruct (splitLines_line first Hfirst [] (joinLines l more)) as [-> _].
    simpl. f_equal. by apply IH.
Qed.

(** X15.  [getBrokenPackages] reads the report line by line: for lines
    joined by line feeds, the packages are the names of the lines that
    [rePackage] matches, in their order. *)
Theorem brokenPackages_lines (first : list byte) (more : list (list byte)) :
  noLineFeed first → Forall noLineFeed more →
  brokenPackages (joinLines first more) = omap rePackage (first :: more).
Proof.
  intros Hfirst Hmore. unfold brokenPackages. by rewrite splitLines_joinLines.
Qed.

(** ** The packages marked by a round *)

Lemma markPackages_fresh (toFix : list string) : ∀ (i : Z) (attempted : gset string)
  (clidx : Z) (attempted' : gset string) (clidx' : Z),
  markPackages toFix i attempted clidx = Some (attempted', clidx') →
  NoDup toFix ∧ (∀ pkg, pkg ∈ toFix → pkg ∉ attempted) ∧
  (((clArgs ∉ toFix) ∧ clidx' = clidx) ∨
   (∃ k : nat, toFix !! k = Some clArgs ∧
               clidx' = i + Z.of_nat k)).
Proof.
  induction toFix as [|p toFix IH]; intros i attempted clidx attempted' clidx' Hm;
    simpl in Hm.
  - injection Hm as <- <-. split; [constructor|]. split; [set_solver|].
    left. split; [set_solver|done].
  - destruct (bool_decide (p ∈ attempted)) eqn:Hp; [discriminate|].
    apply bool_decide_eq_false in Hp.
    apply IH in Hm as (Hnd & Hfresh & Hcl).
    assert (Hp' : p ∉ toFix) by (intros Hin; apply (Hfresh p Hin); set_solver).
    split; [by constructor|]. split.
    { intros pkg [->|Hin]%elem_of_cons; [done|].
      intros Hatt. apply (Hfresh pkg Hin). set_solver. }
    destruct Hcl as [[Hnot ->]|(k & Hk & ->)].
    + destruct (String.eqb p "command-line-arguments") eqn:Heq.
      * apply String.eqb_eq in Heq as ->. right. exists 0%nat. split; [done|lia].
      * left. split; [|done]. apply String.eqb_neq in Heq.
        intros [Hx|Hin]%elem_of_cons; [by subst p|done].
    + right. exists (S k). split; [done|lia].
Qed.

Lemma markPackages_None_inv (toFix : list string) : ∀ (i : Z) (attempted : gset string)
  (clidx : Z),
  markPackages toFix i attempted clidx = None →
  ¬ NoDup toFix ∨ ∃ pkg, pkg ∈ toFix ∧ pkg ∈ attempted.
Proof.
  induction toFix as [|p toFix IH]; intros i attempted clidx Hm; simpl in Hm;
    [discriminate|].
  destruct (bool_decide (p ∈ attempted)) eqn:Hp.
  - apply bool_decide_eq_true in Hp. right. exists p. split; [left|done].
  - apply IH in Hm as [Hnd|(pkg & Hin & Hatt)].
    + left. intros Hnd'. apply Hnd. by apply NoDup_cons in Hnd' as [_ ?].
    + apply elem_of_union in Hatt as [->%elem_of_singleton|Hatt].
      * left. intros Hnd'. by apply NoDup_cons in Hnd' as [? _].
      * right. exists pkg. split; [by right|done].
Qed.

(** X16.  The loop of [Prepare] over the report gives up exactly when the
    report names a package that was marked in an earlier round or names a
    package twice. *)
Theorem markPackages_gives_up (toFix : list string) (attempted : gset string) :
  markPackages toFix 0 attempted (-1) = None ↔
  ¬ NoDup toFix ∨ ∃ pkg, pkg ∈ toFix ∧ pkg ∈ attempted.
Proof.
  split; [apply markPackages_None_inv|].
  intros Hbad.
  destruct (markPackages toFix 0 attempted (-1)) as [[att cl]|] eqn:Hm; [|done].
  apply markPackages_fresh in Hm as (Hnd & Hfresh & _).
  destruct Hbad as [Hbad|(pkg & Hin & Hatt)]; [done|]. by destruct (Hfresh pkg Hin).
Qed.

(** X17.  When the loop goes through, [clidx] is [-1] if the report does not
    name the ad-hoc package [command-line-arguments], and otherwise the
    index of that name; the list passed to the second [Fix], the report
    without that element, does not name it any more. *)
Theorem markPackages_clidx (toFix : list string) (attempted attempted' : gset string)
  (clidx : Z) :
  markPackages toFix 0 attempted (-1) = Some (attempted', clidx) →
  ((clArgs ∉ toFix) ∧ clidx = -1) ∨
  (0 ≤ clidx ∧
   toFix !! Z.to_nat clidx = Some clArgs ∧
   clArgs ∉
     take (Z.to_nat clidx) toFix ++ drop (Z.to_nat (clidx + 1)) toFix).
Proof.
  intros Hm. apply markPackages_fresh in Hm as (Hnd & _ & [Hcl|(k & Hk & ->)]);
    [by left|right].
  split; [lia|]. replace (Z.to_nat (0 + Z.of_nat k)) with k by lia.
  replace (Z.to_nat (0 + Z.of_nat k + 1)) with (S k) by lia.
  split; [done|].
  rewrite <- (take_drop_middle toFix k _ Hk) in Hnd.
  apply NoDup_app in Hnd as (_ & Hdisj & Hnd).
  apply NoDup_cons in Hnd as [Hnot _].
  intros [Hin|Hin]%elem_of_app; [|done].
  apply (Hdisj _ Hin). left.
Qed.

(** ** What a run of Prepare keeps *)




Section PrepareKeeps.
Context `{Toolchain}.










(** X19.  A failed build whose output names no package counts as built:
    the round returns nil with [built] set, and [Run] in mode [run] then
    executes the file that the build was to write, not the go command. *)
Theorem Prepare_round_no_header (r : Runner) (fixer : Fixer) (attempted : gset string)
  (out : list byte) :
  (∀ overlay, goBuild (builds r) (rmode r) (buildArgs r) overlay = BuildFailed out) →
  brokenPackages out = [] →
  ∃ r', Prepare_round r fixer attempted = Return (Ok (None, r')) ∧
        built r' = true ∧
        (rmode r = "run" → Run r' = inl (exeName :: runArgs r)).
Proof.
  intros Hbuild Hout. unfold Prepare_round, getBrokenPackages. cbv zeta.
  destruct (bool_decide (fixed r = ∅)) eqn:He.
  - rewrite Hbuild, Hout. eexists. split; [reflexivity|].
    split; [done|]. intros Hrun. unfold Run. simpl. by rewrite Hrun.
  - simpl. rewrite Hbuild, Hout. eexists. split; [reflexivity|].
    split; [done|]. intros Hrun. unfold Run. simpl. by rewrite Hrun.
Qed.

End PrepareKeeps.

(** ** The range starts at or before the error *)

Lemma findEnclosing_pre_stmtBefore (pos : Pos) (c : Cursor) (e : Enclosing) :
  stmtBefore pos e → cursorOk (fun _ => true) c →
  Keeps True (stmtBefore pos) (findEnclosing_pre pos c e).
Proof.
  intros He _. unfold findEnclosing_pre, Keeps.
  destruct (cNode c) as [[f|n]|]; [| |done].
  - by destruct (AnyPos (FileA f) >? pos).
  - destruct (Z.gtb_spec (AnyPos (NodeA n)) pos) as [|Hpos]; [done|].
    change (AnyPos (NodeA n)) with (NodePos n) in Hpos.
    destruct n as [| | | |recv name type body|b| | |]; try done.
    + destruct (NodeEnd _ >=? pos); [done|].
      destruct body as [b|]; [|done]. by destruct (negb _).
    + by destruct (_ || _).
    + destruct (samePlace _ _); [|done]. exact Hpos.
    + destruct (samePlace _ _); [|done]. exact Hpos.
Qed.

Lemma findEnclosing_stmtBefore (file : File) (pos : Pos) (e : Enclosing) :
  findEnclosing file pos = Ok e → stmtBefore pos e.
Proof.
  unfold findEnclosing. intros He.
  pose proof (Ended_Apply (findEnclosing_pre pos) findEnclosing_post True
                (stmtBefore pos) (fun _ => true)
                (findEnclosing_pre_stmtBefore pos)
                (fun c e He _ => He)
                file (mkEnclosing None None None) (allNodesFile_true file) I) as Hend.
  destruct (Apply _ _ _ _); simpl in Hend; [by injection He as <-..|discriminate].
Qed.

Lemma lastStmtBefore_pos (l : list Node) (pos : Pos) : ∀ (statement : Node),
  NodePos statement ≤ pos → NodePos (lastStmtBefore l pos statement) ≤ pos.
Proof.
  induction l as [|s l IH]; intros statement Hs; simpl; [done|].
  destruct (NodePos s <? pos) eqn:Hlt; [apply IH; lia|done].
Qed.

(** X20.  The range that [findRangeToFix] gives never starts after the
    error: the test [start > offset] of [fixError] cannot hold for it. *)
Theorem findRangeToFix_starts_before (file : File) (content : list byte) (offset : Z)
  (start end_ : Z) (tail : list byte) :
  0 ≤ offset →
  findRangeToFix file content offset = Ok (start, end_, tail) →
  start ≤ offset ∧ (start >? offset) = false.
Proof.
  intros H0 Hr. cut (start ≤ offset); [lia|].
  unfold findRangeToFix in Hr.
  destruct (findEnclosing file (FileStart file + offset)) as [e|] eqn:He; [|discriminate].
  apply findEnclosing_stmtBefore in He. unfold stmtBefore in He. simpl in Hr.
  destruct (match block e with
            | Some (_, b) => if IsValid (Rbrace b) then Some b else None
            | None => None
            end) as [b|].
  { destruct (stmt e) as [s|]; [|discriminate]. injection Hr as <- <- <-. lia. }
  destruct (fnBody e) as [[fp fb]|]; [|destruct (stmt e); injection Hr as <- <- <-; lia].
  destruct (stmt e) as [statement|]; [|injection Hr as <- <- <-; lia].
  assert (Hs0 : NodePos (if negb (sameBlock (block e) (Some (fp, fb)))
                         then lastStmtBefore (List fb) (FileStart file + offset) statement
                         else statement) - FileStart file ≤ offset).
  { destruct (negb _); [|lia].
    pose proof (lastStmtBefore_pos (List fb) (FileStart file + offset) statement He). lia. }
  set (s0 := NodePos _ - FileStart file) in *.
  unbind Hr; injection Hr as <- <- <-; exact Hs0.
Qed.

(** ** The overlay of a runner that was built *)

Section PrepareBuilt.
Context `{Toolchain}.

Lemma getBrokenPackages_covered (r : Runner) (toFix : list string) (err : option error)
  (r1 : Runner) :
  getBrokenPackages r = (toFix, err, r1) →
  covered r1 ∧ (built r = false → built r1 = true → toFix = [] ∧ err = None).
Proof.
  unfold getBrokenPackages. cbv zeta. intros Hg.
  destruct (bool_decide (fixed r = ∅)) eqn:He.
  - apply bool_decide_eq_true in He.
    destruct (goBuild _ _ _ _); injection Hg as <- <- <-; unfold covered; simpl;
      (split; [split; [rewrite He; set_solver|done]|]); try done; congruence.
  - simpl in Hg. destruct (goBuild _ _ _ _); injection Hg as <- <- <-;
      unfold covered; simpl;
      (split; [split; [rewrite dom_union; set_solver|done]|]); try done; congruence.
Qed.

Lemma Prepare_round_built (r : Runner) (fixer : Fixer) (attempted : gset string) :
  built r = false →
  match Prepare_round r fixer attempted with
  | Return (Ok (_, r')) => built r' = true → covered r'
  | Return Fault => True
  | Again r' _ _ => built r' = false
  end.
Proof.
  intros Hb. unfold Prepare_round.
  destruct (getBrokenPackages r) as [[toFix err] r1] eqn:Hg.
  apply getBrokenPackages_covered in Hg as [Hcov Hbuilt]. specialize (Hbuilt Hb).
  destruct err as [e|]; [by intros [_ ?]%Hbuilt|].
  destruct toFix as [|p toFix]; [by intros _|].
  assert (Hb1 : built r1 = false).
  { destruct (built r1); [by destruct Hbuilt|done]. }
  destruct (markPackages (p :: toFix) 0 attempted (-1)) as [[att cl]|]; [|congruence].
  destruct (cl >? -1).
  - unfold mbind, Result_bind.
    destruct (runFix r1 fixer (buildArgs r1)) as [[[e1 r2] fx2]|] eqn:H1; [|done].
    apply runFix_built in H1.
    destruct e1 as [e1|]; [congruence|].
    destruct (runFix r2 fx2 _) as [[[e2 r3] fx3]|] eqn:H2; [|done].
    apply runFix_built in H2.
    destruct e2; congruence.
  - destruct (runFix r1 fixer (p :: toFix)) as [[[e2 r3] fx3]|] eqn:H2; [|done].
    apply runFix_built in H2.
    destruct e2; congruence.
Qed.

Lemma Prepare_loop_built (fuel : nat) : ∀ (r : Runner) (fixer : Fixer)
  (attempted : gset string) (err : option error) (r' : Runner),
  Prepare_loop fuel r fixer attempted = Some (Ok (err, r')) →
  built r = false → built r' = true → covered r'.
Proof.
  induction fuel as [|fuel IH]; intros r fixer attempted err r' Hp Hb Hb'; [discriminate|].
  simpl in Hp. pose proof (Prepare_round_built r fixer attempted Hb) as Hk.
  destruct (Prepare_round r fixer attempted) as [res|r1 fixer1 att1].
  - injection Hp as ->. by apply Hk.
  - by eapply IH.
Qed.

(** X21.  When [Prepare] ends with a runner that counts as built, the
    overlay written for the last build has every file of [fixed], and with
    a fix present the overlay file exists, so that [Run] in mode [build]
    passes it to the go command. *)
Theorem Prepare_built_overlay (fuel : nat) (r : Runner) (err : option error)
  (r' : Runner) :
  Prepare fuel r = Some (Ok (err, r')) →
  built r = false → built r' = true →
  dom (fixed r') ⊆ dom (overlays r') ∧
  (fixed r' ≠ ∅ → rmode r' = "build" →
   Run r' = inl ("go" :: "build" :: ("-overlay=" +:+ overlayName) :: buildArgs r')).
Proof.
  unfold Prepare. intros Hp Hb Hb'.
  destruct (Prepare_loop_built _ _ _ _ _ _ Hp Hb Hb') as [Hdom Hfile].
  split; [done|]. intros Hne Hmode. unfold Run. rewrite Hb', Hmode, (Hfile Hne). done.
Qed.

End PrepareBuilt.

(** ** The properties at the examples *)

Lemma fixUnusedVar_patch_witness :
  ∃ before removed after,
    unused_src = before ++ removed ++ after ∧ len before = 21 ∧ len removed = 1 ∧
    fixUnusedVar fixer0 unused_file "u.go" unused_src 21 =
      Ok (true, setFixed fixer0 (<["u.go" := before ++ bytes "_" ++ after]> (Fixed fixer0))).
Proof.
  destruct (fixUnusedVar_patch fixer0 unused_file "u.go" unused_src 21)
    as (found & Hw & Hfound).
  vm_compute in Hw. injection Hw as <-.
  destruct Hfound as (_ & _ & Hpatch & _). apply Hpatch.
  split; vm_compute; discriminate.
Defined.

Lemma fixUselessAssignment_patch_witness :
  ∃ before colon after,
    useless_src = before ++ colon :: after ∧ len before = 31 ∧
    fixUselessAssignment fixer0 useless_file "v.go" useless_src 31 =
      Ok (true, setFixed fixer0 (<["v.go" := before ++ after]> (Fixed fixer0))).
Proof.
  destruct (fixUselessAssignment_patch fixer0 useless_file "v.go" useless_src 31)
    as (found & Hw & Hfound).
  vm_compute in Hw. injection Hw as <-.
  destruct Hfound as (_ & _ & Hpatch & _). apply Hpatch; [reflexivity|].
  split; [vm_compute; discriminate|reflexivity].
Defined.

Lemma findEnclosing_total_witness :
  allNodesFile hasBody hex_file = true ∧ ∃ e, findEnclosing hex_file 56 = Ok e.
Proof.
  split; [reflexivity|]. apply (findEnclosing_total hex_file 56). reflexivity.
Defined.

Lemma findEnclosing_bodyless_faults_witness :
  findEnclosing bodyless_file 35 = Fault ∧
  findRangeToFix bodyless_file bodyless_src (35 - FileStart bodyless_file) = Fault.
Proof.
  apply (findEnclosing_bodyless_faults bodyless_file 35 [] None (mkIdent 16 "f")
           bodyless_type [bodyless_g] bodyless_src);
    [reflexivity|reflexivity|simpl; lia..].
Defined.

Lemma fixError_outside_function_witness :
  findRangeToFix tld_file tld_src 13 = Ok (0, 0, []) ∧
  @fixError demo fixer0 (Some tld_file) "tld.go" tld_src 13 tld_msg = Ok (false, fixer0).
Proof.
  apply (@fixError_outside_function demo fixer0 tld_file "tld.go" tld_src 13 tld_msg
           [OtherNode 14 59 []] []);
    [reflexivity..|].
  apply List.Forall_nil.
Defined.

Lemma findRangeToFix_tail_witness :
  findRangeToFix open_file open_src 39 = Ok (27, 45, [rbrace]) ∧
  ([rbrace] = [] ∨ ([rbrace] = [rbrace] ∧ 0 ≤ 27 ∧ 27 ≤ 45 ∧ 45 < len open_src)).
Proof.
  split; [vm_compute; reflexivity|].
  apply (findRangeToFix_tail open_file open_src 39 27 45 [rbrace]).
  vm_compute; reflexivity.
Defined.

Lemma fixError_scan_no_fault_witness :
  noValidBlock open_enclosing ∧
  ∃ b f', @fixError demo fixer0 (Some open_file) "open.go" open_src 39 open_msg
            = Ok (b, f').
Proof.
  split; [reflexivity|].
  apply (@fixError_scan_no_fault demo fixer0 open_file "open.go" open_src 39 open_msg
           open_enclosing 27 45 [rbrace]);
    first [reflexivity | vm_compute; reflexivity].
Defined.

Lemma fixError_keeps_line_count_witness :
  lineBreaks (@panicCall demo hex_msg) = 0%nat ∧
  ∃ new, Fixed (setFixed fixer0 {["hex.go" := hex_fixed_src]}) !! "hex.go" = Some new ∧
         lineBreaks new = lineBreaks hex_src.
Proof.
  split; [vm_compute; reflexivity|].
  apply (@fixError_keeps_line_count demo fixer0 (Some hex_file) "hex.go" hex_src 55 hex_msg);
    vm_compute; reflexivity.
Defined.

Lemma parseFile_result_witness :
  ∃ file err f',
    @parseFile demo fixer0 "hex.go" hex_src = Ok (file, err, f') ∧
    (∀ other, other ≠ "hex.go" → Fixed f' !! other = Fixed fixer0 !! other) ∧
    ∃ last, @ParseFile demo "hex.go" last = (file, err) ∧
      ((last = hex_src ∧ Fixed f' = Fixed fixer0) ∨ Fixed f' !! "hex.go" = Some last).
Proof.
  eexists _, _, _. split; [vm_compute; reflexivity|].
  apply (@parseFile_result demo fixer0 "hex.go" hex_src).
  vm_compute; reflexivity.
Defined.

Lemma Fix_keeps_entries_witness :
  ∃ err f', @Fix demo fixer1 ["p"] = Ok (err, f') ∧
    dom (Fixed fixer1) ⊆ dom (Fixed f') ∧ mode f' = mode fixer1 ∧
    verbose f' = verbose fixer1.
Proof.
  eexists _, _. split; [vm_compute; reflexivity|].
  eapply (@Fix_keeps_entries demo fixer1 ["p"]).
  vm_compute; reflexivity.
Defined.

Lemma fixPkg_no_tree_faults_witness :
  @fixPkg demo fixer0 (mkPackage [undefined "x" 21] []) = Fault.
Proof.
  apply (@fixPkg_no_tree_faults demo fixer0 (mkPackage [undefined "x" 21] [])
           (undefined "x" 21) [] two_src);
    [reflexivity|apply List.Forall_nil|reflexivity|reflexivity].
Defined.

Lemma offsetOfLineColumn_found_witness :
  offsetOfLineColumn
    (terminated [bytes "package p"] ++ bytes "func a() { " ++ "x"%byte :: bytes "() }")
    0 1 0 (Z.of_nat (length [bytes "package p"]) + 1) (len (bytes "func a() { ") + 1) 0
  = len (terminated [bytes "package p"]) + len (bytes "func a() { ").
Proof.
  apply (offsetOfLineColumn_found [bytes "package p"] (bytes "func a() { ") "x"%byte
           (bytes "() }") 0).
  - apply List.Forall_cons; [|apply List.Forall_nil].
    repeat first [apply List.Forall_nil | apply List.Forall_cons; [discriminate|]].
  - repeat first [apply List.Forall_nil | apply List.Forall_cons; [discriminate|]].
  - discriminate.
Defined.

Lemma New_splits_args_witness :
  New "run" false ["a.go"; "b.go"; "x"]
    = Ok (mkRunner "run" false ["a.go"; "b.go"] ["x"] false ∅ ∅ EmptyString 0) ∧
  Run (mkRunner "run" false ["a.go"; "b.go"] ["x"] false ∅ ∅ EmptyString 0)
    = inl ["go"; "run"; "a.go"; "b.go"; "x"].
Proof.
  split; [reflexivity|].
  apply (New_splits_args "run" false ["a.go"; "b.go"; "x"]
           (mkRunner "run" false ["a.go"; "b.go"] ["x"] false ∅ ∅ EmptyString 0)).
  reflexivity.
Defined.

Lemma rePackage_header_witness :
  rePackage (bytes "# " ++ bytes "p" ++ bytes " [" ++ bytes "p.test" ++ bytes "]")
    = Some "p".
Proof.
  apply (proj2 (rePackage_header
                  (bytes "# " ++ bytes "p" ++ bytes " [" ++ bytes "p.test" ++ bytes "]") "p")).
  split; [apply List.Forall_cons; [reflexivity|apply List.Forall_nil]|].
  right. exists (bytes "p.test"). split; [|reflexivity].
  repeat first [apply List.Forall_nil | apply List.Forall_cons; [discriminate|]].
Defined.

Lemma brokenPackages_lines_witness :
  brokenPackages (joinLines (bytes "# p") [bytes "./a.go:2:12: undefined: x"])
    = omap rePackage [bytes "# p"; bytes "./a.go:2:12: undefined: x"].
Proof.
  apply (brokenPackages_lines (bytes "# p") [bytes "./a.go:2:12: undefined: x"]).
  - repeat first [apply List.Forall_nil | apply List.Forall_cons; [discriminate|]].
  - apply List.Forall_cons; [|apply List.Forall_nil].
    repeat first [apply List.Forall_nil | apply List.Forall_cons; [discriminate|]].
Defined.

Lemma markPackages_clidx_witness :
  ((clArgs ∉ ["p"; clArgs]) ∧ 1 = -1) ∨
  (0 ≤ 1 ∧ ["p"; clArgs] !! Z.to_nat 1 = Some clArgs ∧
   clArgs ∉ take (Z.to_nat 1) ["p"; clArgs] ++ drop (Z.to_nat (1 + 1)) ["p"; clArgs]).
Proof.
  eapply (markPackages_clidx ["p"; clArgs] ∅ _ 1).
  vm_compute; reflexivity.
Defined.


Lemma Prepare_round_no_header_witness :
  brokenPackages nomod_out = [] ∧
  ∃ r', @Prepare_round nomod runner1 fixer0 ∅ = Return (Ok (None, r')) ∧
        built r' = true ∧
        (rmode runner1 = "run" → Run r' = inl (exeName :: runArgs runner1)).
Proof.
  split; [vm_compute; reflexivity|].
  apply (@Prepare_round_no_header nomod runner1 fixer0 ∅ nomod_out);
    [intros overlay; reflexivity|vm_compute; reflexivity].
Defined.

Lemma findRangeToFix_starts_before_witness :
  findRangeToFix hex_file hex_src 55 = Ok (43, 60, []) ∧
  43 ≤ 55 ∧ (43 >? 55) = false.
Proof.
  split; [vm_compute; reflexivity|].
  apply (findRangeToFix_starts_before hex_file hex_src 55 43 60 []);
    [lia|vm_compute; reflexivity].
Defined.

Lemma Prepare_built_overlay_witness :
  ∃ r', @Prepare fixable 3 runner0 = Some (Ok (None, r')) ∧
    built r' = true ∧ fixed r' ≠ ∅ ∧
    dom (fixed r') ⊆ dom (overlays r') ∧
    (fixed r' ≠ ∅ → rmode r' = "build" →
     Run r' = inl ("go" :: "build" :: ("-overlay=" +:+ overlayName) :: buildArgs r')).
Proof.
  eexists. split; [vm_compute; reflexivity|].
  split; [reflexivity|]. split; [vm_compute; discriminate|].
  apply (@Prepare_built_overlay fixable 3 runner0 None);
    [vm_compute; reflexivity|reflexivity|reflexivity].
Defined.
